(** * Genie: audio playback and streamed chat, verified against the source

    A shallow embedding of the client-side audio utilities (copied into
    [StudyInterface.tsx], the flashcard panel and the concept explainer),
    of the three read-aloud panels built on them, of the chat panel's
    stream consumer ([Chat.tsx]), of the quiz panel ([Quiz.tsx]) and of the
    upload of a document ([LandingPage], [App.tsx]).

    Platform functions the source calls ([atob], [Int16Array],
    [createBuffer], property lookup on an object literal, [String.trim])
    are modelled by their published contract (HTML, ECMAScript and Web
    Audio standards); everything else follows the TypeScript text. *)

From Stdlib Require Import ZArith NArith QArith List Lia String Ascii Bool ZifyNat ZifyN.
From stdpp Require Import base option list functions gmap relations.

Set Default Proof Using "Type".
Local Open Scope N_scope.

(** [lia] also decides goals with division and remainder by constants. *)
Ltac Zify.zify_post_hook ::= Z.to_euclidean_division_equations.

(** ** JavaScript values used by the program *)

(** A JavaScript string is a sequence of UTF-16 code units. *)
Definition JSString := list N.

(** A literal of this file, written as a Rocq string of code units below 256. *)
Definition js (s : string) : JSString :=
  map (fun c => N_of_ascii c) (list_ascii_of_string s).

(** The truth value of a string used as a condition: only the empty string
    is falsy. *)
Definition nonempty (s : JSString) : bool :=
  match s with [] => false | _ => true end.

(** Exceptions the modelled code can raise. *)
Inductive JSError :=
  | InvalidCharacterError   (* atob: not forgiving-base64 *)
  | RangeError              (* Int16Array over an odd number of bytes *)
  | NotSupportedError       (* createBuffer with an argument outside its range *)
  | SynthesisError.         (* generateSpeech: "Failed to generate audio" *)

Inductive Result (A : Type) :=
  | Ok (a : A)
  | Throw (e : JSError).
Arguments Ok {A} a.
Arguments Throw {A} e.

Definition bindR {A B} (r : Result A) (k : A -> Result B) : Result B :=
  match r with
  | Ok a => k a
  | Throw e => Throw e
  end.

Notation "'let?' x := r 'in' k" := (bindR r (fun x => k))
  (at level 10, x name, r at level 100, k at level 200).


Module Base64.

(** ASCII whitespace of the HTML standard: TAB, LF, FF, CR, SPACE. *)
Definition is_ascii_whitespace (c : N) : bool :=
  (c =? 9) || (c =? 10) || (c =? 12) || (c =? 13) || (c =? 32).

(** Value of a code unit in the base64 alphabet (A-Z a-z 0-9 + /). *)
Definition base64_index (c : N) : option N :=
  if (65 <=? c) && (c <=? 90) then Some (c - 65)
  else if (97 <=? c) && (c <=? 122) then Some (c - 97 + 26)
  else if (48 <=? c) && (c <=? 57) then Some (c - 48 + 52)
  else if c =? 43 then Some 62
  else if c =? 47 then Some 63
  else None.

(** The code unit of a 6-bit value. *)
Definition base64_char (v : N) : N :=
  if v <? 26 then 65 + v
  else if v <? 52 then 97 + (v - 26)
  else if v <? 62 then 48 + (v - 52)
  else if v =? 62 then 43
  else 47.

Definition equals_sign : N := 61.

(** "If data ends with one or two U+003D (=) code points, remove them." *)
Definition strip_padding (d : JSString) : JSString :=
  match rev d with
  | c1 :: c2 :: r =>
      if c1 =? equals_sign
      then if c2 =? equals_sign then rev r else rev (c2 :: r)
      else d
  | [c1] => if c1 =? equals_sign then [] else d
  | [] => d
  end.

(** Every 24 buffered bits give three bytes; 18 left over give two (the
    last two bits are discarded), 12 left over give one (four discarded). *)
Fixpoint decode_groups (sextets : list N) : list N :=
  match sextets with
  | a :: b :: c :: d :: rest =>
      let n := a * 262144 + b * 4096 + c * 64 + d in
      (n / 65536) :: ((n / 256) mod 256) :: (n mod 256) :: decode_groups rest
  | [a; b; c] =>
      let n := (a * 4096 + b * 64 + c) / 4 in
      [n / 256; n mod 256]
  | [a; b] => [(a * 64 + b) / 16]
  | _ => []
  end.

(** [atob]: the forgiving-base64 decode of the HTML standard.  The result
    is a binary string, one code unit below 256 per byte. *)
Definition atob (data : JSString) : Result JSString :=
  let d1 := filter (fun c => is_ascii_whitespace c = false) data in
  let d2 := if (length d1 mod 4 =? 0)%nat then strip_padding d1 else d1 in
  if (length d2 mod 4 =? 1)%nat then Throw InvalidCharacterError
  else match mapM base64_index d2 with
       | Some sextets => Ok (decode_groups sextets)
       | None => Throw InvalidCharacterError
       end.


(** The 6-bit groups of a byte sequence, the last one padded with zero bits. *)
Fixpoint sextets_of_bytes (bytes : list N) : list N :=
  match bytes with
  | a :: b :: c :: rest =>
      let n := a * 65536 + b * 256 + c in
      (n / 262144) :: ((n / 4096) mod 64) :: ((n / 64) mod 64) :: (n mod 64)
        :: sextets_of_bytes rest
  | [a; b] =>
      let n := (a * 256 + b) * 4 in
      [n / 4096; (n / 64) mod 64; n mod 64]
  | [a] =>
      let n := a * 16 in
      [n / 64; n mod 64]
  | [] => []
  end.

(** Standard base64 encoding with padding (what [btoa] produces), the
    encoder of the round-trip property. *)
Definition btoa (bytes : list N) : JSString :=
  map base64_char (sextets_of_bytes bytes)
    ++ repeat equals_sign ((3 - length bytes mod 3) mod 3)%nat.

(** Follows the spec's words, not the source: "malformed base64" read
    strictly (RFC 4648), a text that is not the padded encoding of any byte
    sequence.  [canonical data] says that [data] is such an encoding: it
    decodes, and encoding the bytes again gives [data] back (see
    [canonical_spec]). *)
Definition canonical (data : JSString) : bool :=
  match atob data with
  | Ok bytes => bool_decide (btoa bytes = data)
  | Throw _ => false
  end.

End Base64.

(** ** The audio decoder: [decode] and [decodeAudioData] *)

Module Decoder.

(** [decode]: [atob], then one [Uint8Array] element per code unit (a
    typed-array store keeps the value modulo 256). *)
Definition decode (base64 : JSString) : Result (list N) :=
  let? binaryString := Base64.atob base64 in
  Ok (map (fun c => c mod 256) binaryString).

(** One element of the [Int16Array] view: two bytes, low byte first
    (typed arrays use the platform's byte order, little-endian on every
    platform a browser runs on), read as a two's-complement integer. *)
Definition int16_of_bytes (lo hi : N) : Z :=
  let u := Z.of_N (lo + 256 * hi) in
  if (u <? 32768)%Z then u else (u - 65536)%Z.

Fixpoint int16_view (data : list N) : list Z :=
  match data with
  | lo :: hi :: rest => int16_of_bytes lo hi :: int16_view rest
  | _ => []
  end.

(** [new Int16Array(data.buffer)]: a RangeError unless the buffer's byte
    length is a multiple of 2. *)
Definition Int16Array (data : list N) : Result (list Z) :=
  if Nat.even (length data) then Ok (int16_view data) else Throw RangeError.

(** A [Float32Array] element.  Every value the decoder stores is a 16-bit
    integer over 2^15, which single precision holds exactly (see
    [sample_exact_in_binary32]), so samples are kept as rationals. *)
Definition sample_of_int16 (s : Z) : Q := Qmake s 32768.

Record AudioBuffer := mkAudioBuffer {
  numberOfChannels : nat;
  buffer_length : nat;
  sampleRate : N;
  channels : list (list Q)
}.

(** An audio context, as far as [createBuffer] depends on it: the number
    of channels and the sample rates its implementation supports.  The Web
    Audio standard leaves these limits to the implementation and requires
    at least 32 channels and the rates from 8000 to 96000 Hz. *)
Record AudioContext := mkAudioContext {
  maxChannels : nat;
  minRate : N;
  maxRate : N
}.

Definition conforming (ctx : AudioContext) : Prop :=
  (32 <= maxChannels ctx)%nat /\ minRate ctx <= 8000 /\ 96000 <= maxRate ctx.

(** The context of an implementation that supports no more than it must. *)
Definition minimal_context : AudioContext := mkAudioContext 32 8000 96000.

(** [ctx.createBuffer]: a NotSupportedError when the channel count or the
    frame count is zero, or the channel count or the sample rate is outside
    what the implementation supports; otherwise silence in every channel. *)
Definition createBuffer (ctx : AudioContext) (numChannels frameCount : nat) (rate : N)
  : Result AudioBuffer :=
  if (numChannels =? 0)%nat || (frameCount =? 0)%nat
     || (maxChannels ctx <? numChannels)%nat
     || (rate <? minRate ctx) || (maxRate ctx <? rate)
  then Throw NotSupportedError
  else Ok (mkAudioBuffer numChannels frameCount rate
             (repeat (repeat 0%Q frameCount) numChannels)).

(** The inner loop: [channelData[i] = dataInt16[i * numChannels + channel] / 32768.0]
    for [i] below [frameCount].  The index is always in range; the default
    stands for an out-of-range read. *)
Definition fill_channel (dataInt16 : list Z) (numChannels channel frameCount : nat)
    (channelData : list Q) : list Q :=
  foldl (fun cd i =>
           <[i := sample_of_int16 (default 0%Z (dataInt16 !! (i * numChannels + channel)%nat))]> cd)
        channelData (seq 0 frameCount).

(** The outer loop over the channels of the buffer. *)
Definition fill_channels (dataInt16 : list Z) (numChannels frameCount : nat)
    (chans : list (list Q)) : list (list Q) :=
  foldl (fun cs channel =>
           match cs !! channel with
           | Some cd => <[channel := fill_channel dataInt16 numChannels channel frameCount cd]> cs
           | None => cs
           end)
        chans (seq 0 numChannels).

(** [decodeAudioData].  [frameCount] is [dataInt16.length / numChannels];
    [createBuffer] takes it as an unsigned long, hence the integer quotient. *)
Definition decodeAudioData (data : list N) (ctx : AudioContext) (rate : N)
    (numChannels : nat) : Result AudioBuffer :=
  let? dataInt16 := Int16Array data in
  let frameCount := (length dataInt16 / numChannels)%nat in
  let? buffer := createBuffer ctx numChannels frameCount rate in
  Ok (mkAudioBuffer (numberOfChannels buffer) (buffer_length buffer) (sampleRate buffer)
        (fill_channels dataInt16 numChannels frameCount (channels buffer))).

(** The two calls as [playAudio] chains them: 24000 Hz, one channel.  Every
    implementation supports these, so the result is the same on every
    conforming context (see [decodeAudioData_any_context]) and the minimal
    one stands for the page's. *)
Definition decode_payload (base64Audio : JSString) : Result AudioBuffer :=
  let? decodedBytes := decode base64Audio in
  decodeAudioData decodedBytes minimal_context 24000 1.

(** The encoder of the round-trip property: each sample as two bytes, low
    byte first, in two's complement. *)
Definition bytes_of_int16 (s : Z) : list N :=
  let u := Z.to_N (s mod 65536)%Z in [u mod 256; u / 256].

Definition encode_samples (samples : list Z) : JSString :=
  Base64.btoa (flat_map bytes_of_int16 samples).

Definition is_int16 (s : Z) : Prop := (-32768 <= s < 32768)%Z.

(** A rational that single precision represents exactly: [m * 2^e] with a
    24-bit significand and an exponent in the format's range. *)
Definition binary32_exact (q : Q) : Prop :=
  exists m e : Z,
    (Z.abs m < 2 ^ 24)%Z /\ (-149 <= e <= 104)%Z /\
    (q == inject_Z m * (2 ^ e))%Q.

End Decoder.

(** ** The page: one audio graph, three copies of the audio utilities,
       and the panels that read text aloud *)

Module Page.

Import Decoder.

(** The files that each declare their own [audioContext], [currentSource],
    [playAudio] and [stopAudio]: [StudyInterface.tsx] (used by the summary
    panel), the flashcard panel's file and the concept explainer's file. *)
Inductive AudioModule := StudyInterfaceTsx | FlashcardTsx | ConceptExplainerTsx.

#[global] Instance AudioModule_eq_dec : EqDecision AudioModule.
Proof. solve_decision. Defined.

(** [types.ts] *)
Inductive StudyTool := Summary | Flashcards | Quiz | Chat | ConceptExplainer.

#[global] Instance StudyTool_eq_dec : EqDecision StudyTool.
Proof. solve_decision. Defined.

Record Flashcard := mkCard { term : JSString; definition : JSString }.

(** *** Values read out of the flashcard panel's cache object

    [audioCache] is an object literal used as a dictionary, so
    [audioCache[text]] also finds what [Object.prototype] provides. *)
Inductive JSValue :=
  | VString (s : JSString)
  | VFunction (name : JSString)     (* a built-in method of Object.prototype *)
  | VObjectPrototype.               (* Object.prototype itself, through __proto__ *)

Definition ToBoolean (v : JSValue) : bool :=
  match v with
  | VString [] => false
  | _ => true
  end.

Definition ToString (v : JSValue) : JSString :=
  match v with
  | VString s => s
  | VFunction name => js "function " ++ name ++ js "() { [native code] }"
  | VObjectPrototype => js "[object Object]"
  end.

(** The methods every object inherits; [constructor] is the function
    [Object], [__proto__] an accessor that yields [Object.prototype]. *)
Definition Object_prototype_methods : list JSString :=
  map js [ "hasOwnProperty"; "isPrototypeOf"; "propertyIsEnumerable";
           "toLocaleString"; "toString"; "valueOf"; "__defineGetter__";
           "__defineSetter__"; "__lookupGetter__"; "__lookupSetter__" ]%string.

Definition Object_prototype_get (key : JSString) : option JSValue :=
  if bool_decide (key = js "constructor") then Some (VFunction (js "Object"))
  else if bool_decide (key ∈ Object_prototype_methods) then Some (VFunction key)
  else if bool_decide (key = js "__proto__") then Some VObjectPrototype
  else None.

(** [obj[key]] on an object literal with the given own properties. *)
Definition object_get (own : gmap JSString JSString) (key : JSString) : option JSValue :=
  match own !! key with
  | Some v => Some (VString v)
  | None => Object_prototype_get key
  end.

(** *** The audio graph *)

Inductive NodeState :=
  | Playing      (* started, audible *)
  | Stopped      (* stop() was called; its 'ended' event is still to be dispatched *)
  | Ended.       (* its 'ended' event has been dispatched *)

#[global] Instance NodeState_eq_dec : EqDecision NodeState.
Proof. solve_decision. Defined.

(** An [AudioBufferSourceNode] with what its [onended] closure captured:
    the file whose [playAudio] made it, the component instance whose state
    setter [onEnd] calls, and whether [playAudio] was awaited inside the
    [try]/[finally] of a generate branch. *)
Record SourceNode := mkNode {
  node_module : AudioModule;
  node_inst : nat;
  node_generated : bool;
  node_buffer : AudioBuffer;
  node_state : NodeState
}.

Definition with_state (st : NodeState) (n : SourceNode) : SourceNode :=
  mkNode (node_module n) (node_inst n) (node_generated n) (node_buffer n) st.

(** A call of [generateSpeech] and the continuation waiting for it. *)
Record SynthRequest := mkRequest {
  sr_module : AudioModule;
  sr_inst : nat;
  sr_text : JSString;
  sr_settled : bool
}.

(** *** Component state *)

Record FlashcardState := mkFlashcardState {
  fc_inst : nat;
  currentIndex : nat;
  isFlipped : bool;
  audioCache : gmap JSString JSString;
  fc_isGeneratingSpeech : bool;
  currentlyPlaying : option JSString
}.

(** The summary panel and the concept explainer hold the same audio
    state; [explanation] is used by the explainer only. *)
Record ReaderState := mkReaderState {
  rd_inst : nat;
  explanation : JSString;
  isPlaying : bool;
  rd_isGeneratingSpeech : bool;
  audioDataRef : option JSString
}.

(** What [renderContent] has mounted. *)
Inductive Panel :=
  | SummaryPanel (r : ReaderState)
  | FlashcardPanel (f : FlashcardState)
  | ExplainerPanel (r : ReaderState)
  | SilentPanel (tool : StudyTool).      (* Quiz and Chat: no audio *)

Record StudyInterfaceState := mkStudy {
  activeTool : option StudyTool;
  isLoading : bool;
  error : bool;
  summary : JSString;
  flashcards : list Flashcard;
  quizQuestions : nat
}.

Record World := mkWorld {
  currentSource : AudioModule -> option nat;
  audioContext : AudioModule -> bool;
  nodes : list SourceNode;            (* every source node made so far, by identity *)
  requests : list SynthRequest;       (* every generateSpeech call so far *)
  decode_calls : list JSString;       (* every argument decode was called with *)
  study : StudyInterfaceState;
  panel : option Panel;
  next_inst : nat
}.

Definition initial : World :=
  mkWorld (fun _ => None) (fun _ => false) [] [] []
          (mkStudy None false false [] [] 0) None 0.

Definition set_currentSource (m : AudioModule) (v : option nat) (w : World) : World :=
  mkWorld (<[m := v]> (currentSource w)) (audioContext w) (nodes w) (requests w)
          (decode_calls w) (study w) (panel w) (next_inst w).
Definition set_audioContext (m : AudioModule) (w : World) : World :=
  mkWorld (currentSource w) (<[m := true]> (audioContext w)) (nodes w) (requests w)
          (decode_calls w) (study w) (panel w) (next_inst w).
Definition set_nodes (v : list SourceNode) (w : World) : World :=
  mkWorld (currentSource w) (audioContext w) v (requests w)
          (decode_calls w) (study w) (panel w) (next_inst w).
Definition set_requests (v : list SynthRequest) (w : World) : World :=
  mkWorld (currentSource w) (audioContext w) (nodes w) v
          (decode_calls w) (study w) (panel w) (next_inst w).
Definition set_decode_calls (v : list JSString) (w : World) : World :=
  mkWorld (currentSource w) (audioContext w) (nodes w) (requests w)
          v (study w) (panel w) (next_inst w).
Definition set_study (v : StudyInterfaceState) (w : World) : World :=
  mkWorld (currentSource w) (audioContext w) (nodes w) (requests w)
          (decode_calls w) v (panel w) (next_inst w).
Definition set_panel (v : option Panel) (w : World) : World :=
  mkWorld (currentSource w) (audioContext w) (nodes w) (requests w)
          (decode_calls w) (study w) v (next_inst w).
Definition set_next_inst (v : nat) (w : World) : World :=
  mkWorld (currentSource w) (audioContext w) (nodes w) (requests w)
          (decode_calls w) (study w) (panel w) v.

(** *** The audio utilities, as each file declares them *)

(** [source.stop()]: a playing node falls silent and its 'ended' event is
    queued; on a node that already stopped or ended nothing changes. *)
Definition stop_node (s : nat) (w : World) : World :=
  set_nodes (alter (fun n => match node_state n with
                             | Playing => with_state Stopped n
                             | _ => n
                             end) s (nodes w)) w.

Definition stopAudio (m : AudioModule) (w : World) : World :=
  match currentSource w m with
  | Some s => set_currentSource m None (stop_node s w)
  | None => w
  end.

(** [getAudioContext]: the context is made on first use.  No code closes
    it, so "missing or closed" is "not made yet". *)
Definition getAudioContext (m : AudioModule) (w : World) : World :=
  if audioContext w m then w else set_audioContext m w.

(** [playAudio(base64Audio, onEnd)] of file [m], called by component
    instance [inst].  It runs to its end within one task: the awaited
    [decodeAudioData] has no suspension of its own.  The world is returned
    also when an exception escapes, since the statements before it have
    run. *)
Definition playAudio (m : AudioModule) (inst : nat) (generated : bool)
    (base64Audio : JSValue) (w : World) : World * Result nat :=
  let w := match currentSource w m with
           | Some s => stop_node s w
           | None => w
           end in
  let w := getAudioContext m w in
  let w := set_decode_calls (decode_calls w ++ [ToString base64Audio]) w in
  match decode_payload (ToString base64Audio) with
  | Throw e => (w, Throw e)
  | Ok audioBuffer =>
      let source := length (nodes w) in
      let w := set_nodes (nodes w ++ [mkNode m inst generated audioBuffer Playing]) w in
      (set_currentSource m (Some source) w, Ok source)
  end.

(** *** State setters; a setter of an unmounted instance does nothing *)

Definition setFlashcard (inst : nat) (f : FlashcardState -> FlashcardState)
    (w : World) : World :=
  match panel w with
  | Some (FlashcardPanel fs) =>
      if (fc_inst fs =? inst)%nat then set_panel (Some (FlashcardPanel (f fs))) w else w
  | _ => w
  end.

Definition setReader (m : AudioModule) (inst : nat) (f : ReaderState -> ReaderState)
    (w : World) : World :=
  match m, panel w with
  | StudyInterfaceTsx, Some (SummaryPanel rs) =>
      if (rd_inst rs =? inst)%nat then set_panel (Some (SummaryPanel (f rs))) w else w
  | ConceptExplainerTsx, Some (ExplainerPanel rs) =>
      if (rd_inst rs =? inst)%nat then set_panel (Some (ExplainerPanel (f rs))) w else w
  | _, _ => w
  end.

Definition fc_setCurrentlyPlaying (v : option JSString) (fs : FlashcardState) :=
  mkFlashcardState (fc_inst fs) (currentIndex fs) (isFlipped fs) (audioCache fs)
                   (fc_isGeneratingSpeech fs) v.
Definition fc_setIsGeneratingSpeech (v : bool) (fs : FlashcardState) :=
  mkFlashcardState (fc_inst fs) (currentIndex fs) (isFlipped fs) (audioCache fs)
                   v (currentlyPlaying fs).
Definition fc_setAudioCache (text audioData : JSString) (fs : FlashcardState) :=
  mkFlashcardState (fc_inst fs) (currentIndex fs) (isFlipped fs)
                   (<[text := audioData]> (audioCache fs))
                   (fc_isGeneratingSpeech fs) (currentlyPlaying fs).
Definition fc_setIsFlipped (v : bool) (fs : FlashcardState) :=
  mkFlashcardState (fc_inst fs) (currentIndex fs) v (audioCache fs)
                   (fc_isGeneratingSpeech fs) (currentlyPlaying fs).
Definition fc_setCurrentIndex (v : nat) (fs : FlashcardState) :=
  mkFlashcardState (fc_inst fs) v (isFlipped fs) (audioCache fs)
                   (fc_isGeneratingSpeech fs) (currentlyPlaying fs).

Definition rd_setIsPlaying (v : bool) (rs : ReaderState) :=
  mkReaderState (rd_inst rs) (explanation rs) v (rd_isGeneratingSpeech rs) (audioDataRef rs).
Definition rd_setIsGeneratingSpeech (v : bool) (rs : ReaderState) :=
  mkReaderState (rd_inst rs) (explanation rs) (isPlaying rs) v (audioDataRef rs).
Definition rd_setAudioDataRef (v : option JSString) (rs : ReaderState) :=
  mkReaderState (rd_inst rs) (explanation rs) (isPlaying rs) (rd_isGeneratingSpeech rs) v.
Definition rd_setExplanation (v : JSString) (rs : ReaderState) :=
  mkReaderState (rd_inst rs) v (isPlaying rs) (rd_isGeneratingSpeech rs) (audioDataRef rs).

(** The [onEnd] callback handed to [playAudio]:
    [() => setCurrentlyPlaying(null)] or [() => setIsPlaying(false)]. *)
Definition onEnd (m : AudioModule) (inst : nat) (w : World) : World :=
  match m with
  | FlashcardTsx => setFlashcard inst (fc_setCurrentlyPlaying None) w
  | _ => setReader m inst (rd_setIsPlaying false) w
  end.

Definition setIsGeneratingSpeech (m : AudioModule) (inst : nat) (v : bool)
    (w : World) : World :=
  match m with
  | FlashcardTsx => setFlashcard inst (fc_setIsGeneratingSpeech v) w
  | _ => setReader m inst (rd_setIsGeneratingSpeech v) w
  end.

(** [source.onended]: clear this file's [currentSource] only if it still
    is this node, call [onEnd], resolve the promise; the handler that
    awaited [playAudio] in a generate branch then runs its [finally]. *)
Definition onended (s : nat) (w : World) : World :=
  match nodes w !! s with
  | None => w
  | Some n =>
      let m := node_module n in
      let w := if decide (currentSource w m = Some s)
               then set_currentSource m None w else w in
      let w := onEnd m (node_inst n) w in
      if node_generated n then setIsGeneratingSpeech m (node_inst n) false w else w
  end.

(** *** Speech synthesis ([geminiService.ts]) *)

(** [generateSpeech]: the inline audio data of the response; an error when
    the call failed or the data is missing or empty. *)
Definition generateSpeech (response : option JSString) : Result JSString :=
  match response with
  | Some base64Audio =>
      if nonempty base64Audio then Ok base64Audio else Throw SynthesisError
  | None => Throw SynthesisError
  end.

(** The handler calls [generateSpeech(text)] and is suspended on it. *)
Definition request_speech (m : AudioModule) (inst : nat) (text : JSString)
    (w : World) : World :=
  set_requests (requests w ++ [mkRequest m inst text false]) w.

(** *** The flashcard panel *)

(** [handlePlayAudio(text)] up to the point where it is suspended.  The
    result is [Throw] when an exception leaves the handler uncaught. *)
Definition handlePlayAudio (text : JSString) (w : World) : World * Result unit :=
  match panel w with
  | Some (FlashcardPanel fs) =>
      let inst := fc_inst fs in
      let '(w, returned) :=
        match currentlyPlaying fs with
        | Some playing =>
            if nonempty playing then
              let wasPlayingThisText := bool_decide (playing = text) in
              let w := stopAudio FlashcardTsx w in
              let w := setFlashcard inst (fc_setCurrentlyPlaying None) w in
              (w, wasPlayingThisText)
            else (w, false)
        | None => (w, false)
        end in
      if returned then (w, Ok tt)
      else
        let generate :=
          (request_speech FlashcardTsx inst text
             (setFlashcard inst (fc_setIsGeneratingSpeech true) w), Ok tt) in
        match object_get (audioCache fs) text with
        | Some cached =>
            if ToBoolean cached then
              let w := setFlashcard inst (fc_setCurrentlyPlaying (Some text)) w in
              let '(w, r) := playAudio FlashcardTsx inst false cached w in
              (w, let? _ := r in Ok tt)
            else generate
        | None => generate
        end
  | _ => (w, Ok tt)
  end.

(** The rest of [handlePlayAudio] once [generateSpeech(text)] settles. *)
Definition flashcard_speech_settled (inst : nat) (text : JSString)
    (response : option JSString) (w : World) : World :=
  match generateSpeech response with
  | Ok audioData =>
      let w := setFlashcard inst (fc_setAudioCache text audioData) w in
      let w := setFlashcard inst (fc_setCurrentlyPlaying (Some text)) w in
      let '(w, r) := playAudio FlashcardTsx inst true (VString audioData) w in
      match r with
      | Ok _ => w                      (* suspended until playback ends *)
      | Throw _ =>
          setFlashcard inst (fc_setIsGeneratingSpeech false)
            (setFlashcard inst (fc_setCurrentlyPlaying None) w)
      end
  | Throw _ =>
      setFlashcard inst (fc_setIsGeneratingSpeech false)
        (setFlashcard inst (fc_setCurrentlyPlaying None) w)
  end.

(** The effect on [currentIndex, isFlipped]:
    "Stop any playing audio when card flips or changes". *)
Definition flashcard_effect (inst : nat) (w : World) : World :=
  setFlashcard inst (fc_setCurrentlyPlaying None) (stopAudio FlashcardTsx w).

(** A state update of instance [inst], followed by the effect when one of
    its dependencies changed. *)
Definition update_flashcard (inst : nat) (f : FlashcardState -> FlashcardState)
    (w : World) : World :=
  match panel w with
  | Some (FlashcardPanel fs) =>
      if (fc_inst fs =? inst)%nat then
        let fs' := f fs in
        let w := set_panel (Some (FlashcardPanel fs')) w in
        if bool_decide (currentIndex fs' = currentIndex fs /\ isFlipped fs' = isFlipped fs)
        then w
        else flashcard_effect inst w
      else w
  | _ => w
  end.

Definition mounted_flashcard (w : World) : option FlashcardState :=
  match panel w with
  | Some (FlashcardPanel fs) => Some fs
  | _ => None
  end.

Definition flipCard (w : World) : World :=
  match mounted_flashcard w with
  | Some fs => update_flashcard (fc_inst fs) (fun fs => fc_setIsFlipped (negb (isFlipped fs)) fs) w
  | None => w
  end.

(** [goToNextCard] up to its [setTimeout]: the card is turned face up.  The
    card and its buttons are rendered only when there are flashcards. *)
Definition goToNextCard (w : World) : World :=
  match mounted_flashcard w with
  | Some fs =>
      if (length (flashcards (study w)) =? 0)%nat then w
      else update_flashcard (fc_inst fs) (fc_setIsFlipped false) w
  | None => w
  end.

(** [goToPrevCard] up to its [setTimeout]. *)
Definition goToPrevCard (w : World) : World :=
  match mounted_flashcard w with
  | Some fs =>
      if (length (flashcards (study w)) =? 0)%nat then w
      else update_flashcard (fc_inst fs) (fc_setIsFlipped false) w
  | None => w
  end.

(** The timer callbacks, 150 ms later: [(prev + 1) % length] for the next
    card and [(prev - 1 + length) % length] for the previous one. *)
Definition card_timer (inst : nat) (forward : bool) (w : World) : World :=
  let len := length (flashcards (study w)) in
  if (len =? 0)%nat then w
  else update_flashcard inst
         (fun fs => fc_setCurrentIndex
                      (if forward then (currentIndex fs + 1) mod len
                       else (currentIndex fs + len - 1) mod len)%nat fs) w.

(** *** The summary panel and the concept explainer *)

Definition mounted_reader (w : World) : option (AudioModule * ReaderState) :=
  match panel w with
  | Some (SummaryPanel rs) => Some (StudyInterfaceTsx, rs)
  | Some (ExplainerPanel rs) => Some (ConceptExplainerTsx, rs)
  | _ => None
  end.

(** [handlePlay] up to the point where it is suspended.  The summary
    panel synthesizes its [summary] prop; the explainer synthesizes its
    [explanation] and only when it is not empty. *)
Definition handlePlay (w : World) : World * Result unit :=
  match mounted_reader w with
  | Some (m, rs) =>
      let inst := rd_inst rs in
      if isPlaying rs then
        (setReader m inst (rd_setIsPlaying false) (stopAudio m w), Ok tt)
      else
        let generate (text : JSString) :=
          (request_speech m inst text
             (setReader m inst (rd_setIsGeneratingSpeech true) w), Ok tt) in
        let otherwise :=
          match m with
          | ConceptExplainerTsx =>
              if nonempty (explanation rs) then generate (explanation rs) else (w, Ok tt)
          | _ => generate (summary (study w))
          end in
        match audioDataRef rs with
        | Some data =>
            if nonempty data then
              let w := setReader m inst (rd_setIsPlaying true) w in
              let '(w, r) := playAudio m inst false (VString data) w in
              (w, let? _ := r in Ok tt)
            else otherwise
        | None => otherwise
        end
  | None => (w, Ok tt)
  end.

(** The rest of [handlePlay] once [generateSpeech] settles. *)
Definition reader_speech_settled (m : AudioModule) (inst : nat)
    (response : option JSString) (w : World) : World :=
  match generateSpeech response with
  | Ok newAudioData =>
      let w := setReader m inst (rd_setAudioDataRef (Some newAudioData)) w in
      let w := setReader m inst (rd_setIsPlaying true) w in
      let '(w, r) := playAudio m inst true (VString newAudioData) w in
      match r with
      | Ok _ => w
      | Throw _ =>
          setReader m inst (rd_setIsGeneratingSpeech false)
            (setReader m inst (rd_setIsPlaying false) w)
      end
  | Throw _ =>
      setReader m inst (rd_setIsGeneratingSpeech false)
        (setReader m inst (rd_setIsPlaying false) w)
  end.

(** [generateSpeech] call number [req] settles with [response]; each
    continuation runs once. *)
Definition speech_settled (req : nat) (response : option JSString) (w : World) : World :=
  match requests w !! req with
  | Some r =>
      if sr_settled r then w
      else
        let w := set_requests
                   (<[req := mkRequest (sr_module r) (sr_inst r) (sr_text r) true]> (requests w)) w in
        match sr_module r with
        | FlashcardTsx => flashcard_speech_settled (sr_inst r) (sr_text r) response w
        | m => reader_speech_settled m (sr_inst r) response w
        end
  | None => w
  end.

(** The audio part of the explainer's [handleExplain] (for an input that
    is not blank), and the arrival of its result. *)
Definition handleExplain (w : World) : World :=
  match panel w with
  | Some (ExplainerPanel rs) =>
      let inst := rd_inst rs in
      let w := setReader ConceptExplainerTsx inst (rd_setExplanation []) w in
      let w := stopAudio ConceptExplainerTsx w in
      let w := setReader ConceptExplainerTsx inst (rd_setIsPlaying false) w in
      setReader ConceptExplainerTsx inst (rd_setAudioDataRef None) w
  | _ => w
  end.

Definition explained (inst : nat) (result : option JSString) (w : World) : World :=
  match result with
  | Some text => setReader ConceptExplainerTsx inst (rd_setExplanation text) w
  | None => w
  end.

(** *** [StudyInterface]: choosing a tool mounts and unmounts panels *)

Definition tool_of_panel (p : Panel) : StudyTool :=
  match p with
  | SummaryPanel _ => Summary
  | FlashcardPanel _ => Flashcards
  | ExplainerPanel _ => ConceptExplainer
  | SilentPanel t => t
  end.

(** [renderContent]: the loader or the error message replace the panel. *)
Definition rendered (s : StudyInterfaceState) : option StudyTool :=
  if isLoading s then None else if error s then None else activeTool s.

(** Cleanup functions of the effects: the summary panel and the explainer
    return [() => stopAudio()]; the flashcard panel's effect returns none. *)
Definition unmount (w : World) : World :=
  match panel w with
  | Some (SummaryPanel _) => set_panel None (stopAudio StudyInterfaceTsx w)
  | Some (ExplainerPanel _) => set_panel None (stopAudio ConceptExplainerTsx w)
  | _ => set_panel None w
  end.

(** A fresh instance with its initial state; then the effects of the first
    render: the summary panel's effect on [summary] and the flashcard
    panel's effect on [currentIndex, isFlipped] both call [stopAudio]. *)
Definition mount (tool : StudyTool) (w : World) : World :=
  let inst := next_inst w in
  let w := set_next_inst (S inst) w in
  match tool with
  | Summary =>
      set_panel (Some (SummaryPanel (mkReaderState inst [] false false None)))
                (stopAudio StudyInterfaceTsx w)
  | Flashcards =>
      set_panel (Some (FlashcardPanel (mkFlashcardState inst 0 false ∅ false None)))
                (stopAudio FlashcardTsx w)
  | ConceptExplainer =>
      set_panel (Some (ExplainerPanel (mkReaderState inst [] false false None))) w
  | t => set_panel (Some (SilentPanel t)) w
  end.

(** Re-render after a change of [StudyInterface]'s state, [old] being the
    state before it. *)
Definition render (old : StudyInterfaceState) (w : World) : World :=
  let want := rendered (study w) in
  if decide (want = tool_of_panel <$> panel w) then
    match panel w with
    | Some (SummaryPanel rs) =>
        if bool_decide (summary old = summary (study w)) then w
        else
          let inst := rd_inst rs in
          let w := stopAudio StudyInterfaceTsx w in
          let w := setReader StudyInterfaceTsx inst (rd_setIsPlaying false) w in
          setReader StudyInterfaceTsx inst (rd_setAudioDataRef None) w
    | _ => w
    end
  else
    let w := unmount w in
    match want with
    | Some t => mount t w
    | None => w
    end.

Definition st_setActiveTool (t : StudyTool) (s : StudyInterfaceState) :=
  mkStudy (Some t) (isLoading s) (error s) (summary s) (flashcards s) (quizQuestions s).
Definition st_setIsLoading (v : bool) (s : StudyInterfaceState) :=
  mkStudy (activeTool s) v (error s) (summary s) (flashcards s) (quizQuestions s).
Definition st_setError (v : bool) (s : StudyInterfaceState) :=
  mkStudy (activeTool s) (isLoading s) v (summary s) (flashcards s) (quizQuestions s).
Definition st_setSummary (v : JSString) (s : StudyInterfaceState) :=
  mkStudy (activeTool s) (isLoading s) (error s) v (flashcards s) (quizQuestions s).
Definition st_setFlashcards (v : list Flashcard) (s : StudyInterfaceState) :=
  mkStudy (activeTool s) (isLoading s) (error s) (summary s) v (quizQuestions s).
Definition st_setQuizQuestions (v : nat) (s : StudyInterfaceState) :=
  mkStudy (activeTool s) (isLoading s) (error s) (summary s) (flashcards s) v.

Definition update_study (f : StudyInterfaceState -> StudyInterfaceState) (w : World) : World :=
  render (study w) (set_study (f (study w)) w).

(** [handleToolSelect(tool)] up to its [await]. *)
Definition handleToolSelect (tool : StudyTool) (w : World) : World :=
  let s := study w in
  if decide (activeTool s = Some tool) then w
  else
    let ready :=
      match tool with
      | Chat | ConceptExplainer => true
      | Summary => nonempty (summary s)
      | Flashcards => negb (length (flashcards s) =? 0)%nat
      | Quiz => negb (quizQuestions s =? 0)%nat
      end in
    if ready then update_study (st_setActiveTool tool) w
    else update_study (fun s => st_setError false (st_setIsLoading true (st_setActiveTool tool s))) w.

(** What a content generation call delivers. *)
Inductive Generated :=
  | GenSummary (text : JSString)
  | GenFlashcards (cards : list Flashcard)
  | GenQuiz (questions : nat)
  | GenFailed.

(** The rest of [handleToolSelect] once the generation call settles. *)
Definition generation_settled (g : Generated) (w : World) : World :=
  let store :=
    match g with
    | GenSummary text => st_setSummary text
    | GenFlashcards cards => st_setFlashcards cards
    | GenQuiz n => st_setQuizQuestions n
    | GenFailed => st_setError true
    end in
  update_study (fun s => st_setIsLoading false (store s)) w.

(** *** Events of the page, one task of the event loop each *)

Inductive Event :=
  | SelectTool (tool : StudyTool)
  | GenerationSettled (g : Generated)
  | PlayFlashcard (text : JSString)     (* the speaker button of a card face *)
  | FlipCard
  | GoToNextCard
  | GoToPrevCard
  | CardTimer (inst : nat) (forward : bool)
  | PlayReader                          (* the speaker button of summary or explainer *)
  | Explain
  | Explained (inst : nat) (result : option JSString)
  | SpeechSettled (req : nat) (response : option JSString)
  | SourceEnded (s : nat).              (* the 'ended' event of a source node *)

(** Dispatch of a node's 'ended' event: once, after the node played to
    its end or was stopped. *)
Definition source_ended (s : nat) (w : World) : World :=
  match nodes w !! s with
  | Some n =>
      match node_state n with
      | Ended => w
      | _ => onended s (set_nodes (<[s := with_state Ended n]> (nodes w)) w)
      end
  | None => w
  end.

Definition step (w : World) (e : Event) : World :=
  match e with
  | SelectTool tool => handleToolSelect tool w
  | GenerationSettled g => generation_settled g w
  | PlayFlashcard text => fst (handlePlayAudio text w)
  | FlipCard => flipCard w
  | GoToNextCard => goToNextCard w
  | GoToPrevCard => goToPrevCard w
  | CardTimer inst forward => card_timer inst forward w
  | PlayReader => fst (handlePlay w)
  | Explain => handleExplain w
  | Explained inst result => explained inst result w
  | SpeechSettled req response => speech_settled req response w
  | SourceEnded s => source_ended s w
  end.

Definition run (w : World) (trace : list Event) : World := foldl step w trace.

Definition reachable (w : World) : Prop := exists trace, w = run initial trace.

(** *** Observations *)

Definition is_playing (n : SourceNode) : bool :=
  match node_state n with Playing => true | _ => false end.

Definition sounds (w : World) (s : nat) : bool :=
  match nodes w !! s with
  | Some n => is_playing n
  | None => false
  end.

(** The source nodes that sound at this instant. *)
Definition audible (w : World) : list nat :=
  filter (fun s => sounds w s = true) (seq 0 (length (nodes w))).

(** The texts [generateSpeech] was called with so far that equal [text]. *)
Definition synthesis_requests (text : JSString) (w : World) : nat :=
  length (filter (fun r => sr_text r = text) (requests w)).

(** What the flashcard panel shows as playing ([None] when it is not mounted). *)
Definition playing_text (w : World) : option (option JSString) :=
  currentlyPlaying <$> mounted_flashcard w.

(** *** Invariants and relations used by the proofs *)

(** Within one file, a node that sounds is that file's [currentSource]. *)
Definition one_per_file (w : World) : Prop :=
  forall s n, nodes w !! s = Some n -> is_playing n = true ->
    currentSource w (node_module n) = Some s.

(** [w'] differs from [w] in component state only. *)
Definition same_audio (w w' : World) : Prop :=
  nodes w' = nodes w /\ currentSource w' = currentSource w /\
  requests w' = requests w /\ decode_calls w' = decode_calls w.

(** The card face on display: index and flip state of the mounted
    flashcard panel. *)
Definition face (w : World) : option (nat * bool) :=
  (fun fs => (currentIndex fs, isFlipped fs)) <$> mounted_flashcard w.

(** The flashcard panel shows nothing as playing and its file holds no
    source. *)
Definition flashcard_quiet (w : World) : Prop :=
  currentSource w FlashcardTsx = None /\
  exists fs, mounted_flashcard w = Some fs /\ currentlyPlaying fs = None.

Definition keeps_face (f : FlashcardState -> FlashcardState) : Prop :=
  forall fs, currentIndex (f fs) = currentIndex fs /\ isFlipped (f fs) = isFlipped fs.

(** After an event the face is the same, or no flashcard panel is shown, or
    the panel is quiet. *)
Definition face_settled (w w' : World) : Prop :=
  face w' = face w \/ face w' = None \/ flashcard_quiet w'.

End Page.

(** ** The chat panel ([Chat.tsx]) *)

Module ChatPanel.

(** [types.ts]: [role: 'user' | 'model']. *)
Inductive Role := user | model.

#[global] Instance Role_eq_dec : EqDecision Role.
Proof. solve_decision. Defined.

Record ChatMessage := mkMessage { role : Role; content : JSString }.

(** White space and line terminators that [String.prototype.trim] removes. *)
Definition is_js_whitespace (c : N) : bool :=
  ((9 <=? c) && (c <=? 13)) || (c =? 32) || (c =? 160) || (c =? 5760)
  || ((8192 <=? c) && (c <=? 8202)) || (c =? 8232) || (c =? 8233)
  || (c =? 8239) || (c =? 8287) || (c =? 12288) || (c =? 65279).

Fixpoint trim_start (s : JSString) : JSString :=
  match s with
  | c :: rest => if is_js_whitespace c then trim_start rest else s
  | [] => []
  end.

Definition trim (s : JSString) : JSString :=
  rev (trim_start (rev (trim_start s))).

(** The message objects live in a store and the [messages] array holds
    references to them: the stream consumer copies the array but mutates
    the last object in place, so every copy of the array sees the change. *)
Record ChatState := mkChat {
  store : list ChatMessage;      (* message objects made so far, by identity *)
  messages : list nat;           (* the [messages] array *)
  session : bool;                (* [session] is not null *)
  userInput : JSString;
  isLoading : bool;
  sent : list JSString           (* arguments of [sendMessageStream] so far *)
}.

(** What the panel renders: the objects the array refers to. *)
Definition transcript (st : ChatState) : list ChatMessage :=
  omap (fun r => store st !! r) (messages st).

Definition greeting : ChatMessage :=
  mkMessage model (js "Hi! I'm Genie. Ask me anything about your document.").

Definition errorMessage : ChatMessage :=
  mkMessage model (js "Sorry, I encountered an error. Please try again.").

(** After the effect on [studyContent]: a session and the greeting. *)
Definition mounted : ChatState :=
  mkChat [greeting] [0%nat] true [] false [].

Definition setUserInput (v : JSString) (st : ChatState) : ChatState :=
  mkChat (store st) (messages st) (session st) v (isLoading st) (sent st).

(** [handleSendMessage] up to [await session.sendMessageStream(...)]. *)
Definition handleSendMessage (st : ChatState) : ChatState :=
  if negb (nonempty (trim (userInput st))) || negb (session st) || isLoading st then st
  else
    let userMessage := mkMessage user (trim (userInput st)) in
    let u := length (store st) in
    let currentInput := trim (userInput st) in
    mkChat (store st ++ [userMessage; mkMessage model []])
           (messages st ++ [u; S u])
           (session st) [] true
           (sent st ++ [currentInput]).

(** [chunk.text] is a string, or [undefined] ([None]) for a chunk that
    carries no text.  What [lastMessage.content += chunkText] appends: the
    text, or the characters of ["undefined"]. *)
Definition appended (chunkText : option JSString) : JSString :=
  match chunkText with
  | Some text => text
  | None => js "undefined"
  end.

(** The texts the chunks of a stream carry, in order. *)
Definition texts (chunks : list (option JSString)) : list JSString :=
  omap id chunks.

(** The updater run for each chunk: copy the array, append the chunk's
    text to the last object if its role is ['model'].  The array is never
    empty here; on an empty array the updater would fail. *)
Definition on_chunk (st : ChatState) (chunkText : option JSString) : ChatState :=
  match last (messages st) with
  | Some r =>
      match store st !! r with
      | Some lastMessage =>
          match role lastMessage with
          | model =>
              mkChat (<[r := mkMessage model (content lastMessage ++ appended chunkText)]>
                        (store st))
                     (messages st) (session st) (userInput st) (isLoading st) (sent st)
          | user => st
          end
      | None => st
      end
  | None => st
  end.

(** The [catch] clause followed by [finally]: a new error message object
    replaces the last entry when that is an empty ['model'] message and is
    pushed otherwise. *)
Definition on_error (st : ChatState) : ChatState :=
  let e := length (store st) in
  let store' := store st ++ [errorMessage] in
  let lastMessageIndex := (length (messages st) - 1)%nat in
  let replace :=
    match messages st !! lastMessageIndex with
    | Some r =>
        match store st !! r with
        | Some m => bool_decide (role m = model) && negb (nonempty (content m))
        | None => false
        end
    | None => false
    end in
  mkChat store'
         (if replace then <[lastMessageIndex := e]> (messages st) else messages st ++ [e])
         (session st) (userInput st) false (sent st).

(** The stream ends normally: only [finally] runs. *)
Definition on_complete (st : ChatState) : ChatState :=
  mkChat (store st) (messages st) (session st) (userInput st) false (sent st).

Inductive StreamEnd := Completed | Failed.

(** The states the panel goes through while the chunks arrive. *)
Definition streaming (st : ChatState) (fragments : list (option JSString)) : ChatState :=
  foldl on_chunk st fragments.

Definition finish (how : StreamEnd) (st : ChatState) : ChatState :=
  match how with
  | Completed => on_complete st
  | Failed => on_error st
  end.

(** A whole send: the handler, the chunks in arrival order, the end. *)
Definition send (fragments : list (option JSString)) (how : StreamEnd) (st : ChatState)
    : ChatState :=
  let st' := handleSendMessage st in
  if negb (nonempty (trim (userInput st))) || negb (session st) || isLoading st then st'
  else finish how (streaming st' fragments).

(** Every reference of the array points into the store. *)
Definition wf (st : ChatState) : Prop :=
  Forall (fun r => (r < length (store st))%nat) (messages st).

(** The send button's guard lets the message through. *)
Definition accepted (st : ChatState) : Prop :=
  nonempty (trim (userInput st)) = true /\ session st = true /\ isLoading st = false.

(** A reply that failed after its first fragment, just before the [catch]
    clause runs. *)
Definition partial_reply : ChatState :=
  streaming (handleSendMessage (setUserInput (js "hi") mounted)) [Some (js "Hel")].

(** A stream whose second chunk carries no text (only metadata, say). *)
Definition textless_stream : list (option JSString) :=
  [Some (js "Hel"); None; Some (js "lo")].

End ChatPanel.

(** ** Sessions used as examples *)

Module Scenarios.

Import Page.

(** Three samples, 1, -2 and 32767, as the synthesis service sends them. *)
Definition speech : JSString := js "AQD+//9/".

Definition mitosis : Flashcard := mkCard (js "Mitosis") (js "Cell division").

(** The page loads (the summary is generated first), then the user opens
    the flashcards. *)
Definition open_flashcards (cards : list Flashcard) : list Event :=
  [SelectTool Summary; GenerationSettled (GenSummary (js "A short summary."));
   SelectTool Flashcards; GenerationSettled (GenFlashcards cards)].

(** A card is read aloud; while it sounds the user goes back to the summary
    and has it read aloud too. *)
Definition overlap_trace : list Event :=
  open_flashcards [mitosis] ++
  [PlayFlashcard (js "Mitosis"); SpeechSettled 0 (Some speech);
   SelectTool Summary; PlayReader; SpeechSettled 1 (Some speech)].

(** Both faces of a card have been synthesized; the term is played from the
    cache and, while it sounds, the definition is played. *)
Definition stale_trace : list Event :=
  open_flashcards [mitosis] ++
  [PlayFlashcard (js "Mitosis"); SpeechSettled 0 (Some speech); SourceEnded 0;
   PlayFlashcard (js "Cell division"); SpeechSettled 1 (Some speech); SourceEnded 1;
   PlayFlashcard (js "Mitosis");
   PlayFlashcard (js "Cell division")].

(** A card whose term is the empty string is read aloud. *)
Definition empty_text_trace : list Event :=
  open_flashcards [mkCard [] (js "An empty term")] ++
  [PlayFlashcard []; SpeechSettled 0 (Some speech)].

Definition constructor_card : Flashcard :=
  mkCard (js "constructor") (js "A method that initializes an object").

(** The term "constructor" is asked for twice, the card being flipped back
    and forth in between. *)
Definition constructor_trace : list Event :=
  open_flashcards [constructor_card] ++
  [PlayFlashcard (js "constructor"); FlipCard; FlipCard; PlayFlashcard (js "constructor")].

(** A term is read aloud, stopped, and asked for again. *)
Definition replay_trace : list Event :=
  open_flashcards [mitosis] ++
  [PlayFlashcard (js "Mitosis"); SpeechSettled 0 (Some speech);
   PlayFlashcard (js "Mitosis"); SourceEnded 0; PlayFlashcard (js "Mitosis")].

(** A term is being read aloud on the flashcard panel. *)
Definition reading_trace : list Event :=
  open_flashcards [mitosis] ++
  [PlayFlashcard (js "Mitosis"); SpeechSettled 0 (Some speech)].

(** The speaker of the term is clicked; while the speech is being
    synthesized the card is turned over; then the speech arrives. *)
Definition flip_while_pending_trace : list Event :=
  open_flashcards [mitosis] ++
  [PlayFlashcard (js "Mitosis"); FlipCard; SpeechSettled 0 (Some speech)].

(** A term is being read aloud and the user opens the chat. *)
Definition leave_while_reading_trace : list Event :=
  reading_trace ++ [SelectTool Chat].

End Scenarios.

(** ** Further views of the model *)

Module DecoderViews.
Import Decoder.


End DecoderViews.

Module PageViews.
Import Decoder Page.

(** The operations every handler is made of, as far as the audio graph is
    concerned: [stopAudio], [playAudio], the dispatch of an 'ended' event,
    and updates that touch neither the nodes nor any [currentSource]. *)
Inductive prim : World -> World -> Prop :=
  | prim_stop m w : prim w (stopAudio m w)
  | prim_play m inst generated v w w' r :
      playAudio m inst generated v w = (w', r) -> prim w w'
  | prim_ended s w : prim w (source_ended s w)
  | prim_state w w' :
      nodes w' = nodes w -> currentSource w' = currentSource w -> prim w w'.

(** How far a node is in its life. *)
Definition rank (st : NodeState) : nat :=
  match st with Playing => 0 | Stopped => 1 | Ended => 2 end.

(** The same node, at the same or a later stage. *)
Definition node_advances (n n' : SourceNode) : Prop :=
  node_module n' = node_module n /\ node_inst n' = node_inst n /\
  node_generated n' = node_generated n /\ node_buffer n' = node_buffer n /\
  (rank (node_state n) <= rank (node_state n'))%nat.

(** Every node of [w] is still there in [w'], at the same or a later stage. *)
Definition nodes_advance (w w' : World) : Prop :=
  forall s n, nodes w !! s = Some n ->
    exists n', nodes w' !! s = Some n' /\ node_advances n n'.

(** A file's [currentSource] is a node that this file made. *)
Definition current_owned (w : World) : Prop :=
  forall m s, currentSource w m = Some s ->
    exists n, nodes w !! s = Some n /\ node_module n = m.

(** The file whose summary panel or concept explainer is on the screen. *)
Definition reader_module (w : World) : option AudioModule :=
  fst <$> mounted_reader w.

(** The state of the concept explainer on the screen, if it is. *)
Definition explainer_of (w : World) : option ReaderState :=
  match panel w with
  | Some (ExplainerPanel rs) => Some rs
  | _ => None
  end.

(** An explainer that shows no explanation, holds no audio and is not
    playing. *)
Definition idle_state (rs : ReaderState) : Prop :=
  explanation rs = [] /\ audioDataRef rs = None /\ isPlaying rs = false.

(** No synthesis asked for by the explainer's file is pending. *)
Definition no_pending_explainer_speech (w : World) : Prop :=
  Forall (fun r => sr_module r = ConceptExplainerTsx -> sr_settled r = true) (requests w).

(** The explainer's audio is at rest: an explainer on the screen is idle,
    its file holds no current source, and none of its synthesis calls is
    pending. *)
Definition explainer_idle (w : World) : Prop :=
  (forall rs, explainer_of w = Some rs -> idle_state rs) /\
  currentSource w ConceptExplainerTsx = None /\
  no_pending_explainer_speech w.

(** The arrival of an explanation. *)
Definition is_explained (e : Event) : bool :=
  match e with
  | Explained _ _ => true
  | _ => false
  end.

End PageViews.

Module MoreScenarios.
Import Page Scenarios.

(** The summary is being read aloud. *)
Definition summary_reading_trace : list Event :=
  [SelectTool Summary; GenerationSettled (GenSummary (js "A short summary."));
   PlayReader; SpeechSettled 0 (Some speech)].

(** The speaker of a card was clicked and the synthesis call is pending. *)
Definition pending_trace : list Event :=
  open_flashcards [mitosis] ++ [PlayFlashcard (js "Mitosis")].

(** One byte: not a whole 16-bit sample. *)
Definition half_sample : JSString := js "AQ==".

(** The explainer is open and has explained something that was read aloud. *)
Definition explainer_trace : list Event :=
  [SelectTool Summary; GenerationSettled (GenSummary (js "A short summary."));
   SelectTool ConceptExplainer; Explain; Explained 1 (Some (js "Cells divide."));
   PlayReader; SpeechSettled 0 (Some speech)].

(** The summary's speaker was clicked; before the speech arrives the user
    opens the chat. *)
Definition left_trace : list Event :=
  [SelectTool Summary; GenerationSettled (GenSummary (js "A short summary."));
   PlayReader; SelectTool Chat].

(** The summary is there; generating the flashcards failed. *)
Definition failed_generation_trace : list Event :=
  [SelectTool Summary; GenerationSettled (GenSummary (js "A short summary."));
   SelectTool Flashcards; GenerationSettled GenFailed].

(** A term was read aloud to its end. *)
Definition heard_trace : list Event := reading_trace ++ [SourceEnded 0].

Definition three_cards : list Flashcard :=
  [mitosis; mkCard (js "Meiosis") (js "Reduction division");
   mkCard (js "Cytokinesis") (js "Division of the cytoplasm")].

(** The explainer has explained something and its speaker was clicked; the
    speech is still being synthesized. *)
Definition explainer_pending_trace : list Event :=
  [SelectTool Summary; GenerationSettled (GenSummary (js "A short summary."));
   SelectTool ConceptExplainer; Explain; Explained 1 (Some (js "Cells divide."));
   PlayReader].

End MoreScenarios.

(** ** Conversations with the chat panel *)

Module ChatSessions.
Import ChatPanel.

(** One exchange as the panel allows it: the user types (the input is
    disabled while a reply is loading), sends, and the reply streams in
    until it completes or fails. *)
Record Turn := mkTurn {
  typed : JSString;
  reply : list (option JSString);      (* the [chunk.text] of each chunk *)
  ending : StreamEnd
}.

Definition turn (st : ChatState) (t : Turn) : ChatState :=
  send (reply t) (ending t) (setUserInput (typed t) st).

Definition conversation (turns : list Turn) : ChatState :=
  foldl turn mounted turns.

(** The texts of the user's entries of a transcript, in order. *)
Definition user_texts (tr : list ChatMessage) : list JSString :=
  content <$> filter (fun m => role m = user) tr.

End ChatSessions.

(** ** The quiz panel ([Quiz.tsx]) *)

Module QuizPanel.

(** [types.ts]: [QuizQuestion]. *)
Record QuizQuestion := mkQuestion {
  question : JSString;
  options : list JSString;
  correctAnswer : JSString
}.

Record QuizState := mkQuiz {
  currentIndex : nat;
  selectedAnswer : option JSString;     (* [null] is [None] *)
  isAnswered : bool;
  score : nat;
  showResults : bool
}.

Definition fresh_quiz : QuizState := mkQuiz 0 None false 0 false.

Definition handleAnswerSelect (option : JSString) (st : QuizState) : QuizState :=
  if isAnswered st then st
  else mkQuiz (currentIndex st) (Some option) (isAnswered st) (score st) (showResults st).

(** [currentQuestion] is [questions[currentIndex]]; reading
    [correctAnswer] of [undefined] throws a TypeError, after
    [setIsAnswered(true)] was queued. *)
Definition handleCheckAnswer (questions : list QuizQuestion) (st : QuizState)
    : QuizState * bool :=
  match selectedAnswer st with
  | None => (st, true)
  | Some selected =>
      let st := mkQuiz (currentIndex st) (selectedAnswer st) true (score st) (showResults st) in
      match questions !! currentIndex st with
      | Some currentQuestion =>
          if bool_decide (selected = correctAnswer currentQuestion)
          then (mkQuiz (currentIndex st) (selectedAnswer st) (isAnswered st)
                       (score st + 1) (showResults st), true)
          else (st, true)
      | None => (st, false)
      end
  end.

(** With an index that is not negative, [currentIndex < questions.length - 1]
    is false for an empty list, as with the truncated subtraction here. *)
Definition handleNextQuestion (questions : list QuizQuestion) (st : QuizState) : QuizState :=
  if (currentIndex st <? length questions - 1)%nat
  then mkQuiz (currentIndex st + 1) None false (score st) (showResults st)
  else mkQuiz (currentIndex st) None false (score st) true.

Definition restartQuiz (st : QuizState) : QuizState := mkQuiz 0 None false 0 false.

(** What the user can click.  Without questions only a message is shown;
    with [showResults] only "Try Again"; otherwise the options of the
    current question (disabled once answered) and either "Check Answer"
    (disabled while nothing is selected) or the button to go on. *)
Inductive Click :=
  | ClickOption (i : nat)
  | ClickCheck
  | ClickNext
  | ClickRestart.

Definition click (questions : list QuizQuestion) (st : QuizState) (c : Click) : QuizState :=
  match questions with
  | [] => st
  | _ =>
      if showResults st then
        match c with
        | ClickRestart => restartQuiz st
        | _ => st
        end
      else
        match c with
        | ClickOption i =>
            match questions !! currentIndex st with
            | Some currentQuestion =>
                match options currentQuestion !! i with
                | Some option => if isAnswered st then st else handleAnswerSelect option st
                | None => st
                end
            | None => st
            end
        | ClickCheck =>
            if isAnswered st then st
            else match selectedAnswer st with
                 | Some _ => fst (handleCheckAnswer questions st)
                 | None => st
                 end
        | ClickNext =>
            if isAnswered st then handleNextQuestion questions st else st
        | ClickRestart => st
        end
  end.

Definition clicks (questions : list QuizQuestion) (st : QuizState) (cs : list Click) : QuizState :=
  foldl (click questions) st cs.

(** Answering one question: choose option [i], check, go on. *)
Definition answer (i : nat) : list Click := [ClickOption i; ClickCheck; ClickNext].

(** Whether option [i] of a question is its correct answer. *)
Definition is_correct (q : QuizQuestion) (i : nat) : bool :=
  bool_decide (options q !! i = Some (correctAnswer q)).

(** The number of questions whose chosen option is the correct answer. *)
Fixpoint correct_count (questions : list QuizQuestion) (choices : list nat) : nat :=
  match questions, choices with
  | q :: questions, i :: choices =>
      (if is_correct q i then 1 else 0) + correct_count questions choices
  | _, _ => 0
  end.

Definition three_questions : list QuizQuestion :=
  [mkQuestion (js "2 + 2?") [js "3"; js "4"] (js "4");
   mkQuestion (js "Capital of France?") [js "Paris"; js "Rome"] (js "Paris");
   mkQuestion (js "H2O?") [js "Salt"; js "Water"] (js "Water")].

(** What the clicks preserve. *)
Definition quiz_inv (questions : list QuizQuestion) (st : QuizState) : Prop :=
  (currentIndex st < length questions \/ questions = [] /\ currentIndex st = 0)%nat /\
  (score st <= currentIndex st + (if isAnswered st || showResults st then 1 else 0))%nat /\
  (questions = [] -> score st = 0%nat) /\
  (isAnswered st = true -> showResults st = false).

End QuizPanel.

(** ** Uploading a document ([LandingPage], [App.tsx]) *)

Module Upload.

(** [Array.prototype.join] on an array of strings. *)
Fixpoint join (sep : JSString) (parts : list JSString) : JSString :=
  match parts with
  | [] => []
  | p :: rest =>
      match rest with
      | [] => p
      | _ => p ++ sep ++ join sep rest
      end
  end.

(** What the browser and the libraries hand to [handleFileChange]: the
    chosen file, whether [FileReader] could read it, the text items of each
    page as pdf.js extracts them ([None] when pdf.js is missing or fails),
    whether [canvas.getContext('2d')] gives a context, whether pdf.js
    fetches and renders each page for the OCR (pages counted from 0), and
    what [performOcrOnImage] would answer for the image of each page
    ([None] when it throws). *)
Record File := mkFile {
  file_type : JSString;
  file_name : JSString;
  readable : bool;
  pages : option (list (list JSString));
  canvas : bool;
  renders : nat -> bool;
  ocr : nat -> option JSString
}.

(** The calls of [setAppError] with a message. *)
Inductive Reason :=
  | NotPdf           (* "Please upload a PDF file. ..." *)
  | ReadFailed       (* "Failed to read the file." *)
  | ParseFailed      (* the error pdf.js raised *)
  | CanvasFailed     (* "Could not create canvas context for OCR." *)
  | RenderFailed     (* the error pdf.js raised while rendering a page *)
  | OcrFailed        (* the error [performOcrOnImage] raised *)
  | NoText.          (* "Could not extract text from the PDF, even after attempting OCR. ..." *)

Inductive Outcome :=
  | Nothing
  | FileSelected (fileContent fileName : JSString)     (* [onFileSelect] was called *)
  | AppError (reason : Reason).

Definition blank (s : JSString) : bool := negb (nonempty (ChatPanel.trim s)).

Definition page_text (items : list JSString) : JSString := join (js " ") items.

Definition newlines : JSString := [10; 10].

Definition full_text (pagesText : list JSString) : JSString := join newlines pagesText.

(** The OCR loop: each page is fetched and rendered, awaited, and then
    handed to [performOcrOnImage]; a page that fails ends the loop with an
    exception.  The number of calls made, and whether the loop came to its
    end. *)
Fixpoint ocr_loop (renders : nat -> bool) (pageNumbers : list nat) : nat * bool :=
  match pageNumbers with
  | [] => (0%nat, true)
  | i :: rest =>
      if renders i then
        let '(calls, completed) := ocr_loop renders rest in (S calls, completed)
      else (0%nat, false)
  end.

(** [handleFileChange] with [reader.onload] or [reader.onerror]: the
    outcome and the number of calls of [performOcrOnImage]. *)
Definition handleFileChange (chosen : option File) : Outcome * nat :=
  match chosen with
  | None => (Nothing, 0%nat)
  | Some file =>
      if negb (bool_decide (file_type file = js "application/pdf")) then (AppError NotPdf, 0%nat)
      else if negb (readable file) then (AppError ReadFailed, 0%nat)
      else
        match pages file with
        | None => (AppError ParseFailed, 0%nat)
        | Some pdf =>
            let numPages := length pdf in
            let fullText := full_text (page_text <$> pdf) in
            if blank fullText then
              if negb (canvas file) then (AppError CanvasFailed, 0%nat)
              else
                let '(calls, completed) := ocr_loop (renders file) (seq 0 numPages) in
                if negb completed then (AppError RenderFailed, calls)
                else
                  match mapM (ocr file) (seq 0 numPages) with
                  | None => (AppError OcrFailed, calls)
                  | Some pagesText =>
                      let fullText := full_text pagesText in
                      if blank fullText then (AppError NoText, calls)
                      else (FileSelected fullText (file_name file), calls)
                  end
            else (FileSelected fullText (file_name file), 0%nat)
        end
  end.

(** [App.tsx]. *)
Record AppState := mkApp {
  studyContent : option JSString;
  fileName : JSString;
  appError : option Reason
}.

Definition landing : AppState := mkApp None [] None.

Definition handleFileSelect (content name : JSString) (st : AppState) : AppState :=
  mkApp (Some content) name None.

Definition handleReset (st : AppState) : AppState := mkApp None [] None.

Definition setAppError (e : option Reason) (st : AppState) : AppState :=
  mkApp (studyContent st) (fileName st) e.

Inductive Screen :=
  | LandingPageScreen
  | StudyInterfaceScreen (studyContent fileName : JSString).

(** [renderContent]: [if (studyContent)]. *)
Definition renderContent (st : AppState) : Screen :=
  match studyContent st with
  | Some content =>
      if nonempty content then StudyInterfaceScreen content (fileName st)
      else LandingPageScreen
  | None => LandingPageScreen
  end.

(** A file is chosen on the landing page. *)
Definition upload (chosen : option File) (st : AppState) : AppState :=
  match fst (handleFileChange chosen) with
  | Nothing => st
  | FileSelected content name => handleFileSelect content name st
  | AppError reason => setAppError (Some reason) st
  end.

Definition is_space (c : N) : Prop := ChatPanel.is_js_whitespace c = true.

(** A PDF with a text layer, and a scan whose second page the OCR reads. *)
Definition notes_pdf : File :=
  mkFile (js "application/pdf") (js "notes.pdf") true
         (Some [[js "Cell"; js "division"]; []; [js " "; js "Mitosis"]])
         false (fun _ => false) (fun _ => None).

Definition scan_pdf : File :=
  mkFile (js "application/pdf") (js "scan.pdf") true
         (Some [[]; [js " "]])
         true (fun _ => true)
         (fun i => if (i =? 1)%nat then Some (js "Mitosis") else Some []).


End Upload.

(** * Proofs *)

(** ** Tactics *)

(** Turn boolean comparisons on [N] in the context into propositions. *)
Ltac nbool :=
  repeat match goal with
  | H : (_ && _) = true |- _ => apply andb_true_iff in H; destruct H
  | H : (_ && _) = false |- _ => apply andb_false_iff in H; destruct H
  | H : (_ || _) = true |- _ => apply orb_true_iff in H; destruct H
  | H : (_ || _) = false |- _ => apply orb_false_iff in H; destruct H
  | H : (_ <? _) = true |- _ => apply N.ltb_lt in H
  | H : (_ <? _) = false |- _ => apply N.ltb_ge in H
  | H : (_ <=? _) = true |- _ => apply N.leb_le in H
  | H : (_ <=? _) = false |- _ => apply N.leb_gt in H
  | H : (_ =? _) = true |- _ => apply N.eqb_eq in H
  | H : (_ =? _) = false |- _ => apply N.eqb_neq in H
  end.

(** Case analysis on the condition of an innermost [if]. *)
Ltac case_if :=
  match goal with
  | |- context [if ?b then _ else _] =>
      lazymatch b with
      | context [if _ then _ else _] => fail
      | _ => destruct b eqn:?
      end
  end.

(** Induction on lists three elements at a time. *)
Lemma list_ind3 {A} (P : list A -> Prop) :
  P [] -> (forall a, P [a]) -> (forall a b, P [a; b]) ->
  (forall a b c l, P l -> P (a :: b :: c :: l)) ->
  forall l, P l.
Proof.
  intros H0 H1 H2 H3 l.
  assert (P l /\ (forall a, P (a :: l)) /\ (forall a b, P (a :: b :: l))) as [? _].
  { induction l as [|x l (IH0 & IH1 & IH2)]; [by auto|].
    split; [apply IH1|]. split; [intros; apply IH2|]. intros a b. by apply H3. }
  done.
Qed.

Lemma filter_all {A} (P : A -> Prop) `{forall x, Decision (P x)} (l : list A) :
  Forall P l -> filter P l = l.
Proof.
  induction 1 as [|x l Hx _ IH]; [done|]. by rewrite filter_cons_True, IH.
Qed.

(** ** Base64: [atob] undoes [btoa] *)

Module Base64Facts.

Import Base64.

Lemma base64_index_char v : v < 64 -> base64_index (base64_char v) = Some v.
Proof.
  intros Hv. unfold base64_char.
  repeat (case_if; nbool); unfold base64_index;
  repeat (case_if; nbool; try lia); f_equal; lia.
Qed.

Lemma base64_char_not_whitespace v : is_ascii_whitespace (base64_char v) = false.
Proof.
  unfold base64_char. repeat (case_if; nbool); unfold is_ascii_whitespace;
  repeat (apply orb_false_iff; split); apply N.eqb_neq; lia.
Qed.

Lemma base64_char_not_padding v : base64_char v <> equals_sign.
Proof.
  unfold base64_char, equals_sign. repeat (case_if; nbool); lia.
Qed.

Lemma sextets_lt_64 bytes :
  Forall (fun b => b < 256) bytes -> Forall (fun v => v < 64) (sextets_of_bytes bytes).
Proof.
  induction bytes as [|a|a b|a b c l IH] using list_ind3; intros Hb;
    cbn [sextets_of_bytes]; repeat (apply Forall_cons in Hb as [? Hb]).
  - constructor.
  - repeat constructor; lia.
  - repeat constructor; lia.
  - repeat (constructor; [lia|]). by apply IH.
Qed.

Lemma decode_groups_sextets bytes :
  Forall (fun b => b < 256) bytes -> decode_groups (sextets_of_bytes bytes) = bytes.
Proof.
  induction bytes as [|a|a b|a b c l IH] using list_ind3; intros Hb;
    cbn [sextets_of_bytes decode_groups]; repeat (apply Forall_cons in Hb as [? Hb]).
  - done.
  - f_equal. lia.
  - f_equal; [lia|]. f_equal. lia.
  - rewrite IH by done. f_equal; [lia|]. f_equal; [lia|]. f_equal. lia.
Qed.

Lemma mapM_index_char sextets :
  Forall (fun v => v < 64) sextets ->
  mapM base64_index (map base64_char sextets) = Some sextets.
Proof.
  induction 1 as [|v l Hv _ IH]; [done|].
  cbn [map mapM]. rewrite base64_index_char by done. cbn. by rewrite IH.
Qed.

Lemma sextets_length bytes :
  length (sextets_of_bytes bytes) =
  (4 * (length bytes / 3) + match length bytes mod 3 with 0 => 0 | 1 => 2 | _ => 3 end)%nat.
Proof.
  induction bytes as [|a|a b|a b c l IH] using list_ind3; try done.
  cbn [sextets_of_bytes length]. rewrite IH.
  replace (S (S (S (length l)))) with (length l + 1 * 3)%nat by lia.
  rewrite Nat.div_add, Nat.Div0.mod_add by lia. lia.
Qed.

Lemma strip_padding_none body :
  Forall (fun c => c <> equals_sign) body -> strip_padding body = body.
Proof.
  intros Hb. unfold strip_padding.
  destruct (rev body) as [|c1 r] eqn:Hr; [done|].
  assert (c1 <> equals_sign) as Hc.
  { eapply (proj1 (Forall_forall _ _) Hb). apply list_elem_of_In, in_rev. rewrite Hr. by left. }
  apply N.eqb_neq in Hc. rewrite Hc. by destruct r.
Qed.

Lemma strip_padding_one body :
  body <> [] -> Forall (fun c => c <> equals_sign) body ->
  strip_padding (body ++ [equals_sign]) = body.
Proof.
  intros Hne Hb. unfold strip_padding. rewrite rev_app_distr. cbn [rev app].
  destruct (rev body) as [|c2 r] eqn:Hr.
  { apply (f_equal (@rev N)) in Hr. rewrite rev_involutive in Hr. done. }
  assert (c2 <> equals_sign) as Hc.
  { eapply (proj1 (Forall_forall _ _) Hb). apply list_elem_of_In, in_rev. rewrite Hr. by left. }
  apply N.eqb_neq in Hc. rewrite N.eqb_refl, Hc.
  change (rev (c2 :: r) = body). rewrite <- Hr. apply rev_involutive.
Qed.

Lemma strip_padding_two body :
  strip_padding (body ++ [equals_sign; equals_sign]) = body.
Proof.
  unfold strip_padding. rewrite rev_app_distr. cbn [rev app].
  rewrite N.eqb_refl. apply rev_involutive.
Qed.

Lemma filter_whitespace_btoa bytes :
  filter (fun c => is_ascii_whitespace c = false) (btoa bytes) = btoa bytes.
Proof.
  apply filter_all, Forall_forall. intros c Hc. unfold btoa in Hc.
  apply list_elem_of_In, in_app_or in Hc as [Hc|Hc].
  - apply in_map_iff in Hc as (v & <- & _). apply base64_char_not_whitespace.
  - apply repeat_spec in Hc. by subst.
Qed.

(** Decoding the padded encoding of a byte sequence gives the bytes back. *)
Theorem atob_btoa bytes :
  Forall (fun b => b < 256) bytes -> atob (btoa bytes) = Ok bytes.
Proof.
  intros Hb. unfold atob. rewrite filter_whitespace_btoa.
  pose proof (sextets_length bytes) as Hlen.
  assert (Forall (fun c => c <> equals_sign) (map base64_char (sextets_of_bytes bytes))) as Hnp.
  { apply Forall_forall. intros c (v & <- & _)%list_elem_of_In%in_map_iff. apply base64_char_not_padding. }
  set (body := map base64_char (sextets_of_bytes bytes)) in *.
  assert (length body = length (sextets_of_bytes bytes)) as Hbl by apply length_map.
  assert (length (btoa bytes) mod 4 = 0 /\ strip_padding (btoa bytes) = body)%nat as [Hm Hs].
  { unfold btoa. fold body. rewrite length_app, repeat_length, Hbl, Hlen.
    assert (length bytes mod 3 < 3)%nat as Hlt by (apply Nat.mod_upper_bound; lia).
    destruct (length bytes mod 3)%nat as [|[|[|?]]] eqn:Hmod; [| | |lia].
    - change ((3 - 0) mod 3)%nat with 0%nat. cbn [repeat]. rewrite app_nil_r. split; [lia|].
      by apply strip_padding_none.
    - change ((3 - 1) mod 3)%nat with 2%nat. cbn [repeat]. split; [lia|].
      apply strip_padding_two.
    - change ((3 - 2) mod 3)%nat with 1%nat. cbn [repeat]. split; [lia|].
      apply strip_padding_one; [|done]. intros Hnil. rewrite Hnil in Hbl. cbn in Hbl. lia. }
  rewrite Hm. cbn [Nat.eqb]. rewrite Hs.
  assert ((length body mod 4 =? 1)%nat = false) as ->.
  { apply Nat.eqb_neq. rewrite Hbl, Hlen.
    destruct (length bytes mod 3)%nat as [|[|?]]; lia. }
  unfold body. rewrite mapM_index_char by by apply sextets_lt_64.
  by rewrite decode_groups_sextets.
Qed.


Example btoa_Man : btoa (js "Man") = js "TWFu".
Proof. reflexivity. Qed.

Example btoa_Ma : btoa (js "Ma") = js "TWE=".
Proof. reflexivity. Qed.

Example btoa_M : btoa (js "M") = js "TQ==".
Proof. reflexivity. Qed.

(** The decoder is forgiving: white space is skipped and padding may be
    missing. *)
Example atob_unpadded_spaced : atob (js " T W E ") = Ok (js "Ma").
Proof. reflexivity. Qed.

Example atob_bad_length : atob (js "TWFuT") = Throw InvalidCharacterError.
Proof. reflexivity. Qed.

Example atob_bad_char : atob (js "TW(u") = Throw InvalidCharacterError.
Proof. reflexivity. Qed.

(** *** Canonical encodings *)

Lemma base64_index_lt_64 c v : base64_index c = Some v -> v < 64.
Proof.
  unfold base64_index. repeat (case_if; nbool); intros [= <-]; lia.
Qed.

Lemma list_ind4 {A} (P : list A -> Prop) :
  P [] -> (forall a, P [a]) -> (forall a b, P [a; b]) -> (forall a b c, P [a; b; c]) ->
  (forall a b c d l, P l -> P (a :: b :: c :: d :: l)) ->
  forall l, P l.
Proof.
  intros H0 H1 H2 H3 H4 l.
  assert (P l /\ (forall a, P (a :: l)) /\ (forall a b, P (a :: b :: l)) /\
          (forall a b c, P (a :: b :: c :: l))) as [? _].
  { induction l as [|x l (IH0 & IH1 & IH2 & IH3)]; [by auto|].
    split; [apply IH1|]. split; [intros; apply IH2|]. split; [intros; apply IH3|].
    intros a b c. by apply H4. }
  done.
Qed.

Lemma decode_groups_lt_256 sextets :
  Forall (fun v => v < 64) sextets -> Forall (fun b => b < 256) (decode_groups sextets).
Proof.
  induction sextets as [|a|a b|a b c|a b c d l IH] using list_ind4; intros Hs;
    cbn [decode_groups]; repeat (apply Forall_cons in Hs as [? Hs]).
  - constructor.
  - constructor.
  - repeat constructor. lia.
  - repeat constructor; lia.
  - repeat (apply Forall_cons; split; [lia|]). by apply IH.
Qed.

Lemma mapM_index_lt_64 d sextets :
  mapM base64_index d = Some sextets -> Forall (fun v => v < 64) sextets.
Proof.
  intros H. apply mapM_Some_1 in H. induction H as [|c v ? ? Hc _ IH]; constructor; [|done].
  by eapply base64_index_lt_64.
Qed.

Lemma atob_bytes_lt_256 data bytes :
  atob data = Ok bytes -> Forall (fun b => b < 256) bytes.
Proof.
  unfold atob. cbv zeta.
  set (d2 := if (_ =? 0)%nat then _ else _).
  destruct (length d2 mod 4 =? 1)%nat; [done|].
  destruct (mapM base64_index d2) as [sextets|] eqn:Hm; [|done].
  intros [= <-]. eapply decode_groups_lt_256, mapM_index_lt_64, Hm.
Qed.

(** A text is canonical exactly when it is the padded encoding of a byte
    sequence. *)
Lemma canonical_spec data :
  canonical data = true <-> exists bytes, Forall (fun b => b < 256) bytes /\ data = btoa bytes.
Proof.
  unfold canonical. split.
  - destruct (atob data) as [bytes|] eqn:Ha; [|done]. intros Hb%bool_decide_eq_true.
    exists bytes. split; [by eapply atob_bytes_lt_256|done].
  - intros (bytes & Hlt & ->). rewrite atob_btoa by done. by apply bool_decide_eq_true.
Qed.

End Base64Facts.

(** ** The decoder *)

Module DecoderFacts.

Import Base64 Decoder Base64Facts.

Lemma bytes_of_int16_lt_256 s : Forall (fun b => b < 256) (bytes_of_int16 s).
Proof.
  unfold bytes_of_int16.
  assert (Z.to_N (s mod 65536) < 65536) by lia.
  repeat constructor; lia.
Qed.

Lemma sample_bytes_lt_256 samples :
  Forall (fun b => b < 256) (flat_map bytes_of_int16 samples).
Proof.
  induction samples as [|s l IH]; [constructor|].
  cbn [flat_map]. apply Forall_app. split; [apply bytes_of_int16_lt_256|done].
Qed.

Lemma sample_bytes_length samples :
  length (flat_map bytes_of_int16 samples) = (2 * length samples)%nat.
Proof. induction samples as [|s l IH]; [done|]. cbn [flat_map length app bytes_of_int16]. lia. Qed.

Lemma int16_of_bytes_of_int16 s :
  is_int16 s ->
  int16_of_bytes (Z.to_N (s mod 65536) mod 256) (Z.to_N (s mod 65536) / 256) = s.
Proof.
  unfold is_int16, int16_of_bytes. intros Hs. cbv zeta.
  set (u := Z.to_N (s mod 65536)).
  replace (u mod 256 + 256 * (u / 256)) with u by lia.
  subst u. destruct (_ <? _)%Z eqn:Hlt; [apply Z.ltb_lt in Hlt|apply Z.ltb_ge in Hlt]; lia.
Qed.

Lemma int16_view_sample_bytes samples :
  Forall is_int16 samples -> int16_view (flat_map bytes_of_int16 samples) = samples.
Proof.
  induction 1 as [|s l Hs _ IH]; [done|].
  cbn [flat_map bytes_of_int16 app int16_view]. rewrite IH. f_equal.
  by apply int16_of_bytes_of_int16.
Qed.

Lemma decode_encode_samples samples :
  decode (encode_samples samples) = Ok (flat_map bytes_of_int16 samples).
Proof.
  unfold decode, encode_samples.
  rewrite atob_btoa by apply sample_bytes_lt_256. cbn [bindR]. f_equal.
  pose proof (sample_bytes_lt_256 samples) as Hb.
  induction Hb as [|b l Hlt _ IH]; [done|]. cbn [map]. rewrite IH. f_equal.
  apply N.mod_small. done.
Qed.

Lemma fill_channel_prefix dataInt16 numChannels channel (k : nat) channelData :
  (k <= length channelData)%nat ->
  fill_channel dataInt16 numChannels channel k channelData =
  map (fun i => sample_of_int16 (default 0%Z (dataInt16 !! (i * numChannels + channel)%nat)))
      (seq 0 k) ++ drop k channelData.
Proof.
  unfold fill_channel. induction k as [|k IH]; intros Hk; [by rewrite drop_0|].
  rewrite seq_S, foldl_app, IH by lia. cbn [foldl Nat.add].
  destruct (lookup_lt_is_Some_2 channelData k) as [x Hx]; [lia|].
  rewrite (drop_S _ _ _ Hx).
  rewrite insert_app_r_alt by (rewrite length_map, length_seq; lia).
  rewrite length_map, length_seq, Nat.sub_diag. cbn [insert list_insert].
  rewrite map_app. cbn [map]. by rewrite <- app_assoc.
Qed.

Lemma map_lookup_seq {A B} (h : A -> B) (d : A) (l : list A) :
  map (fun i => h (default d (l !! i))) (seq 0 (length l)) = map h l.
Proof.
  apply list_eq. intros i. change (map ?f ?l) with (f <$> l).
  rewrite !list_lookup_fmap. destruct (l !! i) as [x|] eqn:Hx.
  - rewrite lookup_seq_lt by (by eapply lookup_lt_Some). cbn. by rewrite Hx.
  - rewrite lookup_seq_ge; [done|]. by apply lookup_ge_None.
Qed.

Lemma fill_mono dataInt16 :
  fill_channels dataInt16 1 (length dataInt16) [repeat 0%Q (length dataInt16)]
  = [map sample_of_int16 dataInt16].
Proof.
  unfold fill_channels. cbn [seq foldl lookup list_lookup insert list_insert].
  rewrite fill_channel_prefix by (by rewrite repeat_length).
  rewrite drop_ge by (by rewrite repeat_length). rewrite app_nil_r. f_equal.
  rewrite <- (map_lookup_seq sample_of_int16 0%Z dataInt16).
  apply map_ext. intros i. by rewrite Nat.mul_1_r, Nat.add_0_r.
Qed.

Lemma createBuffer_supported ctx numChannels frameCount rate :
  (1 <= numChannels <= maxChannels ctx)%nat -> (1 <= frameCount)%nat ->
  minRate ctx <= rate <= maxRate ctx ->
  createBuffer ctx numChannels frameCount rate =
  Ok (mkAudioBuffer numChannels frameCount rate (repeat (repeat 0%Q frameCount) numChannels)).
Proof.
  intros Hc Hf Hr. unfold createBuffer.
  assert ((numChannels =? 0)%nat = false) as -> by (apply Nat.eqb_neq; lia).
  assert ((frameCount =? 0)%nat = false) as -> by (apply Nat.eqb_neq; lia).
  assert ((maxChannels ctx <? numChannels)%nat = false) as -> by (apply Nat.ltb_ge; lia).
  assert ((rate <? minRate ctx) = false) as -> by (apply N.ltb_ge; lia).
  assert ((maxRate ctx <? rate) = false) as -> by (apply N.ltb_ge; lia).
  done.
Qed.

Lemma decodeAudioData_mono data ctx rate :
  (1 <= maxChannels ctx)%nat -> minRate ctx <= rate <= maxRate ctx ->
  Nat.even (length data) = true -> int16_view data <> [] ->
  decodeAudioData data ctx rate 1 =
  Ok (mkAudioBuffer 1 (length (int16_view data)) rate [map sample_of_int16 (int16_view data)]).
Proof.
  intros Hc Hr Heven Hne. unfold decodeAudioData, Int16Array. rewrite Heven. cbn [bindR].
  rewrite Nat.div_1_r.
  rewrite createBuffer_supported; [|lia|by destruct (int16_view data); [|cbn; lia]|done].
  cbn [bindR numberOfChannels buffer_length sampleRate channels].
  change (repeat ?x 1) with [x]. by rewrite fill_mono.
Qed.

(** At 24000 Hz with one channel the decoder does the same on every
    conforming context. *)
Lemma decodeAudioData_any_context data ctx :
  conforming ctx ->
  decodeAudioData data ctx 24000 1 = decodeAudioData data minimal_context 24000 1.
Proof.
  intros (Hc & Hlo & Hhi). unfold decodeAudioData. destruct (Int16Array data) as [v|e]; [|done].
  cbn [bindR]. rewrite Nat.div_1_r.
  destruct (decide (length v = 0%nat)) as [Hz|Hnz].
  - unfold createBuffer. by rewrite Hz.
  - rewrite !createBuffer_supported; [done|cbn; lia..].
Qed.

Lemma sample_in_unit_range s : is_int16 s -> (-1 <= sample_of_int16 s /\ sample_of_int16 s < 1)%Q.
Proof.
  unfold is_int16, sample_of_int16, Qle, Qlt. cbn. lia.
Qed.

Lemma sample_exact_in_binary32 s : is_int16 s -> binary32_exact (sample_of_int16 s).
Proof.
  unfold is_int16, binary32_exact. intros Hs. exists s, (-15)%Z.
  split; [lia|]. split; [lia|].
  assert (2 ^ (-15) = 1 # 32768)%Q as -> by reflexivity.
  unfold sample_of_int16, Qeq. cbn. lia.
Qed.

(** C7, for at least one sample: encoding N >= 1 signed 16-bit samples as
    little-endian bytes in base64 and decoding them gives a one-channel
    buffer of N frames at 24000 Hz whose frame i is sample i over 32768, a
    value in [-1, 1) that single precision holds exactly. *)
Theorem decode_round_trip samples :
  samples <> [] -> Forall is_int16 samples ->
  decode_payload (encode_samples samples) =
    Ok (mkAudioBuffer 1 (length samples) 24000 [map sample_of_int16 samples]) /\
  Forall (fun q => (-1 <= q)%Q /\ (q < 1)%Q /\ binary32_exact q)
         (map sample_of_int16 samples).
Proof.
  intros Hne Hs. split.
  - unfold decode_payload. rewrite decode_encode_samples. cbn [bindR].
    rewrite decodeAudioData_mono.
    + by rewrite int16_view_sample_bytes.
    + cbn; lia.
    + done.
    + rewrite sample_bytes_length.
      replace (2 * length samples)%nat with (length samples + length samples)%nat by lia.
      clear. induction (length samples) as [|n IH]; [done|]. by rewrite Nat.add_succ_r.
    + by rewrite int16_view_sample_bytes.
  - apply Forall_map. eapply Forall_impl; [exact Hs|]. cbn. intros s Hi.
    pose proof (sample_in_unit_range s Hi) as [? ?].
    pose proof (sample_exact_in_binary32 s Hi). done.
Qed.

Lemma decode_round_trip_witness :
  decode_payload (encode_samples [1; -2; 32767]%Z) =
  Ok (mkAudioBuffer 1 3 24000 [[1 # 32768; -2 # 32768; 32767 # 32768]%Q]).
Proof.
  refine (proj1 (decode_round_trip [1; -2; 32767]%Z _ _)).
  - discriminate.
  - repeat constructor; unfold is_int16; lia.
Defined.

(** C7 as stated fails for N = 0: no buffer is produced for the empty
    sample sequence, because [createBuffer] refuses a buffer of zero
    frames. *)
Lemma empty_payload_is_rejected :
  encode_samples [] = [] /\ decode_payload (encode_samples []) = Throw NotSupportedError.
Proof. split; reflexivity. Qed.

End DecoderFacts.

(** ** The page *)

Module PageFacts.

Import Decoder Page Scenarios Base64Facts.

Lemma stop_node_playing s w s' n' :
  nodes (stop_node s w) !! s' = Some n' -> is_playing n' = true ->
  s' <> s /\ nodes w !! s' = Some n'.
Proof.
  unfold stop_node. cbn. intros Hl Hp.
  destruct (decide (s' = s)) as [->|Hne].
  - rewrite list_lookup_alter_eq in Hl. destruct (nodes w !! s) as [n|]; [|done].
    cbn in Hl. injection Hl as <-. unfold is_playing in Hp.
    by destruct n as [? ? ? ? []].
  - by rewrite list_lookup_alter_ne in Hl.
Qed.

Lemma one_per_file_stopAudio m w : one_per_file w -> one_per_file (stopAudio m w).
Proof.
  intros Hw. unfold stopAudio. destruct (currentSource w m) as [s|] eqn:Hc; [|done].
  intros s' n' Hl Hp. cbn in Hl. apply stop_node_playing in Hl as [Hne Hl]; [|done].
  cbn. specialize (Hw _ _ Hl Hp).
  destruct (decide (m = node_module n')) as [->|Hm]; [congruence|].
  by rewrite fn_lookup_insert_ne.
Qed.

Lemma one_per_file_frame w w' :
  nodes w' = nodes w -> currentSource w' = currentSource w ->
  one_per_file w -> one_per_file w'.
Proof. unfold one_per_file. intros -> ->. done. Qed.

Lemma playAudio_spec m inst generated v w :
  let w0 := match currentSource w m with Some s => stop_node s w | None => w end in
  match decode_payload (ToString v) with
  | Throw e =>
      snd (playAudio m inst generated v w) = Throw e /\
      nodes (fst (playAudio m inst generated v w)) = nodes w0 /\
      currentSource (fst (playAudio m inst generated v w)) = currentSource w
  | Ok buffer =>
      snd (playAudio m inst generated v w) = Ok (length (nodes w)) /\
      nodes (fst (playAudio m inst generated v w)) =
        nodes w0 ++ [mkNode m inst generated buffer Playing] /\
      currentSource (fst (playAudio m inst generated v w)) =
        <[m := Some (length (nodes w))]> (currentSource w)
  end /\
  requests (fst (playAudio m inst generated v w)) = requests w /\
  panel (fst (playAudio m inst generated v w)) = panel w /\
  study (fst (playAudio m inst generated v w)) = study w /\
  next_inst (fst (playAudio m inst generated v w)) = next_inst w /\
  decode_calls (fst (playAudio m inst generated v w)) = decode_calls w ++ [ToString v].
Proof.
  intros w0. unfold playAudio. fold w0.
  assert (length (nodes w0) = length (nodes w)) as Hlen.
  { subst w0. destruct (currentSource w m); [|done]. unfold stop_node. cbn. apply length_alter. }
  assert (currentSource w0 = currentSource w) as Hcs.
  { subst w0. by destruct (currentSource w m). }
  assert (requests w0 = requests w /\ panel w0 = panel w /\ study w0 = study w /\
          next_inst w0 = next_inst w /\ decode_calls w0 = decode_calls w) as (?&?&?&?&?).
  { subst w0. by destruct (currentSource w m). }
  unfold getAudioContext.
  destruct (decode_payload (ToString v)) as [buffer|e];
    destruct (audioContext w0 m); cbn; rewrite ?Hlen, ?Hcs; repeat split; congruence.
Qed.

Lemma one_per_file_playAudio m inst generated v w w' r :
  playAudio m inst generated v w = (w', r) -> one_per_file w -> one_per_file w'.
Proof.
  intros Hp Hw.
  pose proof (playAudio_spec m inst generated v w) as Hs. rewrite Hp in Hs. cbn in Hs.
  destruct Hs as [Hs _].
  assert (forall s' n', nodes (match currentSource w m with
                                | Some s => stop_node s w | None => w end) !! s' = Some n' ->
            is_playing n' = true -> nodes w !! s' = Some n' /\ node_module n' <> m) as Hold.
  { intros s' n' Hl Hpl. destruct (currentSource w m) as [s|] eqn:Hc.
    - apply stop_node_playing in Hl as [Hne Hl]; [|done]. split; [done|].
      intros <-. specialize (Hw _ _ Hl Hpl). congruence.
    - split; [done|]. intros <-. specialize (Hw _ _ Hl Hpl). congruence. }
  destruct (decode_payload (ToString v)) as [buffer|e].
  - destruct Hs as (_ & Hn & Hc). intros s' n' Hl Hpl. rewrite Hn in Hl. rewrite Hc.
    apply lookup_app_Some in Hl as [Hl|[Hge Hl]].
    + apply Hold in Hl as [Hl Hm]; [|done]. rewrite fn_lookup_insert_ne by done. by apply Hw.
    + apply list_lookup_singleton_Some in Hl as [Hi <-]. cbn. rewrite fn_lookup_insert.
      f_equal. assert (length (nodes (match currentSource w m with
                                | Some s => stop_node s w | None => w end)) = length (nodes w)).
      { destruct (currentSource w m); [|done]. unfold stop_node. cbn. apply length_alter. }
      lia.
  - destruct Hs as (_ & Hn & Hc). intros s' n' Hl Hpl. rewrite Hn in Hl. rewrite Hc.
    apply Hold in Hl as [Hl Hm]; [|done]. by apply Hw.
Qed.

Lemma same_audio_refl w : same_audio w w.
Proof. by repeat split. Qed.

Lemma same_audio_trans w1 w2 w3 : same_audio w1 w2 -> same_audio w2 w3 -> same_audio w1 w3.
Proof. unfold same_audio. intros (?&?&?&?) (?&?&?&?). repeat split; congruence. Qed.

Lemma same_audio_setFlashcard inst f w : same_audio w (setFlashcard inst f w).
Proof. unfold setFlashcard. repeat case_match; by repeat split. Qed.

Lemma same_audio_setReader m inst f w : same_audio w (setReader m inst f w).
Proof. unfold setReader. repeat case_match; by repeat split. Qed.

Lemma same_audio_onEnd m inst w : same_audio w (onEnd m inst w).
Proof.
  destruct m; first [apply same_audio_setFlashcard | apply same_audio_setReader].
Qed.

Lemma same_audio_setIsGeneratingSpeech m inst v w :
  same_audio w (setIsGeneratingSpeech m inst v w).
Proof.
  destruct m; first [apply same_audio_setFlashcard | apply same_audio_setReader].
Qed.

Lemma one_per_file_same_audio w w' : same_audio w w' -> one_per_file w -> one_per_file w'.
Proof. intros (Hn & Hc & _). by apply one_per_file_frame. Qed.

Lemma one_per_file_source_ended s w : one_per_file w -> one_per_file (source_ended s w).
Proof.
  intros Hw. unfold source_ended.
  destruct (nodes w !! s) as [n|] eqn:Hn; [|done].
  assert (one_per_file (onended s (set_nodes (<[s:=with_state Ended n]> (nodes w)) w))) as Hgoal;
    [|by destruct (node_state n)].
  unfold onended. cbn [nodes set_nodes].
  rewrite list_lookup_insert_eq by (by eapply lookup_lt_Some).
  cbn [node_module with_state node_inst node_generated].
  set (w1 := set_nodes _ w).
  assert (one_per_file (if decide (currentSource w1 (node_module n) = Some s)
                        then set_currentSource (node_module n) None w1 else w1)) as H1.
  { intros s' n' Hl Hpl.
    assert (s' <> s /\ nodes w !! s' = Some n') as [Hs' Hl'].
    { destruct (decide (currentSource w1 (node_module n) = Some s)); cbn in Hl;
        (destruct (decide (s' = s)) as [->|?];
         [rewrite list_lookup_insert_eq in Hl by (by eapply lookup_lt_Some);
          injection Hl as <-; done
         |by rewrite list_lookup_insert_ne in Hl]). }
    specialize (Hw _ _ Hl' Hpl).
    destruct (decide (currentSource w1 (node_module n) = Some s)) as [Hc|Hc]; cbn; [|done].
    destruct (decide (node_module n = node_module n')) as [Hm|Hm].
    - cbn in Hc. rewrite Hm in Hc. congruence.
    - by rewrite fn_lookup_insert_ne. }
  revert H1. generalize (if decide (currentSource w1 (node_module n) = Some s)
                        then set_currentSource (node_module n) None w1 else w1).
  intros w2 Hw2.
  apply (one_per_file_same_audio (onEnd (node_module n) (node_inst n) w2)).
  - destruct (node_generated n); [apply same_audio_setIsGeneratingSpeech|apply same_audio_refl].
  - eapply one_per_file_same_audio; [apply same_audio_onEnd|done].
Qed.

Lemma one_per_file_set_panel v w : one_per_file w -> one_per_file (set_panel v w).
Proof. by apply one_per_file_frame. Qed.

Lemma one_per_file_set_study v w : one_per_file w -> one_per_file (set_study v w).
Proof. by apply one_per_file_frame. Qed.

Lemma one_per_file_set_next_inst v w : one_per_file w -> one_per_file (set_next_inst v w).
Proof. by apply one_per_file_frame. Qed.

Lemma one_per_file_set_requests v w : one_per_file w -> one_per_file (set_requests v w).
Proof. by apply one_per_file_frame. Qed.

Lemma one_per_file_request_speech m i t w : one_per_file w -> one_per_file (request_speech m i t w).
Proof. by apply one_per_file_frame. Qed.

Lemma one_per_file_setFlashcard i f w : one_per_file w -> one_per_file (setFlashcard i f w).
Proof. apply one_per_file_same_audio, same_audio_setFlashcard. Qed.

Lemma one_per_file_setReader m i f w : one_per_file w -> one_per_file (setReader m i f w).
Proof. apply one_per_file_same_audio, same_audio_setReader. Qed.

(** Push [one_per_file] through the statements of a handler. *)
Ltac opf :=
  repeat first
    [ assumption
    | apply one_per_file_stopAudio
    | apply one_per_file_source_ended
    | apply one_per_file_set_panel
    | apply one_per_file_set_study
    | apply one_per_file_set_next_inst
    | apply one_per_file_set_requests
    | apply one_per_file_request_speech
    | apply one_per_file_setFlashcard
    | apply one_per_file_setReader
    | match goal with
      | H : playAudio _ _ _ _ ?w = (?w', _) |- one_per_file ?w' =>
          apply (one_per_file_playAudio _ _ _ _ _ _ _ H)
      end ].

Lemma one_per_file_handlePlayAudio text w :
  one_per_file w -> one_per_file (fst (handlePlayAudio text w)).
Proof.
  intros Hw. unfold handlePlayAudio.
  repeat (case_match; simplify_eq); cbn [fst]; opf.
Qed.

Lemma one_per_file_handlePlay w : one_per_file w -> one_per_file (fst (handlePlay w)).
Proof.
  intros Hw. unfold handlePlay.
  repeat (case_match; simplify_eq); cbn [fst]; opf.
Qed.

Lemma one_per_file_speech_settled req response w :
  one_per_file w -> one_per_file (speech_settled req response w).
Proof.
  intros Hw. unfold speech_settled, flashcard_speech_settled, reader_speech_settled.
  repeat (case_match; simplify_eq); opf.
Qed.

Lemma one_per_file_update_flashcard inst f w :
  one_per_file w -> one_per_file (update_flashcard inst f w).
Proof.
  intros Hw. unfold update_flashcard, flashcard_effect.
  repeat (case_match; simplify_eq); opf.
Qed.

Lemma one_per_file_render old w : one_per_file w -> one_per_file (render old w).
Proof.
  intros Hw. unfold render, unmount, mount.
  repeat (case_match; simplify_eq); opf.
Qed.

Lemma one_per_file_step w e : one_per_file w -> one_per_file (step w e).
Proof.
  intros Hw. destruct e; cbn [step].
  - unfold handleToolSelect, update_study. repeat case_match; try done;
      apply one_per_file_render; opf.
  - unfold generation_settled, update_study. apply one_per_file_render; opf.
  - by apply one_per_file_handlePlayAudio.
  - unfold flipCard. case_match; [|done]. by apply one_per_file_update_flashcard.
  - unfold goToNextCard. repeat case_match; try done. by apply one_per_file_update_flashcard.
  - unfold goToPrevCard. repeat case_match; try done. by apply one_per_file_update_flashcard.
  - unfold card_timer. cbv zeta. destruct (_ =? _)%nat; [done|].
    by apply one_per_file_update_flashcard.
  - by apply one_per_file_handlePlay.
  - unfold handleExplain. repeat case_match; opf.
  - unfold explained. repeat case_match; opf.
  - by apply one_per_file_speech_settled.
  - by apply one_per_file_source_ended.
Qed.

Lemma one_per_file_initial : one_per_file initial.
Proof. intros s n Hl. done. Qed.

Lemma one_per_file_run w trace : one_per_file w -> one_per_file (run w trace).
Proof.
  revert w. induction trace as [|e l IH]; intros w Hw; [done|].
  cbn. apply IH. by apply one_per_file_step.
Qed.

(** Whatever the events, a sounding node is the [currentSource] of its file. *)
Theorem reachable_one_per_file w : reachable w -> one_per_file w.
Proof. intros [trace ->]. apply one_per_file_run, one_per_file_initial. Qed.

(** X4: hence the sources that sound at one instant come from different files:
    within one copy of the audio utilities there is at most one. *)
Theorem one_audible_source_per_file w s1 s2 n1 n2 :
  reachable w ->
  nodes w !! s1 = Some n1 -> nodes w !! s2 = Some n2 ->
  is_playing n1 = true -> is_playing n2 = true ->
  node_module n1 = node_module n2 ->
  s1 = s2.
Proof.
  intros Hr H1 H2 Hp1 Hp2 Hm. apply reachable_one_per_file in Hr.
  pose proof (Hr _ _ H1 Hp1) as Hc1. pose proof (Hr _ _ H2 Hp2) as Hc2.
  rewrite Hm in Hc1. congruence.
Qed.

Lemma sounds_stop_node s w s' :
  sounds (stop_node s w) s' = sounds w s' && negb (bool_decide (s' = s)).
Proof.
  unfold sounds, stop_node. cbn. case_bool_decide as Hs.
  - subst. rewrite list_lookup_alter_eq. destruct (nodes w !! s) as [n|]; [|done].
    cbn. rewrite andb_false_r. unfold is_playing. by destruct n as [? ? ? ? []].
  - rewrite list_lookup_alter_ne by done. by rewrite andb_true_r.
Qed.

Lemma sounds_same_audio w w' s : same_audio w w' -> sounds w' s = sounds w s.
Proof. intros (Hn & _). unfold sounds. by rewrite Hn. Qed.

Lemma stopAudio_spec m w :
  requests (stopAudio m w) = requests w /\
  decode_calls (stopAudio m w) = decode_calls w /\
  panel (stopAudio m w) = panel w /\
  length (nodes (stopAudio m w)) = length (nodes w) /\
  (forall s, currentSource w m = Some s -> sounds (stopAudio m w) s = false).
Proof.
  unfold stopAudio. destruct (currentSource w m) as [s|] eqn:Hcur; [|done].
  repeat split; [apply length_alter|].
  intros s' [= <-]. change (sounds (stop_node s w) s = false).
  rewrite sounds_stop_node, bool_decide_eq_true_2 by done. apply andb_false_r.
Qed.

Lemma stopAudio_currentSource m w : currentSource (stopAudio m w) m = None.
Proof.
  unfold stopAudio. destruct (currentSource w m) eqn:Hc; [|done].
  cbn. apply fn_lookup_insert.
Qed.

(** *** The card face and the audio *)

Lemma face_frame w w' : panel w' = panel w -> face w' = face w.
Proof. unfold face, mounted_flashcard. by intros ->. Qed.

Lemma face_setFlashcard inst f w : keeps_face f -> face (setFlashcard inst f w) = face w.
Proof.
  intros Hf. unfold setFlashcard, face, mounted_flashcard.
  destruct (panel w) as [[?|fs|?|?]|] eqn:Hp; rewrite ?Hp; try done.
  destruct (fc_inst fs =? inst)%nat; rewrite ?Hp; [|done]. cbn.
  by destruct (Hf fs) as [-> ->].
Qed.

Lemma face_setReader m inst f w : face (setReader m inst f w) = face w.
Proof.
  unfold setReader, face, mounted_flashcard.
  destruct m, (panel w) as [[r|?|r|?]|] eqn:Hp; rewrite ?Hp; try done;
    destruct (rd_inst r =? inst)%nat; cbn; rewrite ?Hp; done.
Qed.

Lemma face_stopAudio m w : face (stopAudio m w) = face w.
Proof. unfold stopAudio. by case_match. Qed.

Lemma face_playAudio m inst generated v w w' r :
  playAudio m inst generated v w = (w', r) -> face w' = face w.
Proof.
  intros Hp. apply face_frame.
  pose proof (playAudio_spec m inst generated v w) as (_ & _ & Hs & _).
  by rewrite Hp in Hs.
Qed.

Lemma face_request_speech m i t w : face (request_speech m i t w) = face w.
Proof. done. Qed.

Ltac face_step :=
  first
    [ rewrite face_setFlashcard by (by intros [])
    | rewrite face_setReader
    | rewrite face_stopAudio
    | rewrite face_request_speech
    | match goal with
      | H : playAudio _ _ _ _ ?w = (?w', _) |- context [face ?w'] =>
          rewrite (face_playAudio _ _ _ _ _ _ _ H)
      end ].

Lemma face_onEnd m inst w : face (onEnd m inst w) = face w.
Proof. destruct m; cbn [onEnd]; by face_step. Qed.

Lemma face_setIsGeneratingSpeech m inst v w :
  face (setIsGeneratingSpeech m inst v w) = face w.
Proof. destruct m; cbn [setIsGeneratingSpeech]; by face_step. Qed.

Lemma face_handlePlayAudio text w : face (fst (handlePlayAudio text w)) = face w.
Proof.
  unfold handlePlayAudio.
  repeat (case_match; simplify_eq); cbn [fst]; repeat face_step; done.
Qed.

Lemma face_handlePlay w : face (fst (handlePlay w)) = face w.
Proof.
  unfold handlePlay.
  repeat (case_match; simplify_eq); cbn [fst]; repeat face_step; done.
Qed.

Lemma face_speech_settled req response w : face (speech_settled req response w) = face w.
Proof.
  unfold speech_settled, flashcard_speech_settled, reader_speech_settled.
  repeat (case_match; simplify_eq); repeat face_step; done.
Qed.

Lemma face_source_ended s w : face (source_ended s w) = face w.
Proof.
  unfold source_ended, onended.
  repeat (case_match; simplify_eq);
    rewrite ?face_setIsGeneratingSpeech, ?face_onEnd; done.
Qed.

Lemma update_flashcard_settled inst f w :
  (forall fs, fc_inst (f fs) = fc_inst fs) ->
  face_settled w (update_flashcard inst f w).
Proof.
  intros Hinst. unfold update_flashcard.
  destruct (panel w) as [[?|fs|?|?]|] eqn:Hp; try by left.
  destruct (fc_inst fs =? inst)%nat eqn:Hi; [|by left].
  case_bool_decide as Hch.
  - left. unfold face, mounted_flashcard. cbn. rewrite Hp. cbn. by destruct Hch as [-> ->].
  - right; right. unfold flashcard_effect, flashcard_quiet. split.
    + pose proof (same_audio_setFlashcard inst (fc_setCurrentlyPlaying None)
        (stopAudio FlashcardTsx (set_panel (Some (FlashcardPanel (f fs))) w))) as (_ & -> & _).
      apply stopAudio_currentSource.
    + unfold setFlashcard.
      assert (panel (stopAudio FlashcardTsx (set_panel (Some (FlashcardPanel (f fs))) w))
              = Some (FlashcardPanel (f fs))) as ->.
      { unfold stopAudio. by case_match. }
      rewrite Hinst, Hi. by eexists.
Qed.

Lemma render_settled old w : face_settled w (render old w).
Proof.
  unfold render. case_decide as Hsame.
  - left. destruct (panel w) as [[rs|?|?|?]|] eqn:Hp; try done.
    case_bool_decide; [done|]. by rewrite !face_setReader, face_stopAudio.
  - destruct (rendered (study w)) as [t|].
    + destruct t; try (right; left; unfold mount; done).
      right; right. unfold mount, flashcard_quiet. cbn. split; [|by eexists].
      apply stopAudio_currentSource.
    + right; left. unfold unmount. by repeat case_match.
Qed.

Lemma face_render_study old f w :
  face_settled w (render old (set_study f w)).
Proof.
  destruct (render_settled old (set_study f w)) as [H|[H|H]]; [left|right;left|right;right]; done.
Qed.

Theorem step_face_settled w e : face_settled w (step w e).
Proof.
  destruct e; cbn [step].
  - unfold handleToolSelect, update_study. repeat case_match; try (by left); apply face_render_study.
  - apply face_render_study.
  - left. apply face_handlePlayAudio.
  - unfold flipCard. case_match; [|by left]. by apply update_flashcard_settled.
  - unfold goToNextCard. repeat case_match; try by left. by apply update_flashcard_settled.
  - unfold goToPrevCard. repeat case_match; try by left. by apply update_flashcard_settled.
  - unfold card_timer. cbv zeta. destruct (_ =? _)%nat; [by left|].
    by apply update_flashcard_settled.
  - left. apply face_handlePlay.
  - left. unfold handleExplain. repeat case_match; repeat face_step; done.
  - left. unfold explained. case_match; repeat face_step; done.
  - left. apply face_speech_settled.
  - left. apply face_source_ended.
Qed.

(** X28: right after an event that changes the index or the flip state of
    the card on display, the flashcard panel staying mounted, the panel
    shows nothing as playing, its file holds no current source, and no
    source node made by the flashcard file sounds.  (Nothing is said of
    sources of other files, nor of what is started later.) *)
Theorem face_change_stops_audio w e fs fs' :
  reachable w ->
  mounted_flashcard w = Some fs ->
  mounted_flashcard (step w e) = Some fs' ->
  currentIndex fs' <> currentIndex fs \/ isFlipped fs' <> isFlipped fs ->
  currentlyPlaying fs' = None /\
  currentSource (step w e) FlashcardTsx = None /\
  (forall s n, nodes (step w e) !! s = Some n -> node_module n = FlashcardTsx ->
               is_playing n = false).
Proof.
  intros Hr Hfs Hfs' Hch.
  destruct (step_face_settled w e) as [H|[H|[Hc (fs'' & Hm & Hp)]]].
  - unfold face in H. rewrite Hfs, Hfs' in H. cbn in H. injection H as ??.
    destruct Hch; congruence.
  - unfold face in H. by rewrite Hfs' in H.
  - rewrite Hfs' in Hm. injection Hm as <-. split; [done|]. split; [done|].
    intros s n Hl Hmod. destruct (is_playing n) eqn:Hpl; [|done].
    assert (one_per_file (step w e)) as Hinv.
    { apply one_per_file_step. by apply reachable_one_per_file. }
    specialize (Hinv _ _ Hl Hpl). congruence.
Qed.

Lemma face_change_stops_audio_witness :
  audible (run initial reading_trace) = [0%nat] /\
  audible (step (run initial reading_trace) FlipCard) = [] /\
  currentSource (step (run initial reading_trace) FlipCard) FlashcardTsx = None.
Proof.
  split; [reflexivity|]. split; [reflexivity|].
  eapply (face_change_stops_audio _ FlipCard).
  - by eexists.
  - vm_compute. reflexivity.
  - vm_compute. reflexivity.
  - right. cbn. discriminate.
Defined.

(** C10 fails when the speech of a face is still being synthesized while
    the card is turned: the effect on [currentIndex, isFlipped] finds
    nothing to stop, and when the speech arrives the handler's continuation
    plays it and marks the term as playing although the card shows the
    definition.  It also fails when the panel is left while a face is read:
    the flashcard panel has no unmount cleanup, so the narration goes on
    with no card on display. *)
Theorem narration_outlives_its_face :
  (face (run initial (open_flashcards [mitosis] ++ [PlayFlashcard (js "Mitosis")]))
     = Some (0%nat, false) /\
   face (run initial flip_while_pending_trace) = Some (0%nat, true) /\
   audible (run initial flip_while_pending_trace) = [0%nat] /\
   node_module <$> nodes (run initial flip_while_pending_trace) !! 0%nat = Some FlashcardTsx /\
   playing_text (run initial flip_while_pending_trace) = Some (Some (js "Mitosis"))) /\
  (audible (run initial reading_trace) = [0%nat] /\
   face (run initial leave_while_reading_trace) = None /\
   audible (run initial leave_while_reading_trace) = [0%nat]).
Proof. vm_compute. repeat split. Qed.

(** *** Toggle-stop *)

(** X10: on the flashcard panel, asking for the text that is shown as playing, when
    that text is not empty: the current source is stopped, the panel shows
    nothing as playing, and neither [generateSpeech] nor [decode] is
    called. *)
Theorem toggle_stop_flashcard w fs T :
  mounted_flashcard w = Some fs ->
  currentlyPlaying fs = Some T ->
  T <> [] ->
  snd (handlePlayAudio T w) = Ok tt /\
  (exists fs', mounted_flashcard (fst (handlePlayAudio T w)) = Some fs' /\
               currentlyPlaying fs' = None) /\
  currentSource (fst (handlePlayAudio T w)) FlashcardTsx = None /\
  requests (fst (handlePlayAudio T w)) = requests w /\
  decode_calls (fst (handlePlayAudio T w)) = decode_calls w /\
  length (nodes (fst (handlePlayAudio T w))) = length (nodes w) /\
  (forall s, currentSource w FlashcardTsx = Some s ->
             sounds (fst (handlePlayAudio T w)) s = false).
Proof.
  intros Hm Hp HT. unfold mounted_flashcard in Hm.
  destruct (panel w) as [[?|fs0|?|?]|] eqn:Hpanel; try done. injection Hm as ->.
  unfold handlePlayAudio. rewrite Hpanel, Hp.
  assert (nonempty T = true) as -> by (by destruct T).
  rewrite bool_decide_eq_true_2 by done. cbn [fst snd].
  pose proof (same_audio_setFlashcard (fc_inst fs) (fc_setCurrentlyPlaying None)
                (stopAudio FlashcardTsx w)) as Hsame.
  pose proof (stopAudio_spec FlashcardTsx w) as (Hr & Hd & Hps & Hl & Hq).
  split; [done|]. split.
  { unfold setFlashcard, mounted_flashcard. rewrite Hps, Hpanel, Nat.eqb_refl. cbn. by eexists. }
  split. { destruct Hsame as (_ & -> & _). apply stopAudio_currentSource. }
  split. { by destruct Hsame as (_ & _ & -> & _). }
  split. { by destruct Hsame as (_ & _ & _ & ->). }
  split. { by destruct Hsame as (-> & _). }
  intros s Hs. rewrite (sounds_same_audio _ _ _ Hsame). by apply Hq.
Qed.

(** X11: the same on the summary panel and the concept explainer. *)
Theorem toggle_stop_reader w m rs :
  mounted_reader w = Some (m, rs) ->
  isPlaying rs = true ->
  snd (handlePlay w) = Ok tt /\
  (exists rs', mounted_reader (fst (handlePlay w)) = Some (m, rs') /\ isPlaying rs' = false) /\
  currentSource (fst (handlePlay w)) m = None /\
  requests (fst (handlePlay w)) = requests w /\
  decode_calls (fst (handlePlay w)) = decode_calls w /\
  length (nodes (fst (handlePlay w))) = length (nodes w) /\
  (forall s, currentSource w m = Some s -> sounds (fst (handlePlay w)) s = false).
Proof.
  intros Hm Hp. unfold handlePlay. rewrite Hm, Hp. cbn [fst snd].
  pose proof (same_audio_setReader m (rd_inst rs) (rd_setIsPlaying false) (stopAudio m w))
    as Hsame.
  pose proof (stopAudio_spec m w) as (Hr & Hd & Hps & Hl & Hq).
  split; [done|]. split.
  { unfold mounted_reader in *. unfold setReader. rewrite Hps.
    destruct (panel w) as [[r|?|r|?]|]; try done; injection Hm as <- <-;
      rewrite Nat.eqb_refl; cbn; by eexists. }
  split. { destruct Hsame as (_ & -> & _). apply stopAudio_currentSource. }
  split. { by destruct Hsame as (_ & _ & -> & _). }
  split. { by destruct Hsame as (_ & _ & _ & ->). }
  split. { by destruct Hsame as (-> & _). }
  intros s Hs. rewrite (sounds_same_audio _ _ _ Hsame). by apply Hq.
Qed.

(** C5 fails on the flashcard panel for the empty text: [if
    (currentlyPlaying)] takes the empty string for "nothing is playing", so
    asking for it again while it sounds does not stop it; it is decoded and
    started once more. *)
Theorem empty_text_is_replayed :
  (playing_text (run initial empty_text_trace) = Some (Some []) /\
   audible (run initial empty_text_trace) = [0%nat] /\
   length (decode_calls (run initial empty_text_trace)) = 1%nat) /\
  playing_text (fst (handlePlayAudio [] (run initial empty_text_trace))) = Some (Some []) /\
  audible (fst (handlePlayAudio [] (run initial empty_text_trace))) = [1%nat] /\
  length (decode_calls (fst (handlePlayAudio [] (run initial empty_text_trace)))) = 2%nat.
Proof. vm_compute. repeat split. Qed.

(** After a stale completion (see [stale_completion_clears_new_playback])
    the panel shows nothing as playing although "Cell division" sounds;
    asking for that text then restarts it instead of stopping it. *)
Example unmarked_playback_is_replayed :
  playing_text (step (run initial stale_trace) (SourceEnded 2)) = Some None /\
  audible (step (run initial stale_trace) (SourceEnded 2)) = [3%nat] /\
  audible (step (step (run initial stale_trace) (SourceEnded 2))
                (PlayFlashcard (js "Cell division"))) = [4%nat] /\
  length (decode_calls (step (step (run initial stale_trace) (SourceEnded 2))
                             (PlayFlashcard (js "Cell division")))) =
  S (length (decode_calls (run initial stale_trace))).
Proof. vm_compute. repeat split. Qed.

(** *** The speech cache *)

(** Whenever [audioCache[text]] is truthy the handler issues no synthesis
    request. *)
Lemma truthy_lookup_no_synthesis w fs T v :
  mounted_flashcard w = Some fs ->
  object_get (audioCache fs) T = Some v ->
  ToBoolean v = true ->
  requests (fst (handlePlayAudio T w)) = requests w.
Proof.
  intros Hm Hc Hv. unfold mounted_flashcard in Hm.
  destruct (panel w) as [[?|fs0|?|?]|] eqn:Hpanel; try done. injection Hm as ->.
  unfold handlePlayAudio. rewrite Hpanel, Hc, Hv.
  assert (forall w0, requests w0 = requests w ->
            requests (fst (let '(w1, r) := playAudio FlashcardTsx (fc_inst fs) false v
                             (setFlashcard (fc_inst fs) (fc_setCurrentlyPlaying (Some T)) w0) in
                           (w1, let? _ := r in Ok tt))) = requests w) as Hplay.
  { intros w0 H0.
    pose proof (playAudio_spec FlashcardTsx (fc_inst fs) false v
                  (setFlashcard (fc_inst fs) (fc_setCurrentlyPlaying (Some T)) w0))
      as (_ & Hs & _).
    destruct (playAudio _ _ _ _ _) as [w1 r]. cbn in *. rewrite Hs.
    by pose proof (same_audio_setFlashcard (fc_inst fs) (fc_setCurrentlyPlaying (Some T)) w0)
      as (_ & _ & -> & _). }
  assert (requests (setFlashcard (fc_inst fs) (fc_setCurrentlyPlaying None)
                      (stopAudio FlashcardTsx w)) = requests w) as Hstop.
  { pose proof (same_audio_setFlashcard (fc_inst fs) (fc_setCurrentlyPlaying None)
                  (stopAudio FlashcardTsx w)) as (_ & _ & -> & _).
    apply stopAudio_spec. }
  destruct (currentlyPlaying fs) as [playing|]; [|by apply Hplay].
  destruct (nonempty playing); [|by apply Hplay].
  destruct (bool_decide (playing = T)); [done|]. by apply Hplay.
Qed.

(** X12: a text with a cache entry of its own is played without a synthesis
    request. *)
Theorem cache_hit_no_synthesis w fs T p :
  mounted_flashcard w = Some fs ->
  audioCache fs !! T = Some p ->
  nonempty p = true ->
  requests (fst (handlePlayAudio T w)) = requests w.
Proof.
  intros Hm Hc Hp. apply (truthy_lookup_no_synthesis w fs T (VString p)); [done| |].
  - unfold object_get. by rewrite Hc.
  - by destruct p.
Qed.

(** X13: a text that names an inherited property is taken for cached although it
    never was synthesized. *)
Theorem inherited_key_no_synthesis w fs T v :
  mounted_flashcard w = Some fs ->
  audioCache fs !! T = None ->
  Object_prototype_get T = Some v ->
  requests (fst (handlePlayAudio T w)) = requests w.
Proof.
  intros Hm Hc Hv. apply (truthy_lookup_no_synthesis w fs T v); [done| |].
  - unfold object_get. by rewrite Hc.
  - unfold Object_prototype_get in Hv. repeat case_match; by simplify_eq.
Qed.

(** A successful synthesis is stored under its text. *)
Theorem synthesis_fills_cache w fs T p :
  mounted_flashcard w = Some fs ->
  nonempty p = true ->
  exists fs', mounted_flashcard (flashcard_speech_settled (fc_inst fs) T (Some p) w) = Some fs' /\
              audioCache fs' !! T = Some p.
Proof.
  intros Hm Hp. unfold flashcard_speech_settled, generateSpeech. rewrite Hp.
  unfold mounted_flashcard in Hm.
  destruct (panel w) as [[?|fs0|?|?]|] eqn:Hpanel; try done. injection Hm as ->.
  set (w1 := setFlashcard _ _ (setFlashcard _ _ w)).
  assert (panel w1 = Some (FlashcardPanel (fc_setCurrentlyPlaying (Some T) (fc_setAudioCache T p fs)))) as Hw1.
  { subst w1. unfold setFlashcard. rewrite Hpanel, Nat.eqb_refl. cbn. by rewrite Nat.eqb_refl. }
  destruct (playAudio FlashcardTsx (fc_inst fs) true (VString p) w1) as [w2 r] eqn:Hplay.
  pose proof (playAudio_spec FlashcardTsx (fc_inst fs) true (VString p) w1) as (_ & _ & Hpp & _).
  rewrite Hplay in Hpp. cbn in Hpp.
  destruct r.
  - unfold mounted_flashcard. rewrite Hpp, Hw1. eexists. split; [done|]. cbn. apply lookup_insert_eq.
  - unfold mounted_flashcard, setFlashcard. rewrite Hpp, Hw1. cbn. rewrite Nat.eqb_refl. cbn.
    rewrite Nat.eqb_refl. eexists. split; [done|]. cbn. apply lookup_insert_eq.
Qed.

Example mitosis_is_synthesized_once :
  synthesis_requests (js "Mitosis") (run initial replay_trace) = 1%nat /\
  audible (run initial replay_trace) = [1%nat] /\
  playing_text (run initial replay_trace) = Some (Some (js "Mitosis")).
Proof. vm_compute. repeat split. Qed.

(** C6 fails for a text that names a property every object inherits:
    [audioCache["constructor"]] is the function [Object], which is truthy,
    so the text is taken for cached, no synthesis request is ever issued,
    and decoding the function's source text fails. *)
Theorem constructor_is_never_synthesized :
  synthesis_requests (js "constructor") (run initial constructor_trace) = 0%nat /\
  nodes (run initial constructor_trace) = [] /\
  decode_calls (run initial constructor_trace) =
    [js "function Object() { [native code] }"; js "function Object() { [native code] }"] /\
  snd (handlePlayAudio (js "constructor") (run initial (open_flashcards [constructor_card])))
    = Throw InvalidCharacterError.
Proof. vm_compute. repeat split. Qed.

(** *** Playback across files and stale completions *)

(** C1 fails across files: while a flashcard sounds (source 0, made by the
    flashcard file) the user returns to the summary and has it read aloud
    (source 1, made by [StudyInterface.tsx]); each file only knows its own
    [currentSource], and the flashcard panel does not stop its audio when
    it is unmounted, so both sound together. *)
Theorem two_files_sound_together :
  audible (run initial overlap_trace) = [0; 1]%nat /\
  node_module <$> nodes (run initial overlap_trace) !! 0%nat = Some FlashcardTsx /\
  node_module <$> nodes (run initial overlap_trace) !! 1%nat = Some StudyInterfaceTsx /\
  currentSource (run initial overlap_trace) FlashcardTsx = Some 0%nat /\
  currentSource (run initial overlap_trace) StudyInterfaceTsx = Some 1%nat.
Proof. vm_compute. repeat split. Qed.

(** X9: the 'ended' event of a stopped node that is no longer the current source
    leaves [currentSource] alone but still calls [onEnd], which clears what
    the flashcard panel shows as playing, whatever that is. *)
Theorem stale_completion w a n fs :
  nodes w !! a = Some n ->
  node_state n = Stopped ->
  node_module n = FlashcardTsx ->
  mounted_flashcard w = Some fs ->
  fc_inst fs = node_inst n ->
  currentSource w FlashcardTsx <> Some a ->
  currentSource (source_ended a w) = currentSource w /\
  exists fs', mounted_flashcard (source_ended a w) = Some fs' /\ currentlyPlaying fs' = None.
Proof.
  intros Hn Hst Hmod Hm Hinst Hcur. unfold source_ended. rewrite Hn, Hst.
  unfold onended. cbn [nodes set_nodes].
  rewrite list_lookup_insert_eq by (by eapply lookup_lt_Some).
  cbn [node_module with_state node_inst node_generated]. rewrite Hmod.
  rewrite decide_False by done.
  set (w1 := set_nodes _ w).
  unfold mounted_flashcard in Hm.
  destruct (panel w) as [[?|fs0|?|?]|] eqn:Hpanel; try done. injection Hm as ->.
  assert (panel (onEnd FlashcardTsx (node_inst n) w1) =
          Some (FlashcardPanel (fc_setCurrentlyPlaying None fs))) as Hp1.
  { cbn [onEnd]. unfold setFlashcard. subst w1. cbn. rewrite Hpanel, Hinst, Nat.eqb_refl. done. }
  split.
  - destruct (node_generated n).
    + pose proof (same_audio_setIsGeneratingSpeech FlashcardTsx (node_inst n) false
                    (onEnd FlashcardTsx (node_inst n) w1)) as (_ & -> & _).
      by pose proof (same_audio_onEnd FlashcardTsx (node_inst n) w1) as (_ & -> & _).
    + by pose proof (same_audio_onEnd FlashcardTsx (node_inst n) w1) as (_ & -> & _).
  - destruct (node_generated n).
    + cbn [setIsGeneratingSpeech]. unfold setFlashcard at 1, mounted_flashcard. rewrite Hp1. cbn.
      rewrite Hinst, Nat.eqb_refl. cbn. by eexists.
    + unfold mounted_flashcard. rewrite Hp1. by eexists.
Qed.

(** C2 fails on the panel state: playback A (source 2) is stopped and
    playback B (source 3) started; when A's 'ended' event is dispatched,
    [currentSource] still is B and B still sounds, but the panel no longer
    shows B as playing. *)
Theorem stale_completion_clears_new_playback :
  (playing_text (run initial stale_trace) = Some (Some (js "Cell division")) /\
   currentSource (run initial stale_trace) FlashcardTsx = Some 3%nat /\
   audible (run initial stale_trace) = [3%nat] /\
   node_state <$> nodes (run initial stale_trace) !! 2%nat = Some Stopped) /\
  currentSource (step (run initial stale_trace) (SourceEnded 2)) FlashcardTsx = Some 3%nat /\
  audible (step (run initial stale_trace) (SourceEnded 2)) = [3%nat] /\
  playing_text (step (run initial stale_trace) (SourceEnded 2)) = Some None.
Proof. vm_compute. repeat split. Qed.

(** *** Decode failure *)




End PageFacts.

(** ** The chat panel *)

Module ChatFacts.

Import ChatPanel.

Lemma handleSendMessage_accepted st :
  accepted st ->
  handleSendMessage st =
  mkChat (store st ++ [mkMessage user (trim (userInput st)); mkMessage model []])
         (messages st ++ [length (store st); S (length (store st))])
         (session st) [] true (sent st ++ [trim (userInput st)]).
Proof. intros (Hi & Hs & Hl). unfold handleSendMessage. by rewrite Hi, Hs, Hl. Qed.

Lemma streaming_store fragments : forall st r c,
  last (messages st) = Some r ->
  store st !! r = Some (mkMessage model c) ->
  streaming st fragments =
  mkChat (<[r := mkMessage model (c ++ concat (appended <$> fragments))]> (store st))
         (messages st) (session st) (userInput st) (isLoading st) (sent st).
Proof.
  induction fragments as [|chunk l IH]; intros st r c Hlast Hr.
  - cbn. rewrite app_nil_r, list_insert_id by done. by destruct st.
  - cbn [streaming foldl]. fold (streaming (on_chunk st chunk) l).
    assert (on_chunk st chunk =
            mkChat (<[r := mkMessage model (c ++ appended chunk)]> (store st))
                   (messages st) (session st) (userInput st) (isLoading st) (sent st)) as Hc.
    { unfold on_chunk. by rewrite Hlast, Hr. }
    rewrite Hc. erewrite IH; cbn [messages store session userInput isLoading sent]; [| done |].
    + rewrite list_insert_insert_eq. cbn [concat fmap list_fmap]. by rewrite app_assoc.
    + apply list_lookup_insert_eq. by eapply lookup_lt_Some.
Qed.

Lemma transcript_old_refs (ms : list nat) (st0 st1 : list ChatMessage) :
  Forall (fun r => st1 !! r = st0 !! r) ms ->
  omap (fun r => st1 !! r) ms = omap (fun r => st0 !! r) ms.
Proof.
  induction 1 as [|r l Hr _ IH]; [done|]. cbn. by rewrite Hr, IH.
Qed.

Lemma transcript_streaming st fragments :
  wf st -> accepted st ->
  transcript (streaming (handleSendMessage st) fragments) =
  transcript st ++ [mkMessage user (trim (userInput st));
                    mkMessage model (concat (appended <$> fragments))].
Proof.
  intros Hwf Hacc. rewrite handleSendMessage_accepted by done.
  set (L := length (store st)).
  erewrite (streaming_store fragments _ (S L) []); cbn [messages store];
    [|by rewrite (assoc_L app _ [L] [S L]), last_snoc
     |rewrite lookup_app_r by lia; by replace (S L - length (store st))%nat with 1%nat by lia].
  unfold transcript. cbn [messages store app].
  rewrite omap_app. f_equal.
  - apply transcript_old_refs. eapply Forall_impl; [exact Hwf|]. cbn. intros r Hr.
    rewrite list_lookup_insert_ne by lia. by rewrite lookup_app_l.
  - cbn [omap list_omap].
    rewrite list_lookup_insert_ne by lia.
    rewrite lookup_app_r by lia. replace (L - length (store st))%nat with 0%nat by lia.
    cbn. rewrite list_lookup_insert_eq by (rewrite length_app; cbn; lia). done.
Qed.

Lemma streaming_state st fragments :
  accepted st ->
  streaming (handleSendMessage st) fragments =
  mkChat (store st ++ [mkMessage user (trim (userInput st));
                       mkMessage model (concat (appended <$> fragments))])
         (messages st ++ [length (store st); S (length (store st))])
         (session st) [] true (sent st ++ [trim (userInput st)]).
Proof.
  intros Hacc. rewrite handleSendMessage_accepted by done.
  set (L := length (store st)).
  erewrite (streaming_store fragments _ (S L) []); cbn [messages store session userInput isLoading sent];
    [|by rewrite (assoc_L app _ [L] [S L]), last_snoc
     |rewrite lookup_app_r by lia; by replace (S L - length (store st))%nat with 1%nat by lia].
  f_equal. rewrite insert_app_r_alt by lia.
  by replace (S L - length (store st))%nat with 1%nat by lia.
Qed.

Lemma appended_texts chunks :
  Forall is_Some chunks -> appended <$> chunks = texts chunks.
Proof.
  induction 1 as [|c l [t ->] _ IH]; [done|]. unfold texts in *. cbn. by rewrite IH.
Qed.

(** X27: after an accepted send, when the first k chunks have arrived the
    transcript is the old transcript, the user's message, and an assistant
    entry whose content is the concatenation, in arrival order, of what
    those k chunks appended (the text of a chunk, the characters
    ["undefined"] for a chunk without text), for every k; when the stream
    completes it holds what all of them appended.  When every chunk
    carries text this is the concatenation of the texts. *)
Theorem chunks_append_in_order st chunks :
  wf st -> accepted st ->
  (forall k, (k <= length chunks)%nat ->
     transcript (streaming (handleSendMessage st) (take k chunks)) =
     transcript st ++ [mkMessage user (trim (userInput st));
                       mkMessage model (concat (appended <$> take k chunks))]) /\
  transcript (send chunks Completed st) =
  transcript st ++ [mkMessage user (trim (userInput st));
                    mkMessage model (concat (appended <$> chunks))] /\
  (Forall is_Some chunks ->
   transcript (send chunks Completed st) =
   transcript st ++ [mkMessage user (trim (userInput st));
                     mkMessage model (concat (texts chunks))]).
Proof.
  intros Hwf Hacc.
  assert (transcript (send chunks Completed st) =
          transcript st ++ [mkMessage user (trim (userInput st));
                            mkMessage model (concat (appended <$> chunks))]) as Hall.
  { unfold send. destruct Hacc as (Hi & Hs & Hl). rewrite Hi, Hs, Hl. cbn [negb orb finish].
    change (transcript (on_complete ?s)) with (transcript s).
    by apply transcript_streaming. }
  split; [|split; [done|]].
  - intros k _. by apply transcript_streaming.
  - intros Htext. by rewrite Hall, appended_texts.
Qed.

Lemma chunks_append_in_order_witness :
  transcript (send [Some (js "Hel"); Some (js "lo "); Some (js "world")] Completed
                (setUserInput (js " hi ") mounted)) =
  [greeting; mkMessage user (js "hi"); mkMessage model (js "Hello world")].
Proof.
  assert (wf (setUserInput (js " hi ") mounted)) as Hwf by (repeat constructor).
  assert (accepted (setUserInput (js " hi ") mounted)) as Hacc by (by repeat split).
  exact (proj1 (proj2 (chunks_append_in_order _
                         [Some (js "Hel"); Some (js "lo "); Some (js "world")] Hwf Hacc))).
Defined.

(** C4 fails for a stream with a chunk that carries no text: [chunk.text]
    is [undefined] there and the updater appends it unguarded, so the
    characters ["undefined"] appear in the assistant entry, which is then
    not the concatenation of the fragments. *)
Theorem textless_chunk_appends_undefined :
  texts textless_stream = [js "Hel"; js "lo"] /\
  transcript (send textless_stream Completed (setUserInput (js "hi") mounted)) =
    [greeting; mkMessage user (js "hi"); mkMessage model (js "Helundefinedlo")] /\
  transcript (send textless_stream Completed (setUserInput (js "hi") mounted)) <>
    [greeting; mkMessage user (js "hi"); mkMessage model (concat (texts textless_stream))].
Proof. split; [reflexivity|]. split; [reflexivity|]. discriminate. Qed.

(** C9: a send whose input is empty after trimming, or issued while a send is
    in progress, changes nothing: the state, hence the transcript and the
    list of requests to the chat service, is the same, whatever the service
    would have answered. *)
Theorem send_rejected st :
  trim (userInput st) = [] \/ isLoading st = true ->
  handleSendMessage st = st /\
  (forall fragments how, send fragments how st = st) /\
  transcript (handleSendMessage st) = transcript st /\
  sent (handleSendMessage st) = sent st.
Proof.
  intros H.
  assert (negb (nonempty (trim (userInput st))) || negb (session st) || isLoading st = true) as Hg.
  { destruct H as [-> | ->]; [done|]. apply orb_true_r. }
  assert (handleSendMessage st = st) as Hh by (unfold handleSendMessage; by rewrite Hg).
  split; [done|]. split; [|by rewrite Hh].
  intros. unfold send. by rewrite Hg.
Qed.

Lemma send_rejected_witness :
  handleSendMessage (setUserInput (js "   ") mounted) = setUserInput (js "   ") mounted.
Proof.
  refine (proj1 (send_rejected (setUserInput (js "   ") mounted) _)).
  left. reflexivity.
Defined.

(** C3, as the code has it: when an accepted send fails, the placeholder is
    replaced by the apology message if no text has arrived; otherwise the
    partial content stays and the apology message is appended as a further
    assistant entry.  In both cases [isLoading] is reset; the state has no
    error flag. *)
Theorem failure_policy st fragments :
  wf st -> accepted st ->
  transcript (send fragments Failed st) =
    transcript st ++ mkMessage user (trim (userInput st)) ::
      (if nonempty (concat (appended <$> fragments))
       then [mkMessage model (concat (appended <$> fragments)); errorMessage]
       else [errorMessage]) /\
  isLoading (send fragments Failed st) = false.
Proof.
  intros Hwf Hacc. unfold send.
  destruct Hacc as (Hi & Hs & Hl). rewrite Hi, Hs, Hl. cbn [negb orb finish].
  rewrite streaming_state by done. split; [|done].
  set (L := length (store st)). set (u := mkMessage user _).
  unfold on_error. cbn [store messages session userInput sent].
  rewrite !length_app. cbn [length].
  replace (length (messages st) + 2 - 1)%nat with (length (messages st) + 1)%nat by lia.
  rewrite lookup_app_r by lia.
  replace (length (messages st) + 1 - length (messages st))%nat with 1%nat by lia.
  cbn [lookup list_lookup]. rewrite lookup_app_r by lia.
  replace (S L - length (store st))%nat with 1%nat by lia. cbn [lookup list_lookup role content].
  rewrite bool_decide_eq_true_2 by done. cbn [andb].
  assert (forall tail, Forall (fun r => ((store st ++ tail) !! r = store st !! r)) (messages st)) as Hold.
  { intros tail. eapply Forall_impl; [exact Hwf|]. cbn. intros r Hr. by rewrite lookup_app_l. }
  unfold transcript. destruct (nonempty (concat (appended <$> fragments))) eqn:Hne; cbn [negb messages store].
  - rewrite <- !app_assoc. cbn [app]. rewrite omap_app. f_equal.
    + apply transcript_old_refs, Hold.
    + cbn [omap list_omap]. fold L.
      rewrite (lookup_app_r _ _ L) by lia. rewrite Nat.sub_diag.
      rewrite (lookup_app_r _ _ (S L)) by (fold L; lia).
      rewrite (lookup_app_r _ _ (L + 2)%nat) by (fold L; lia).
      replace (S L - length (store st))%nat with 1%nat by (fold L; lia).
      replace (L + 2 - length (store st))%nat with 2%nat by (fold L; lia). done.
  - rewrite insert_app_r_alt by lia.
    replace (length (messages st) + 1 - length (messages st))%nat with 1%nat by lia.
    cbn [insert list_insert]. rewrite <- !app_assoc. cbn [app]. rewrite omap_app. f_equal.
    + apply transcript_old_refs, Hold.
    + cbn [omap list_omap]. fold L.
      rewrite (lookup_app_r _ _ L) by lia. rewrite Nat.sub_diag.
      rewrite (lookup_app_r _ _ (L + 2)%nat) by (fold L; lia).
      replace (L + 2 - length (store st))%nat with 2%nat by (fold L; lia). done.
Qed.

Lemma failure_policy_witness :
  transcript (send [Some (js "Hel")] Failed (setUserInput (js "hi") mounted)) =
  [greeting; mkMessage user (js "hi"); mkMessage model (js "Hel"); errorMessage].
Proof.
  assert (wf (setUserInput (js "hi") mounted)) as Hwf by (repeat constructor).
  assert (accepted (setUserInput (js "hi") mounted)) as Hacc by (by repeat split).
  exact (proj1 (failure_policy _ [Some (js "Hel")] Hwf Hacc)).
Defined.

(** C3 as stated fails: with partial content present, the failure appends an
    entry to the transcript. *)
Lemma failure_with_partial_content_appends :
  last (transcript partial_reply) = Some (mkMessage model (js "Hel")) /\
  transcript (on_error partial_reply) = transcript partial_reply ++ [errorMessage] /\
  transcript (on_error partial_reply) <> transcript partial_reply.
Proof. split; [reflexivity|]. split; [reflexivity|]. discriminate. Qed.

End ChatFacts.

(** ** The decoder, further *)

Module DecoderMore.
Import Base64 Decoder Base64Facts DecoderFacts DecoderViews.

(** X1: [decode] undoes the padded encoding of any byte sequence. *)
Theorem decode_btoa bytes :
  Forall (fun b => b < 256) bytes -> decode (btoa bytes) = Ok bytes.
Proof.
  intros Hb. unfold decode. rewrite atob_btoa by done. cbn [bindR]. f_equal.
  induction Hb as [|b l Hlt _ IH]; [done|]. cbn [map]. rewrite IH. f_equal.
  by apply N.mod_small.
Qed.

Lemma decode_btoa_witness : decode (btoa [77; 97]) = Ok [77; 97].
Proof. apply decode_btoa. repeat constructor. Defined.

Lemma decode_bytes payload bytes :
  decode payload = Ok bytes -> Forall (fun b => b < 256) bytes.
Proof.
  unfold decode. destruct (atob payload) as [s|]; [|done]. cbn. intros [= <-].
  apply Forall_map, Forall_true. intros c. cbn. lia.
Qed.

Lemma int16_of_bytes_range lo hi : lo < 256 -> hi < 256 -> is_int16 (int16_of_bytes lo hi).
Proof.
  intros. unfold is_int16, int16_of_bytes. cbv zeta.
  destruct (_ <? _)%Z eqn:Hlt; [apply Z.ltb_lt in Hlt|apply Z.ltb_ge in Hlt]; lia.
Qed.

Lemma list_ind2 {A} (P : list A -> Prop) :
  P [] -> (forall a, P [a]) -> (forall a b l, P l -> P (a :: b :: l)) -> forall l, P l.
Proof.
  intros H0 H1 H2 l.
  assert (P l /\ forall a, P (a :: l)) as [? _]; [|done].
  induction l as [|x l [IH0 IH1]]; [by auto|]. split; [apply IH1|]. intros a. by apply H2.
Qed.

Lemma int16_view_range data :
  Forall (fun b => b < 256) data -> Forall is_int16 (int16_view data).
Proof.
  induction data as [|a|a b l IH] using list_ind2; intros Hb; cbn [int16_view];
    [constructor|constructor|].
  apply Forall_cons in Hb as [? Hb]. apply Forall_cons in Hb as [? Hb].
  constructor; [by apply int16_of_bytes_range|by apply IH].
Qed.

Lemma int16_view_length data :
  Nat.even (length data) = true -> (2 * length (int16_view data) = length data)%nat.
Proof.
  induction data as [|a|a b l IH] using list_ind2; intros He; try done.
  cbn [int16_view length] in *. specialize (IH He). lia.
Qed.

(** X2: whatever [playAudio] manages to decode is a one-channel buffer at
    24000 Hz with one frame per two payload bytes, at least one frame, and
    every sample in [-1, 1), exact in single precision. *)
Theorem decoded_buffer_shape payload buffer :
  decode_payload payload = Ok buffer ->
  numberOfChannels buffer = 1%nat /\ sampleRate buffer = 24000 /\
  (1 <= buffer_length buffer)%nat /\
  exists bytes samples,
    decode payload = Ok bytes /\
    (2 * buffer_length buffer = length bytes)%nat /\
    channels buffer = [samples] /\ length samples = buffer_length buffer /\
    Forall (fun q => (-1 <= q)%Q /\ (q < 1)%Q /\ binary32_exact q) samples.
Proof.
  unfold decode_payload. destruct (decode payload) as [bytes|] eqn:Hd; [|done].
  cbn [bindR]. intros Hb.
  pose proof (decode_bytes _ _ Hd) as Hlt.
  destruct (Nat.even (length bytes)) eqn:He.
  2:{ unfold decodeAudioData, Int16Array in Hb. by rewrite He in Hb. }
  destruct (int16_view bytes) as [|s0 rest] eqn:Hv.
  { unfold decodeAudioData, Int16Array in Hb. rewrite He, Hv in Hb. done. }
  rewrite decodeAudioData_mono in Hb; [|cbn; lia|done|done|by rewrite Hv].
  injection Hb as <-.
  cbn [numberOfChannels sampleRate buffer_length channels].
  split; [done|]. split; [done|]. split; [rewrite Hv; cbn; lia|].
  exists bytes, (map sample_of_int16 (int16_view bytes)).
  split; [done|]. split; [by apply int16_view_length|]. split; [done|].
  split; [by rewrite length_map|].
  apply Forall_map. eapply Forall_impl; [by apply int16_view_range|]. cbn. intros s Hi.
  pose proof (sample_in_unit_range s Hi) as [? ?].
  pose proof (sample_exact_in_binary32 s Hi). done.
Qed.

Lemma decoded_buffer_shape_witness :
  sampleRate (mkAudioBuffer 1 3 24000 [[1 # 32768; -2 # 32768; 32767 # 32768]%Q]) = 24000 /\
  decode_payload (js "AQD+//9/") =
    Ok (mkAudioBuffer 1 3 24000 [[1 # 32768; -2 # 32768; 32767 # 32768]%Q]).
Proof.
  split; [|reflexivity].
  exact (proj1 (proj2 (decoded_buffer_shape (js "AQD+//9/") _ eq_refl))).
Defined.





(** Beyond what the context supports no buffer is made. *)
Lemma decodeAudioData_unsupported data ctx rate numChannels :
  Nat.even (length data) = true ->
  (maxChannels ctx < numChannels)%nat \/ rate < minRate ctx \/ maxRate ctx < rate ->
  decodeAudioData data ctx rate numChannels = Throw NotSupportedError.
Proof.
  intros He Hout. unfold decodeAudioData, Int16Array. rewrite He. cbn [bindR].
  unfold createBuffer.
  destruct Hout as [H|[H|H]].
  - apply Nat.ltb_lt in H. rewrite H. by rewrite !orb_true_r.
  - apply N.ltb_lt in H. rewrite H. by rewrite !orb_true_r.
  - apply N.ltb_lt in H. rewrite H. by rewrite !orb_true_r.
Qed.

End DecoderMore.

(** ** The page, further *)

Module PageMore.
Import Decoder Page Scenarios PageFacts PageViews MoreScenarios.

Lemma prim_setFlashcard i f w : prim w (setFlashcard i f w).
Proof. pose proof (same_audio_setFlashcard i f w) as (? & ? & _). by apply prim_state. Qed.
Lemma prim_setReader m i f w : prim w (setReader m i f w).
Proof. pose proof (same_audio_setReader m i f w) as (? & ? & _). by apply prim_state. Qed.
Lemma prim_set_panel v w : prim w (set_panel v w).
Proof. by apply prim_state. Qed.
Lemma prim_set_study v w : prim w (set_study v w).
Proof. by apply prim_state. Qed.
Lemma prim_set_next_inst v w : prim w (set_next_inst v w).
Proof. by apply prim_state. Qed.
Lemma prim_set_requests v w : prim w (set_requests v w).
Proof. by apply prim_state. Qed.
Lemma prim_request_speech m i t w : prim w (request_speech m i t w).
Proof. by apply prim_state. Qed.

(** Decompose the world a handler returns into primitive operations. *)
Ltac prims :=
  repeat first
    [ apply rtc_refl
    | eapply rtc_r;
      [ | first [ apply prim_stop | apply prim_ended | apply prim_setFlashcard
                | apply prim_setReader | apply prim_set_panel | apply prim_set_study
                | apply prim_set_next_inst | apply prim_set_requests
                | apply prim_request_speech
                | (eapply prim_play; eassumption) ] ] ].

Lemma handlePlayAudio_prims text w : rtc prim w (fst (handlePlayAudio text w)).
Proof. unfold handlePlayAudio. repeat (case_match; simplify_eq); cbn [fst]; prims. Qed.

Lemma handlePlay_prims w : rtc prim w (fst (handlePlay w)).
Proof. unfold handlePlay. repeat (case_match; simplify_eq); cbn [fst]; prims. Qed.

Lemma speech_settled_prims req response w : rtc prim w (speech_settled req response w).
Proof.
  unfold speech_settled, flashcard_speech_settled, reader_speech_settled.
  repeat (case_match; simplify_eq); prims.
Qed.

Lemma update_flashcard_prims inst f w : rtc prim w (update_flashcard inst f w).
Proof. unfold update_flashcard, flashcard_effect. repeat (case_match; simplify_eq); prims. Qed.

Lemma render_prims old w : rtc prim w (render old w).
Proof. unfold render, unmount, mount. repeat (case_match; simplify_eq); prims. Qed.

Lemma update_study_prims f w : rtc prim w (update_study f w).
Proof.
  unfold update_study. eapply rtc_l; [apply (prim_set_study (f (study w)))|apply render_prims].
Qed.

(** Every event is a sequence of primitive operations. *)
Lemma step_prims w e : rtc prim w (step w e).
Proof.
  destruct e; cbn [step].
  - unfold handleToolSelect. repeat case_match; try apply rtc_refl; apply update_study_prims.
  - apply update_study_prims.
  - apply handlePlayAudio_prims.
  - unfold flipCard. case_match; [apply update_flashcard_prims|apply rtc_refl].
  - unfold goToNextCard. repeat case_match; try apply rtc_refl; apply update_flashcard_prims.
  - unfold goToPrevCard. repeat case_match; try apply rtc_refl; apply update_flashcard_prims.
  - unfold card_timer. cbv zeta. destruct (_ =? _)%nat; [apply rtc_refl|].
    apply update_flashcard_prims.
  - apply handlePlay_prims.
  - unfold handleExplain. repeat case_match; prims.
  - unfold explained. repeat case_match; prims.
  - apply speech_settled_prims.
  - apply rtc_once, prim_ended.
Qed.

Lemma run_prims trace : forall w, rtc prim w (run w trace).
Proof.
  induction trace as [|e l IH]; intros w; [apply rtc_refl|].
  cbn. etrans; [apply step_prims|apply IH].
Qed.

(** *** Nodes only move forward *)

Lemma node_advances_refl n : node_advances n n.
Proof. by repeat split. Qed.

Lemma nodes_advance_refl w : nodes_advance w w.
Proof. intros s n Hn. exists n. split; [done|apply node_advances_refl]. Qed.

Lemma nodes_advance_trans w1 w2 w3 :
  nodes_advance w1 w2 -> nodes_advance w2 w3 -> nodes_advance w1 w3.
Proof.
  intros H12 H23 s n Hn. destruct (H12 _ _ Hn) as (n2 & Hn2 & (?&?&?&?&?)).
  destruct (H23 _ _ Hn2) as (n3 & Hn3 & (?&?&?&?&?)).
  exists n3. split; [done|]. repeat split; try congruence. lia.
Qed.

Lemma nodes_advance_stop_node s w : nodes_advance w (stop_node s w).
Proof.
  intros s' n Hn. unfold stop_node. cbn [nodes set_nodes].
  destruct (decide (s' = s)) as [->|Hne].
  - rewrite list_lookup_alter_eq, Hn. cbn. eexists. split; [done|].
    destruct n as [? ? ? ? []]; repeat split; cbn; lia.
  - rewrite list_lookup_alter_ne by done. exists n. split; [done|apply node_advances_refl].
Qed.

Lemma nodes_advance_frame w w' : nodes w' = nodes w -> nodes_advance w w'.
Proof. intros Hn s n Hs. exists n. rewrite Hn. split; [done|apply node_advances_refl]. Qed.

Lemma source_ended_spec s w :
  match nodes w !! s with
  | Some n =>
      if decide (node_state n = Ended) then source_ended s w = w
      else
        nodes (source_ended s w) = <[s := with_state Ended n]> (nodes w) /\
        currentSource (source_ended s w) =
          (if decide (currentSource w (node_module n) = Some s)
           then <[node_module n := None]> (currentSource w) else currentSource w) /\
        requests (source_ended s w) = requests w /\
        decode_calls (source_ended s w) = decode_calls w
  | None => source_ended s w = w
  end.
Proof.
  unfold source_ended. destruct (nodes w !! s) as [n|] eqn:Hn; [|done].
  case_decide as He; [by rewrite He|].
  assert (onended s (set_nodes (<[s:=with_state Ended n]> (nodes w)) w) =
          match node_state n with
          | Ended => w
          | _ => onended s (set_nodes (<[s:=with_state Ended n]> (nodes w)) w)
          end) as <- by (by destruct (node_state n)).
  unfold onended. cbn [nodes set_nodes].
  rewrite list_lookup_insert_eq by (by eapply lookup_lt_Some).
  cbn [node_module with_state node_inst node_generated].
  set (w1 := set_nodes _ w).
  set (w2 := if decide (currentSource w1 (node_module n) = Some s)
             then set_currentSource (node_module n) None w1 else w1).
  assert (same_audio w2 (if node_generated n
            then setIsGeneratingSpeech (node_module n) (node_inst n) false
                   (onEnd (node_module n) (node_inst n) w2)
            else onEnd (node_module n) (node_inst n) w2)) as (-> & -> & -> & ->).
  { destruct (node_generated n).
    - eapply same_audio_trans; [apply same_audio_onEnd|apply same_audio_setIsGeneratingSpeech].
    - apply same_audio_onEnd. }
  subst w2 w1. cbn. by destruct (decide (currentSource w (node_module n) = Some s)).
Qed.

Lemma nodes_advance_source_ended s w : nodes_advance w (source_ended s w).
Proof.
  pose proof (source_ended_spec s w) as Hs.
  destruct (nodes w !! s) as [n|] eqn:Hn; [|rewrite Hs; apply nodes_advance_refl].
  case_decide; [rewrite Hs; apply nodes_advance_refl|].
  destruct Hs as (Hnodes & _). intros s' n' Hn'. rewrite Hnodes.
  destruct (decide (s' = s)) as [->|Hne].
  - rewrite list_lookup_insert_eq by (by eapply lookup_lt_Some). eexists. split; [done|].
    assert (n' = n) as -> by congruence.
    destruct n as [? ? ? ? []]; repeat split; cbn; lia.
  - rewrite list_lookup_insert_ne by done. exists n'. split; [done|apply node_advances_refl].
Qed.

Lemma nodes_advance_prim w w' : prim w w' -> nodes_advance w w'.
Proof.
  destruct 1 as [m w|m inst g v w w' r Hp|s w|w w' Hn Hc].
  - unfold stopAudio. destruct (currentSource w m) as [s|]; [|apply nodes_advance_refl].
    eapply nodes_advance_trans; [apply nodes_advance_stop_node|by apply nodes_advance_frame].
  - pose proof (playAudio_spec m inst g v w) as (Hs & _). rewrite Hp in Hs. cbn [fst snd] in Hs.
    assert (nodes_advance w (match currentSource w m with
                              | Some s => stop_node s w | None => w end)) as H0.
    { destruct (currentSource w m); [apply nodes_advance_stop_node|apply nodes_advance_refl]. }
    eapply nodes_advance_trans; [exact H0|].
    destruct (decode_payload (ToString v)).
    + destruct Hs as (_ & Hn & _). intros s n Hl. exists n. rewrite Hn.
      split; [by apply lookup_app_l_Some|apply node_advances_refl].
    + destruct Hs as (_ & Hn & _). by apply nodes_advance_frame.
  - apply nodes_advance_source_ended.
  - by apply nodes_advance_frame.
Qed.

Lemma nodes_advance_steps w w' : rtc prim w w' -> nodes_advance w w'.
Proof.
  induction 1 as [|w1 w2 w3 H12 _ IH]; [apply nodes_advance_refl|].
  eapply nodes_advance_trans; [by apply nodes_advance_prim|done].
Qed.

(** X6: whatever happens next, a node stays the node it is (same file, same
    instance, same buffer) and only moves forward from playing to stopped
    to ended: a source that fell silent never sounds again, and no node is
    ever removed. *)
Theorem nodes_only_advance w trace s n :
  nodes w !! s = Some n ->
  exists n', nodes (run w trace) !! s = Some n' /\ node_advances n n' /\
             (is_playing n = false -> is_playing n' = false) /\
             (length (nodes w) <= length (nodes (run w trace)))%nat.
Proof.
  intros Hn. pose proof (nodes_advance_steps _ _ (run_prims trace w)) as Hadv.
  destruct (Hadv _ _ Hn) as (n' & Hn' & Ha). exists n'. split; [done|]. split; [done|]. split.
  - destruct Ha as (_ & _ & _ & _ & Hr). unfold is_playing.
    destruct (node_state n), (node_state n'); cbn in Hr; try done; lia.
  - destruct (decide (length (nodes w) <= length (nodes (run w trace)))%nat) as [|Hgt]; [done|].
    destruct (lookup_lt_is_Some_2 (nodes w) (length (nodes (run w trace)))) as [x Hx]; [lia|].
    destruct (Hadv _ _ Hx) as (x' & Hx' & _). apply lookup_lt_Some in Hx'. lia.
Qed.

Lemma nodes_only_advance_witness :
  sounds (run initial reading_trace) 0 = true /\
  exists n', nodes (run (run initial reading_trace) [FlipCard; FlipCard]) !! 0%nat = Some n' /\
             node_state n' = Stopped.
Proof.
  split; [reflexivity|].
  destruct (nodes_only_advance (run initial reading_trace) [FlipCard; FlipCard] 0
              (mkNode FlashcardTsx 1 true
                 (mkAudioBuffer 1 3 24000 [[1 # 32768; -2 # 32768; 32767 # 32768]%Q]) Playing))
    as (n' & Hn' & _); [reflexivity|].
  exists n'. split; [done|]. vm_compute in Hn'. by injection Hn' as <-.
Defined.

(** The 'ended' event of a node is handled once: a second dispatch changes
    nothing. *)
Theorem source_ended_once s w : source_ended s (source_ended s w) = source_ended s w.
Proof.
  pose proof (source_ended_spec s w) as Hs.
  destruct (nodes w !! s) as [n|] eqn:Hn; [|by rewrite !Hs].
  case_decide as He; [by rewrite !Hs|].
  destruct Hs as (Hnodes & _).
  pose proof (source_ended_spec s (source_ended s w)) as Hs2.
  rewrite Hnodes, list_lookup_insert_eq in Hs2 by (by eapply lookup_lt_Some).
  by rewrite decide_True in Hs2.
Qed.

(** *** Each file only ever handles its own nodes *)

Lemma current_owned_prim w w' : prim w w' -> current_owned w -> current_owned w'.
Proof.
  intros Hp Hw. pose proof (nodes_advance_prim _ _ Hp) as Hadv.
  assert (forall m s, currentSource w m = Some s ->
            exists n, nodes w' !! s = Some n /\ node_module n = m) as Hold.
  { intros m s Hc. destruct (Hw _ _ Hc) as (n & Hn & Hm).
    destruct (Hadv _ _ Hn) as (n' & Hn' & (Hm' & _)). exists n'. split; [done|congruence]. }
  destruct Hp as [m w|m inst g v w w' r Hp|s w|w w' Hn Hc].
  - intros m' s Hc. unfold stopAudio in Hc |- *. destruct (currentSource w m) as [c|] eqn:Hcm.
    + cbn in Hc. destruct (decide (m = m')) as [<-|Hne].
      * by rewrite fn_lookup_insert in Hc.
      * rewrite fn_lookup_insert_ne in Hc by done. apply Hold in Hc.
        unfold stopAudio in Hc. by rewrite Hcm in Hc.
    + by apply Hw.
  - pose proof (playAudio_spec m inst g v w) as (Hs & _). rewrite Hp in Hs. cbn [fst snd] in Hs.
    intros m' s Hc. destruct (decode_payload (ToString v)) as [buffer|err].
    + destruct Hs as (_ & Hn & Hcs). rewrite Hcs in Hc.
      destruct (decide (m = m')) as [<-|Hne].
      * rewrite fn_lookup_insert in Hc. injection Hc as <-. rewrite Hn.
        exists (mkNode m inst g buffer Playing). split; [|done].
        assert (length (nodes (match currentSource w m with
                               | Some s => stop_node s w | None => w end)) = length (nodes w)) as <-.
        { destruct (currentSource w m); [|done]. unfold stop_node. cbn. apply length_alter. }
        by rewrite lookup_app_r, Nat.sub_diag.
      * rewrite fn_lookup_insert_ne in Hc by done. by apply Hold.
    + destruct Hs as (_ & _ & Hcs). rewrite Hcs in Hc. by apply Hold.
  - pose proof (source_ended_spec s w) as Hs.
    destruct (nodes w !! s) as [n|] eqn:Hn; [|by rewrite Hs].
    case_decide; [by rewrite Hs|]. destruct Hs as (_ & Hcs & _).
    intros m' c Hc. rewrite Hcs in Hc. case_decide.
    + destruct (decide (node_module n = m')) as [<-|Hne].
      * by rewrite fn_lookup_insert in Hc.
      * rewrite fn_lookup_insert_ne in Hc by done. by apply Hold.
    + by apply Hold.
  - intros m s Hcs. rewrite Hc in Hcs. by apply Hold.
Qed.

Lemma current_owned_steps w w' : rtc prim w w' -> current_owned w -> current_owned w'.
Proof. induction 1; eauto using current_owned_prim. Qed.

Lemma reachable_current_owned w : reachable w -> current_owned w.
Proof.
  intros [trace ->]. eapply current_owned_steps; [apply run_prims|]. by intros m s.
Qed.

(** X5: the audio utilities of one file never touch a source made by another
    file: neither its [stopAudio] nor its [playAudio] silences it. *)
Theorem other_files_keep_sounding w m s n :
  reachable w ->
  nodes w !! s = Some n ->
  node_module n <> m ->
  sounds (stopAudio m w) s = sounds w s /\
  forall inst generated v, sounds (fst (playAudio m inst generated v w)) s = sounds w s.
Proof.
  intros Hr Hn Hm. apply reachable_current_owned in Hr.
  assert (sounds (match currentSource w m with
                  | Some c => stop_node c w | None => w end) s = sounds w s) as H0.
  { destruct (currentSource w m) as [c|] eqn:Hc; [|done].
    rewrite sounds_stop_node. destruct (Hr _ _ Hc) as (nc & Hnc & Hmc).
    rewrite bool_decide_eq_false_2; [apply andb_true_r|]. intros ->. congruence. }
  split.
  - unfold stopAudio. destruct (currentSource w m) as [c|] eqn:Hc; [|done].
    rewrite <- H0. unfold sounds. done.
  - intros inst generated v.
    pose proof (playAudio_spec m inst generated v w) as (Hs & _).
    rewrite <- H0. unfold sounds at 1 2.
    assert (s < length (nodes (match currentSource w m with
                               | Some c => stop_node c w | None => w end)))%nat as Hlt.
    { apply lookup_lt_Some in Hn. destruct (currentSource w m); [|done].
      unfold stop_node. cbn. by rewrite length_alter. }
    destruct (decode_payload (ToString v)); destruct Hs as (_ & -> & _); [|done].
    by rewrite lookup_app_l.
Qed.

Lemma other_files_keep_sounding_witness :
  sounds (run initial overlap_trace) 0 = true /\
  sounds (stopAudio StudyInterfaceTsx (run initial overlap_trace)) 0 = true.
Proof.
  split; [reflexivity|].
  refine (eq_trans (proj1 (other_files_keep_sounding (run initial overlap_trace)
            StudyInterfaceTsx 0 (mkNode FlashcardTsx 1 true
               (mkAudioBuffer 1 3 24000 [[1 # 32768; -2 # 32768; 32767 # 32768]%Q]) Playing)
            _ _ _)) _).
  - by eexists.
  - reflexivity.
  - discriminate.
  - reflexivity.
Defined.

Lemma reader_module_frame w w' : panel w' = panel w -> reader_module w' = reader_module w.
Proof. unfold reader_module, mounted_reader. by intros ->. Qed.

Lemma reader_module_setFlashcard inst f w :
  reader_module (setFlashcard inst f w) = reader_module w.
Proof.
  unfold setFlashcard, reader_module, mounted_reader.
  destruct (panel w) as [[?|fs|?|?]|] eqn:Hp; rewrite ?Hp; try done.
  destruct (fc_inst fs =? inst)%nat; cbn; rewrite ?Hp; done.
Qed.

Lemma reader_module_setReader m inst f w :
  reader_module (setReader m inst f w) = reader_module w.
Proof.
  unfold setReader, reader_module, mounted_reader.
  destruct m, (panel w) as [[r|?|r|?]|] eqn:Hp; rewrite ?Hp; try done;
    destruct (rd_inst r =? inst)%nat; cbn; rewrite ?Hp; done.
Qed.

Lemma reader_module_stopAudio m w : reader_module (stopAudio m w) = reader_module w.
Proof. unfold stopAudio. by case_match. Qed.

Lemma reader_module_playAudio m inst generated v w w' r :
  playAudio m inst generated v w = (w', r) -> reader_module w' = reader_module w.
Proof.
  intros Hp. apply reader_module_frame.
  pose proof (playAudio_spec m inst generated v w) as (_ & _ & Hs & _).
  by rewrite Hp in Hs.
Qed.

Lemma reader_module_request_speech m i t w :
  reader_module (request_speech m i t w) = reader_module w.
Proof. done. Qed.

Ltac reader_step :=
  first
    [ rewrite reader_module_setFlashcard
    | rewrite reader_module_request_speech
    | rewrite reader_module_setReader
    | rewrite reader_module_stopAudio
    | match goal with
      | H : playAudio _ _ _ _ ?w = (?w', _) |- context [reader_module ?w'] =>
          rewrite (reader_module_playAudio _ _ _ _ _ _ _ H)
      end ].

Lemma reader_module_update_flashcard inst f w :
  reader_module (update_flashcard inst f w) = reader_module w.
Proof.
  unfold update_flashcard, flashcard_effect.
  destruct (panel w) as [[?|fs|?|?]|] eqn:Hp; try done.
  repeat case_match; repeat reader_step; unfold reader_module, mounted_reader; cbn; by rewrite Hp.
Qed.

Lemma reader_module_source_ended s w : reader_module (source_ended s w) = reader_module w.
Proof.
  unfold source_ended, onended, onEnd, setIsGeneratingSpeech.
  repeat (case_match; simplify_eq); repeat reader_step; done.
Qed.

Lemma render_leaves_reader old w m :
  reader_module w = Some m ->
  reader_module (render old w) = Some m \/ currentSource (render old w) m = None.
Proof.
  intros Hm. unfold render. case_decide as Hsame.
  - left. destruct (panel w) as [[rs|?|?|?]|] eqn:Hp; try done.
    case_bool_decide; [done|]. by rewrite !reader_module_setReader, reader_module_stopAudio.
  - right. unfold reader_module, mounted_reader in Hm.
    assert (currentSource (unmount w) m = None /\ panel (unmount w) = None) as [Hc Hpn].
    { unfold unmount. destruct (panel w) as [[rs|?|rs|?]|]; try done; injection Hm as <-;
        (split; [apply stopAudio_currentSource|done]). }
    destruct (rendered (study w)) as [t|]; [|done].
    assert (forall v, currentSource (stopAudio FlashcardTsx (set_next_inst v (unmount w))) m = None)
      as Hflash.
    { intros v. unfold stopAudio.
      destruct (currentSource (set_next_inst v (unmount w)) FlashcardTsx) eqn:Hf; [|done].
      cbn. destruct (decide (FlashcardTsx = m)) as [<-|Hne]; [apply fn_lookup_insert|].
      by rewrite fn_lookup_insert_ne. }
    assert (forall v, currentSource (stopAudio StudyInterfaceTsx (set_next_inst v (unmount w))) m = None)
      as Hsum.
    { intros v. unfold stopAudio.
      destruct (currentSource (set_next_inst v (unmount w)) StudyInterfaceTsx) eqn:Hf; [|done].
      cbn. destruct (decide (StudyInterfaceTsx = m)) as [<-|Hne]; [apply fn_lookup_insert|].
      by rewrite fn_lookup_insert_ne. }
    unfold mount. destruct t; cbn [currentSource set_panel]; auto.
Qed.

Lemma step_leaves_reader w e m :
  reader_module w = Some m ->
  reader_module (step w e) = Some m \/ currentSource (step w e) m = None.
Proof.
  intros Hm.
  assert (forall f, reader_module (update_study f w) = Some m \/
                    currentSource (update_study f w) m = None) as Hstudy.
  { intros f. unfold update_study. by apply render_leaves_reader. }
  destruct e; cbn [step].
  - unfold handleToolSelect. repeat case_match; auto.
  - apply Hstudy.
  - left. rewrite <- Hm. unfold handlePlayAudio.
    repeat (case_match; simplify_eq); cbn [fst]; repeat reader_step; done.
  - left. rewrite <- Hm. unfold flipCard. case_match; [apply reader_module_update_flashcard|done].
  - left. rewrite <- Hm. unfold goToNextCard.
    repeat case_match; try done; apply reader_module_update_flashcard.
  - left. rewrite <- Hm. unfold goToPrevCard.
    repeat case_match; try done; apply reader_module_update_flashcard.
  - left. rewrite <- Hm. unfold card_timer. cbv zeta. destruct (_ =? _)%nat; [done|].
    apply reader_module_update_flashcard.
  - left. rewrite <- Hm. unfold handlePlay.
    repeat (case_match; simplify_eq); cbn [fst]; repeat reader_step; done.
  - left. rewrite <- Hm. unfold handleExplain. repeat case_match; repeat reader_step; done.
  - left. rewrite <- Hm. unfold explained. repeat case_match; repeat reader_step; done.
  - left. rewrite <- Hm. unfold speech_settled, flashcard_speech_settled, reader_speech_settled.
    repeat (case_match; simplify_eq); repeat reader_step; done.
  - left. rewrite <- Hm. apply reader_module_source_ended.
Qed.

(** X7: leaving the summary panel or the concept explainer stops its audio: when
    an event takes the panel off the screen, its file holds no current
    source afterwards and none of the nodes it made sounds. *)
Theorem leaving_reader_stops_audio w e m :
  reachable w ->
  reader_module w = Some m ->
  reader_module (step w e) <> Some m ->
  currentSource (step w e) m = None /\
  forall s n, nodes (step w e) !! s = Some n -> node_module n = m -> is_playing n = false.
Proof.
  intros Hr Hm Hleft.
  destruct (step_leaves_reader w e m Hm) as [|Hc]; [done|]. split; [done|].
  intros s n Hn Hmod. destruct (is_playing n) eqn:Hp; [|done].
  assert (one_per_file (step w e)) as Hinv.
  { apply one_per_file_step. by apply reachable_one_per_file. }
  specialize (Hinv _ _ Hn Hp). congruence.
Qed.

Lemma panel_stopAudio m w : panel (stopAudio m w) = panel w.
Proof. unfold stopAudio. by case_match. Qed.

Lemma study_stopAudio m w : study (stopAudio m w) = study w.
Proof. unfold stopAudio. by case_match. Qed.

Lemma study_setFlashcard inst f w : study (setFlashcard inst f w) = study w.
Proof. unfold setFlashcard. by repeat case_match. Qed.

Lemma setFlashcard_mounted inst f w fs :
  mounted_flashcard w = Some fs -> fc_inst fs = inst ->
  setFlashcard inst f w = set_panel (Some (FlashcardPanel (f fs))) w.
Proof.
  unfold mounted_flashcard, setFlashcard. intros Hm <-.
  destruct (panel w) as [[?|fs0|?|?]|]; try done. injection Hm as ->.
  by rewrite Nat.eqb_refl.
Qed.

(** *** Moving through the cards *)

Lemma update_flashcard_mounted inst f w fs :
  mounted_flashcard w = Some fs -> fc_inst fs = inst -> fc_inst (f fs) = inst ->
  study (update_flashcard inst f w) = study w /\
  exists fs', mounted_flashcard (update_flashcard inst f w) = Some fs' /\
    fc_inst fs' = inst /\ currentIndex fs' = currentIndex (f fs) /\
    isFlipped fs' = isFlipped (f fs).
Proof.
  intros Hm Hi Hfi. unfold update_flashcard. unfold mounted_flashcard in Hm.
  destruct (panel w) as [[?|fs0|?|?]|] eqn:Hp; try done. injection Hm as ->.
  rewrite Hi, Nat.eqb_refl. case_bool_decide.
  - split; [done|]. unfold mounted_flashcard. cbn. by eexists.
  - unfold flashcard_effect. split; [by rewrite study_setFlashcard, study_stopAudio|].
    erewrite setFlashcard_mounted; [| |exact Hfi].
    2:{ unfold mounted_flashcard. by rewrite panel_stopAudio. }
    unfold mounted_flashcard. cbn. by eexists.
Qed.

Lemma card_timer_mounted forward w fs :
  mounted_flashcard w = Some fs ->
  (0 < length (flashcards (study w)))%nat ->
  study (card_timer (fc_inst fs) forward w) = study w /\
  exists fs', mounted_flashcard (card_timer (fc_inst fs) forward w) = Some fs' /\
    fc_inst fs' = fc_inst fs /\ isFlipped fs' = isFlipped fs /\
    currentIndex fs' =
      (if forward then (currentIndex fs + 1) mod length (flashcards (study w))
       else (currentIndex fs + length (flashcards (study w)) - 1)
              mod length (flashcards (study w)))%nat.
Proof.
  intros Hm Hlen. unfold card_timer. cbv zeta.
  assert ((length (flashcards (study w)) =? 0)%nat = false) as -> by (apply Nat.eqb_neq; lia).
  edestruct (update_flashcard_mounted (fc_inst fs)) as (Hs & fs' & Hm' & Hi & Hc & Hf);
    [exact Hm|done| |split; [exact Hs|exists fs'; repeat split; [exact Hm'|exact Hi|exact Hf|exact Hc]]].
  done.
Qed.

(** X16: the card timers cycle through the deck: forward [k] times from card [i]
    shows card [(i + k) mod n], so [n] times forward comes back to the same
    card; and one step back undoes one step forward. *)
Theorem card_navigation w fs (k : nat) :
  mounted_flashcard w = Some fs ->
  (currentIndex fs < length (flashcards (study w)))%nat ->
  (exists fs', mounted_flashcard (Nat.iter k (card_timer (fc_inst fs) true) w) = Some fs' /\
     currentIndex fs' = ((currentIndex fs + k) mod length (flashcards (study w)))%nat) /\
  (exists fs', mounted_flashcard (card_timer (fc_inst fs) false
                                    (card_timer (fc_inst fs) true w)) = Some fs' /\
     currentIndex fs' = currentIndex fs).
Proof.
  intros Hm Hlt. set (n := length (flashcards (study w))) in *. split.
  - assert (study (Nat.iter k (card_timer (fc_inst fs) true) w) = study w /\
            exists fs', mounted_flashcard (Nat.iter k (card_timer (fc_inst fs) true) w) = Some fs' /\
              fc_inst fs' = fc_inst fs /\
              currentIndex fs' = ((currentIndex fs + k) mod n)%nat) as (_ & fs' & ? & _ & ?);
      [|by exists fs'].
    induction k as [|k (Hs & fs1 & Hm1 & Hi1 & Hc1)].
    + split; [done|]. exists fs. split; [done|]. split; [done|].
      rewrite Nat.add_0_r. symmetry. by apply Nat.mod_small.
    + change (Nat.iter (S k) ?f ?x) with (f (Nat.iter k f x)).
      destruct (card_timer_mounted true _ fs1 Hm1) as (Hs2 & fs2 & Hm2 & Hi2 & _ & Hc2);
        [rewrite Hs; fold n; lia|].
      rewrite Hi1 in Hs2, Hm2.
      split; [congruence|]. exists fs2. split; [done|]. split; [congruence|].
      rewrite Hc2, Hc1, Hs. fold n.
      rewrite Nat.Div0.add_mod_idemp_l. f_equal. lia.
  - destruct (card_timer_mounted true w fs Hm) as (Hs1 & fs1 & Hm1 & Hi1 & _ & Hc1); [fold n; lia|].
    destruct (card_timer_mounted false _ fs1 Hm1) as (Hs2 & fs2 & Hm2 & Hi2 & _ & Hc2);
      [rewrite Hs1; fold n; lia|].
    rewrite Hi1 in Hm2.
    exists fs2. split; [done|]. rewrite Hc2, Hc1, Hs1. fold n.
    destruct (decide (currentIndex fs + 1 = n)%nat) as [He|Hne].
    + rewrite He, Nat.Div0.mod_same. cbn [Nat.add].
      rewrite Nat.mod_small by lia. lia.
    + rewrite (Nat.mod_small (currentIndex fs + 1)%nat) by lia.
      replace (currentIndex fs + 1 + n - 1)%nat with (currentIndex fs + 1 * n)%nat by lia.
      rewrite Nat.Div0.mod_add. by apply Nat.mod_small.
Qed.

(** *** Synthesis that fails, payloads that do not decode *)

Lemma mounted_setFlashcard inst f w fs :
  mounted_flashcard w = Some fs -> fc_inst fs = inst ->
  mounted_flashcard (setFlashcard inst f w) = Some (f fs).
Proof.
  intros Hm Hi. by rewrite (setFlashcard_mounted inst f w fs).
Qed.

Lemma mounted_playAudio m inst g v w :
  mounted_flashcard (fst (playAudio m inst g v w)) = mounted_flashcard w.
Proof.
  unfold mounted_flashcard.
  by destruct (playAudio_spec m inst g v w) as (_ & _ & -> & _).
Qed.

(** X15: when the synthesis call fails nothing is stored and nothing is decoded
    or played; the panel is idle again, and asking for the same text once
    more issues a new synthesis request. *)
Theorem failed_synthesis_is_retried w fs T response :
  mounted_flashcard w = Some fs ->
  object_get (audioCache fs) T = None ->
  currentlyPlaying fs = None ->
  generateSpeech response = Throw SynthesisError ->
  let w1 := flashcard_speech_settled (fc_inst fs) T response w in
  mounted_flashcard w1 = Some (fc_setIsGeneratingSpeech false fs) /\
  same_audio w w1 /\
  requests (fst (handlePlayAudio T w1)) =
    requests w ++ [mkRequest FlashcardTsx (fc_inst fs) T false].
Proof.
  intros Hm Hc Hp Hg w1. subst w1. unfold flashcard_speech_settled. rewrite Hg.
  set (w1 := setFlashcard _ _ (setFlashcard _ _ w)).
  assert (mounted_flashcard w1 = Some (fc_setIsGeneratingSpeech false fs)) as Hm1.
  { subst w1. erewrite mounted_setFlashcard; [|by apply mounted_setFlashcard|done].
    destruct fs. cbn in Hp. by subst. }
  assert (same_audio w w1) as Hs.
  { subst w1. eapply same_audio_trans; apply same_audio_setFlashcard. }
  split; [done|]. split; [done|].
  unfold handlePlayAudio. unfold mounted_flashcard in Hm1.
  destruct (panel w1) as [[?|fs1|?|?]|] eqn:Hp1; try done. injection Hm1 as ->.
  cbn [currentlyPlaying fc_setIsGeneratingSpeech audioCache fc_inst]. rewrite Hp, Hc.
  cbn [fst request_speech requests set_requests].
  destruct (same_audio_setFlashcard (fc_inst fs) (fc_setIsGeneratingSpeech true) w1) as (_ & _ & -> & _).
  by destruct Hs as (_ & _ & -> & _).
Qed.

Lemma failed_synthesis_is_retried_witness :
  requests (fst (handlePlayAudio (js "Mitosis")
                   (flashcard_speech_settled 1 (js "Mitosis") None (run initial pending_trace)))) =
  requests (run initial pending_trace) ++ [mkRequest FlashcardTsx 1 (js "Mitosis") false].
Proof.
  refine (proj2 (proj2 (failed_synthesis_is_retried (run initial pending_trace)
            (mkFlashcardState 1 0 false ∅ true None) (js "Mitosis") None _ _ _ _)));
    reflexivity.
Defined.

(** X14: a payload that was synthesized but does not decode is stored in the
    cache all the same.  The failure is caught and the panel is idle again;
    but asking for the same text once more takes the payload from the cache,
    issues no new synthesis request, fails again in [playAudio], this time
    uncaught, and leaves the text marked as playing although no source was
    made. *)
Theorem undecodable_payload_stays_cached w fs T p e :
  mounted_flashcard w = Some fs ->
  currentlyPlaying fs = None ->
  nonempty p = true ->
  decode_payload p = Throw e ->
  let w1 := flashcard_speech_settled (fc_inst fs) T (Some p) w in
  let w2 := handlePlayAudio T w1 in
  (exists fs1, mounted_flashcard w1 = Some fs1 /\ audioCache fs1 !! T = Some p /\
     currentlyPlaying fs1 = None /\ fc_isGeneratingSpeech fs1 = false) /\
  snd w2 = Throw e /\
  playing_text (fst w2) = Some (Some T) /\
  requests (fst w2) = requests w /\
  length (nodes (fst w2)) = length (nodes w).
Proof.
  intros Hm Hp Hne Hd w1 w2.
  assert (forall m inst g w0, snd (playAudio m inst g (VString p) w0) = Throw e /\
            length (nodes (fst (playAudio m inst g (VString p) w0))) = length (nodes w0) /\
            requests (fst (playAudio m inst g (VString p) w0)) = requests w0) as Hplay.
  { intros m inst g w0. pose proof (playAudio_spec m inst g (VString p) w0) as Hs.
    cbn [ToString] in Hs. rewrite Hd in Hs. destruct Hs as ((-> & -> & _) & -> & _).
    split; [done|]. split; [|done].
    destruct (currentSource w0 m); [|done]. unfold stop_node. cbn. apply length_alter. }
  set (fa := fc_setCurrentlyPlaying (Some T) (fc_setAudioCache T p fs)).
  set (wa := setFlashcard (fc_inst fs) (fc_setCurrentlyPlaying (Some T))
               (setFlashcard (fc_inst fs) (fc_setAudioCache T p) w)).
  assert (mounted_flashcard wa = Some fa) as Hma.
  { subst wa fa. erewrite mounted_setFlashcard; [done|by apply mounted_setFlashcard|done]. }
  assert (same_audio w wa) as Hsa.
  { subst wa. eapply same_audio_trans; apply same_audio_setFlashcard. }
  set (fs1 := fc_setIsGeneratingSpeech false (fc_setCurrentlyPlaying None fa)).
  assert (w1 = setFlashcard (fc_inst fs) (fc_setIsGeneratingSpeech false)
                 (setFlashcard (fc_inst fs) (fc_setCurrentlyPlaying None)
                    (fst (playAudio FlashcardTsx (fc_inst fs) true (VString p) wa)))) as Hw1.
  { subst w1. unfold flashcard_speech_settled, generateSpeech. rewrite Hne. fold wa.
    destruct (Hplay FlashcardTsx (fc_inst fs) true wa) as (Hr & _).
    destruct (playAudio FlashcardTsx (fc_inst fs) true (VString p) wa) as [wb r].
    cbn in Hr. by subst r. }
  assert (mounted_flashcard w1 = Some fs1) as Hm1.
  { rewrite Hw1. subst fs1. erewrite mounted_setFlashcard; [done| |done].
    erewrite mounted_setFlashcard; [done| |done]. by rewrite mounted_playAudio. }
  assert (requests w1 = requests w /\ length (nodes w1) = length (nodes w)) as (Hrq & Hlen).
  { rewrite Hw1.
    destruct (same_audio_setFlashcard (fc_inst fs) (fc_setIsGeneratingSpeech false)
                (setFlashcard (fc_inst fs) (fc_setCurrentlyPlaying None)
                   (fst (playAudio FlashcardTsx (fc_inst fs) true (VString p) wa))))
      as (-> & _ & -> & _).
    destruct (same_audio_setFlashcard (fc_inst fs) (fc_setCurrentlyPlaying None)
                (fst (playAudio FlashcardTsx (fc_inst fs) true (VString p) wa)))
      as (-> & _ & -> & _).
    destruct (Hplay FlashcardTsx (fc_inst fs) true wa) as (_ & -> & ->).
    destruct Hsa as (-> & _ & -> & _). done. }
  split.
  { exists fs1. split; [done|]. subst fs1 fa. cbn. by rewrite lookup_insert_eq. }
  clear Hw1. subst w2. unfold handlePlayAudio.
  pose proof Hm1 as Hpanel. unfold mounted_flashcard in Hpanel.
  destruct (panel w1) as [[?|f1|?|?]|] eqn:Hp1; try done. injection Hpanel as ->.
  assert (currentlyPlaying fs1 = None) as -> by done.
  assert (object_get (audioCache fs1) T = Some (VString p)) as ->.
  { unfold object_get. subst fs1 fa. cbn. by rewrite lookup_insert_eq. }
  assert (ToBoolean (VString p) = true) as -> by (by destruct p).
  assert (fc_inst fs1 = fc_inst fs) as -> by done.
  set (wc := setFlashcard (fc_inst fs) (fc_setCurrentlyPlaying (Some T)) w1).
  assert (mounted_flashcard wc = Some (fc_setCurrentlyPlaying (Some T) fs1)) as Hmc.
  { subst wc. by apply mounted_setFlashcard. }
  destruct (same_audio_setFlashcard (fc_inst fs) (fc_setCurrentlyPlaying (Some T)) w1)
    as (Hn & _ & Hq & _). fold wc in Hn, Hq.
  destruct (Hplay FlashcardTsx (fc_inst fs) false wc) as (Hr & Hl & Hrq').
  pose proof (mounted_playAudio FlashcardTsx (fc_inst fs) false (VString p) wc) as Hmp.
  destruct (playAudio FlashcardTsx (fc_inst fs) false (VString p) wc) as [wd r].
  cbn [fst snd] in *. subst r. split; [done|]. split.
  { unfold playing_text. by rewrite Hmp, Hmc. }
  split; congruence.
Qed.

Lemma undecodable_payload_stays_cached_witness :
  snd (handlePlayAudio (js "Mitosis")
         (flashcard_speech_settled 1 (js "Mitosis") (Some half_sample)
            (run initial pending_trace))) = Throw RangeError.
Proof.
  refine (proj1 (proj2 (undecodable_payload_stays_cached (run initial pending_trace)
            (mkFlashcardState 1 0 false ∅ true None) (js "Mitosis") half_sample RangeError
            _ _ _ _)));
    reflexivity.
Defined.

(** *** The concept explainer *)

Lemma idle_frame w w' :
  explainer_of w' = explainer_of w ->
  currentSource w' ConceptExplainerTsx = currentSource w ConceptExplainerTsx ->
  requests w' = requests w ->
  explainer_idle w -> explainer_idle w'.
Proof.
  unfold explainer_idle, no_pending_explainer_speech. intros -> -> ->. done.
Qed.

Lemma idle_setFlashcard inst f w : explainer_idle w -> explainer_idle (setFlashcard inst f w).
Proof.
  apply idle_frame.
  - unfold setFlashcard, explainer_of.
    destruct (panel w) as [[?|fs|?|?]|] eqn:Hp; rewrite ?Hp; try done.
    destruct (fc_inst fs =? inst)%nat; cbn; rewrite ?Hp; done.
  - by destruct (same_audio_setFlashcard inst f w) as (_ & -> & _).
  - by destruct (same_audio_setFlashcard inst f w) as (_ & _ & -> & _).
Qed.

Lemma idle_setReader m inst f w :
  (m = ConceptExplainerTsx -> forall rs, idle_state rs -> idle_state (f rs)) ->
  explainer_idle w -> explainer_idle (setReader m inst f w).
Proof.
  intros Hf (Ha & Hc & Hr).
  destruct (same_audio_setReader m inst f w) as (_ & Hcs & Hrq & _).
  split; [|split; [by rewrite Hcs|by unfold no_pending_explainer_speech; rewrite Hrq]].
  unfold setReader, explainer_of in *.
  destruct m, (panel w) as [[r|?|r|?]|] eqn:Hp; rewrite ?Hp; try done;
    destruct (rd_inst r =? inst)%nat; cbn; rewrite ?Hp; try done.
  intros rs [= <-]. apply Hf; [done|]. by apply Ha.
Qed.

Lemma idle_stopAudio m w : explainer_idle w -> explainer_idle (stopAudio m w).
Proof.
  intros (Ha & Hc & Hr). destruct (stopAudio_spec m w) as (Hrq & _ & Hp & _).
  split; [|split].
  - unfold explainer_of. by rewrite Hp.
  - destruct (decide (m = ConceptExplainerTsx)) as [->|Hne]; [apply stopAudio_currentSource|].
    unfold stopAudio. destruct (currentSource w m); [|done]. cbn.
    by rewrite fn_lookup_insert_ne.
  - unfold no_pending_explainer_speech. by rewrite Hrq.
Qed.

Lemma idle_playAudio m inst g v w :
  m <> ConceptExplainerTsx ->
  explainer_idle w -> explainer_idle (fst (playAudio m inst g v w)).
Proof.
  intros Hne (Ha & Hc & Hr).
  destruct (playAudio_spec m inst g v w) as (Hs & Hrq & Hp & _).
  split; [|split].
  - unfold explainer_of. by rewrite Hp.
  - destruct (decode_payload (ToString v)).
    + destruct Hs as (_ & _ & ->). by rewrite fn_lookup_insert_ne.
    + by destruct Hs as (_ & _ & ->).
  - unfold no_pending_explainer_speech. by rewrite Hrq.
Qed.

Lemma idle_request_speech m inst text w :
  m <> ConceptExplainerTsx ->
  explainer_idle w -> explainer_idle (request_speech m inst text w).
Proof.
  intros Hne (Ha & Hc & Hr). split; [done|]. split; [done|].
  unfold no_pending_explainer_speech, request_speech. cbn.
  apply Forall_app. split; [done|]. by repeat constructor.
Qed.

Lemma idle_set_panel p w :
  (forall rs, p = Some (ExplainerPanel rs) -> idle_state rs) ->
  explainer_idle w -> explainer_idle (set_panel p w).
Proof.
  intros Hp (Ha & Hc & Hr). split; [|done].
  unfold explainer_of. cbn. intros rs. destruct p as [[]|]; try done.
  intros [= <-]. by apply Hp.
Qed.

Lemma idle_set_study v w : explainer_idle w -> explainer_idle (set_study v w).
Proof. done. Qed.

Lemma idle_set_next_inst v w : explainer_idle w -> explainer_idle (set_next_inst v w).
Proof. done. Qed.

Lemma idle_fresh inst : idle_state (mkReaderState inst [] false false None).
Proof. done. Qed.

Lemma idle_update_flashcard inst f w :
  explainer_idle w -> explainer_idle (update_flashcard inst f w).
Proof.
  intros H. unfold update_flashcard, flashcard_effect.
  destruct (panel w) as [[?|fs|?|?]|] eqn:Hp; try done.
  destruct (fc_inst fs =? inst)%nat; [|done].
  case_bool_decide.
  - by apply idle_set_panel.
  - apply idle_setFlashcard, idle_stopAudio. by apply idle_set_panel.
Qed.

Lemma idle_unmount w : explainer_idle w -> explainer_idle (unmount w).
Proof.
  intros H. unfold unmount.
  destruct (panel w) as [[]|]; apply idle_set_panel; try done; by apply idle_stopAudio.
Qed.

Lemma idle_mount t w : explainer_idle w -> explainer_idle (mount t w).
Proof.
  intros H. unfold mount. cbv zeta.
  destruct t; apply idle_set_panel; try done;
    try apply idle_stopAudio; try apply idle_set_next_inst; try done.
  intros rs [= <-]. apply idle_fresh.
Qed.

Lemma idle_render old w : explainer_idle w -> explainer_idle (render old w).
Proof.
  intros H. unfold render. cbv zeta. case_decide.
  - destruct (panel w) as [[rs|?|?|?]|]; try done.
    case_bool_decide; [done|].
    repeat (apply idle_setReader; [done|]). by apply idle_stopAudio.
  - destruct (rendered (study w)); [apply idle_mount|]; by apply idle_unmount.
Qed.

Lemma idle_update_study f w : explainer_idle w -> explainer_idle (update_study f w).
Proof. intros H. unfold update_study. by apply idle_render, idle_set_study. Qed.

Lemma idle_handlePlayAudio text w :
  explainer_idle w -> explainer_idle (fst (handlePlayAudio text w)).
Proof.
  intros H. unfold handlePlayAudio.
  destruct (panel w) as [[?|fs|?|?]|]; try done.
  assert (forall w0, explainer_idle w0 ->
            explainer_idle
              (fst (match object_get (audioCache fs) text with
                    | Some cached =>
                        if ToBoolean cached
                        then
                          let '(w1, r) :=
                            playAudio FlashcardTsx (fc_inst fs) false cached
                              (setFlashcard (fc_inst fs) (fc_setCurrentlyPlaying (Some text)) w0) in
                          (w1, let? _ := r in Ok tt)
                        else
                          (request_speech FlashcardTsx (fc_inst fs) text
                             (setFlashcard (fc_inst fs) (fc_setIsGeneratingSpeech true) w0), Ok tt)
                    | None =>
                        (request_speech FlashcardTsx (fc_inst fs) text
                           (setFlashcard (fc_inst fs) (fc_setIsGeneratingSpeech true) w0), Ok tt)
                    end))) as Hrest.
  { intros w0 H0.
    assert (explainer_idle (request_speech FlashcardTsx (fc_inst fs) text
              (setFlashcard (fc_inst fs) (fc_setIsGeneratingSpeech true) w0))) as Hgen.
    { apply idle_request_speech; [done|]. by apply idle_setFlashcard. }
    destruct (object_get (audioCache fs) text) as [cached|]; [|done].
    destruct (ToBoolean cached); [|done].
    pose proof (idle_playAudio FlashcardTsx (fc_inst fs) false cached
                  (setFlashcard (fc_inst fs) (fc_setCurrentlyPlaying (Some text)) w0)) as Hp.
    destruct (playAudio _ _ _ _ _) as [w1 r]. cbn [fst] in *.
    apply Hp; [done|]. by apply idle_setFlashcard. }
  cbv zeta.
  destruct (currentlyPlaying fs) as [playing|]; [|by apply Hrest].
  destruct (nonempty playing); [|by apply Hrest].
  case_bool_decide; cbn [fst].
  - by apply idle_setFlashcard, idle_stopAudio.
  - apply Hrest. by apply idle_setFlashcard, idle_stopAudio.
Qed.

Lemma idle_handlePlay w : explainer_idle w -> explainer_idle (fst (handlePlay w)).
Proof.
  intros H. unfold handlePlay, mounted_reader.
  destruct (panel w) as [[rs|?|rs|?]|] eqn:Hp; try done.
  - (* the summary panel *)
    cbv zeta. destruct (isPlaying rs).
    { cbn [fst]. apply idle_setReader; [done|]. by apply idle_stopAudio. }
    assert (explainer_idle (request_speech StudyInterfaceTsx (rd_inst rs) (summary (study w))
              (setReader StudyInterfaceTsx (rd_inst rs) (rd_setIsGeneratingSpeech true) w))) as Hgen.
    { apply idle_request_speech; [done|]. by apply idle_setReader. }
    destruct (audioDataRef rs) as [data|]; [|done].
    destruct (nonempty data); [|done].
    pose proof (idle_playAudio StudyInterfaceTsx (rd_inst rs) false (VString data)
                  (setReader StudyInterfaceTsx (rd_inst rs) (rd_setIsPlaying true) w)) as Hpl.
    destruct (playAudio _ _ _ _ _) as [w1 r]. cbn [fst] in *.
    apply Hpl; [done|]. by apply idle_setReader.
  - (* the explainer: idle, so nothing to play and nothing to ask for *)
    destruct H as (Ha & Hc & Hr).
    destruct (Ha rs) as (He & Hd & Hi); [unfold explainer_of; by rewrite Hp|].
    cbv zeta. rewrite Hi, Hd, He. done.
Qed.

Lemma idle_handleExplain w : explainer_idle w -> explainer_idle (handleExplain w).
Proof.
  intros H. unfold handleExplain.
  destruct (panel w) as [[?|?|rs|?]|]; try done.
  apply idle_setReader; [by intros _ ? (? & ? & ?)|].
  apply idle_setReader; [by intros _ ? (? & ? & ?)|].
  apply idle_stopAudio.
  apply idle_setReader; [by intros _ ? (? & ? & ?)|]. done.
Qed.

Lemma idle_speech_settled req response w :
  explainer_idle w -> explainer_idle (speech_settled req response w).
Proof.
  intros H. unfold speech_settled.
  destruct (requests w !! req) as [r|] eqn:Hr; [|done].
  destruct (sr_settled r) eqn:Hs; [done|].
  assert (sr_module r <> ConceptExplainerTsx) as Hm.
  { intros Hm. destruct H as (_ & _ & Hp).
    eapply Forall_lookup_1 in Hp; [|exact Hr]. rewrite Hp in Hs; done. }
  set (w0 := set_requests _ w).
  assert (explainer_idle w0) as H0.
  { destruct H as (Ha & Hc & Hp). split; [done|]. split; [done|].
    unfold no_pending_explainer_speech. subst w0. cbn [requests set_requests].
    apply Forall_insert; [done|]. done. }
  destruct (sr_module r) eqn:Hmod; [| |done].
  - unfold reader_speech_settled.
    assert (explainer_idle
              (setReader StudyInterfaceTsx (sr_inst r) (rd_setIsGeneratingSpeech false)
                 (setReader StudyInterfaceTsx (sr_inst r) (rd_setIsPlaying false) w0))) as Hfail
      by (by repeat (apply idle_setReader; [done|])).
    destruct (generateSpeech response) as [newAudioData|]; [|done].
    pose proof (idle_playAudio StudyInterfaceTsx (sr_inst r) true (VString newAudioData)
                  (setReader StudyInterfaceTsx (sr_inst r) (rd_setIsPlaying true)
                     (setReader StudyInterfaceTsx (sr_inst r)
                        (rd_setAudioDataRef (Some newAudioData)) w0))) as Hpl.
    destruct (playAudio _ _ _ _ _) as [w1 res]. cbn [fst] in *.
    assert (explainer_idle w1) as H1
      by (apply Hpl; [done|]; by repeat (apply idle_setReader; [done|])).
    destruct res; [done|]. by repeat (apply idle_setReader; [done|]).
  - unfold flashcard_speech_settled.
    assert (explainer_idle
              (setFlashcard (sr_inst r) (fc_setIsGeneratingSpeech false)
                 (setFlashcard (sr_inst r) (fc_setCurrentlyPlaying None) w0))) as Hfail
      by (by repeat apply idle_setFlashcard).
    destruct (generateSpeech response) as [audioData|]; [|done].
    pose proof (idle_playAudio FlashcardTsx (sr_inst r) true (VString audioData)
                  (setFlashcard (sr_inst r) (fc_setCurrentlyPlaying (Some (sr_text r)))
                     (setFlashcard (sr_inst r) (fc_setAudioCache (sr_text r) audioData) w0)))
      as Hpl.
    destruct (playAudio _ _ _ _ _) as [w1 res]. cbn [fst] in *.
    assert (explainer_idle w1) as H1
      by (apply Hpl; [done|]; by repeat apply idle_setFlashcard).
    destruct res; [done|]. by repeat apply idle_setFlashcard.
Qed.

Lemma idle_source_ended s w : explainer_idle w -> explainer_idle (source_ended s w).
Proof.
  intros H. unfold source_ended.
  destruct (nodes w !! s) as [n|] eqn:Hn; [|done].
  set (w0 := set_nodes _ w).
  assert (explainer_idle w0) as H0 by done.
  assert (nodes w0 !! s = Some (with_state Ended n)) as Hn0.
  { subst w0. cbn. apply list_lookup_insert_eq. by eapply lookup_lt_Some. }
  destruct (node_state n); try done; unfold onended; rewrite Hn0; cbv zeta;
    cbn [node_module node_inst node_generated with_state].
  all: set (w1 := if decide (currentSource w0 (node_module n) = Some s)
                  then set_currentSource (node_module n) None w0 else w0).
  all: assert (explainer_idle w1) as H1.
  all: try (subst w1; case_decide; [|done]; destruct H0 as (Ha & Hc & Hr);
            split; [done|]; split; [|done]; cbn;
            destruct (decide (node_module n = ConceptExplainerTsx)) as [->|Hne];
            [apply fn_lookup_insert|by rewrite fn_lookup_insert_ne]).
  all: assert (explainer_idle (onEnd (node_module n) (node_inst n) w1)) as H2
         by (unfold onEnd; destruct (node_module n);
             [apply idle_setReader; [by intros _ ? (? & ? & ?)|done]
             |by apply idle_setFlashcard
             |apply idle_setReader; [by intros _ ? (? & ? & ?)|done]]).
  all: destruct (node_generated n); [|done].
  all: unfold setIsGeneratingSpeech; destruct (node_module n);
         [apply idle_setReader; [by intros _ ? (? & ? & ?)|done]
         |by apply idle_setFlashcard
         |apply idle_setReader; [by intros _ ? (? & ? & ?)|done]].
Qed.

Lemma idle_step w e :
  is_explained e = false -> explainer_idle w -> explainer_idle (step w e).
Proof.
  intros He H. destruct e; cbn [step]; try done.
  - unfold handleToolSelect. cbv zeta. case_decide; [done|].
    destruct (match tool with Chat | ConceptExplainer => true | _ => _ end);
      by apply idle_update_study.
  - unfold generation_settled. by apply idle_update_study.
  - by apply idle_handlePlayAudio.
  - unfold flipCard. destruct (mounted_flashcard w); [|done]. by apply idle_update_flashcard.
  - unfold goToNextCard. destruct (mounted_flashcard w); [|done].
    destruct (_ =? _)%nat; [done|]. by apply idle_update_flashcard.
  - unfold goToPrevCard. destruct (mounted_flashcard w); [|done].
    destruct (_ =? _)%nat; [done|]. by apply idle_update_flashcard.
  - unfold card_timer. cbv zeta. destruct (_ =? _)%nat; [done|]. by apply idle_update_flashcard.
  - by apply idle_handlePlay.
  - by apply idle_handleExplain.
  - by apply idle_speech_settled.
  - by apply idle_source_ended.
Qed.

Lemma idle_run trace : forall w,
  Forall (fun e => is_explained e = false) trace ->
  explainer_idle w -> explainer_idle (run w trace).
Proof.
  induction trace as [|e trace IH]; intros w Hall H; [done|].
  inversion Hall; subst. cbn. apply IH; [done|]. by apply idle_step.
Qed.

Lemma handleExplain_idle w rs :
  panel w = Some (ExplainerPanel rs) ->
  no_pending_explainer_speech w ->
  explainer_idle (handleExplain w).
Proof.
  intros Hp Hr. unfold handleExplain. rewrite Hp.
  assert (forall f w0 r0, panel w0 = Some (ExplainerPanel r0) -> rd_inst r0 = rd_inst rs ->
            setReader ConceptExplainerTsx (rd_inst rs) f w0 =
            set_panel (Some (ExplainerPanel (f r0))) w0) as Hset.
  { intros f w0 r0 Hp0 Hi0. unfold setReader. by rewrite Hp0, Hi0, Nat.eqb_refl. }
  rewrite (Hset _ w rs) by done.
  set (wa := stopAudio ConceptExplainerTsx _).
  assert (panel wa = Some (ExplainerPanel (rd_setExplanation [] rs))) as Hpa.
  { subst wa. by rewrite panel_stopAudio. }
  assert (currentSource wa ConceptExplainerTsx = None) as Hca
    by apply stopAudio_currentSource.
  assert (requests wa = requests w) as Hra.
  { subst wa. by destruct (stopAudio_spec ConceptExplainerTsx
                             (set_panel (Some (ExplainerPanel (rd_setExplanation [] rs))) w))
      as (-> & _). }
  rewrite (Hset _ wa _ Hpa) by done.
  rewrite (Hset (rd_setAudioDataRef None) _ (rd_setIsPlaying false (rd_setExplanation [] rs)))
    by done.
  split; [|split].
  - unfold explainer_of. cbn. by intros ? [= <-].
  - done.
  - unfold no_pending_explainer_speech. cbn [requests set_panel].
    fold (requests wa). by rewrite Hra.
Qed.

(** X17: when no synthesis asked for by the explainer's file is pending as
    [handleExplain] starts, then whatever happens while the explanation is
    awaited, provided no other explanation arrives meanwhile: if the
    explainer that asked is still on the screen when its explanation
    arrives, it shows the new text with no stored audio and without
    playing, nothing of the explainer's file is the current source, and the
    next [handlePlay] asks the synthesis service for the new text and
    decodes nothing.  (With a synthesis pending the conclusion fails: X26.) *)
Theorem new_explanation_is_synthesized_anew w rs trace rs1 text :
  panel w = Some (ExplainerPanel rs) ->
  no_pending_explainer_speech w ->
  Forall (fun e => is_explained e = false) trace ->
  panel (run (handleExplain w) trace) = Some (ExplainerPanel rs1) ->
  rd_inst rs1 = rd_inst rs ->
  nonempty text = true ->
  currentSource (explained (rd_inst rs) (Some text) (run (handleExplain w) trace))
    ConceptExplainerTsx = None /\
  (exists rs2,
     panel (explained (rd_inst rs) (Some text) (run (handleExplain w) trace))
       = Some (ExplainerPanel rs2) /\
     audioDataRef rs2 = None /\ isPlaying rs2 = false /\ explanation rs2 = text) /\
  requests (fst (handlePlay (explained (rd_inst rs) (Some text) (run (handleExplain w) trace)))) =
    requests (run (handleExplain w) trace)
      ++ [mkRequest ConceptExplainerTsx (rd_inst rs) text false] /\
  decode_calls (fst (handlePlay (explained (rd_inst rs) (Some text)
                                   (run (handleExplain w) trace)))) =
    decode_calls (run (handleExplain w) trace).
Proof.
  intros Hp Hr Htrace Hp1 Hi Hne.
  pose proof (idle_run trace _ Htrace (handleExplain_idle w rs Hp Hr)) as (Ha & Hc & _).
  set (w1 := run (handleExplain w) trace) in *.
  destruct (Ha rs1) as (_ & Hd & Hpl); [unfold explainer_of; by rewrite Hp1|].
  assert (forall f w0 r0, panel w0 = Some (ExplainerPanel r0) -> rd_inst r0 = rd_inst rs ->
            setReader ConceptExplainerTsx (rd_inst rs) f w0 =
            set_panel (Some (ExplainerPanel (f r0))) w0) as Hset.
  { intros f w0 r0 Hp0 Hi0. unfold setReader. by rewrite Hp0, Hi0, Nat.eqb_refl. }
  unfold explained. rewrite (Hset _ w1 rs1) by done.
  set (rs2 := rd_setExplanation text rs1).
  set (w2 := set_panel (Some (ExplainerPanel rs2)) w1).
  split; [done|]. split; [by exists rs2|].
  unfold handlePlay, mounted_reader.
  assert (panel w2 = Some (ExplainerPanel rs2)) as -> by done.
  assert (isPlaying rs2 = false) as -> by done.
  assert (audioDataRef rs2 = None) as -> by done.
  assert (explanation rs2 = text) as -> by done.
  rewrite Hne. change (rd_inst rs2) with (rd_inst rs1). rewrite Hi.
  cbn [fst request_speech requests set_requests decode_calls].
  by rewrite (Hset _ w2 rs2) by done.
Qed.

Lemma new_explanation_is_synthesized_anew_witness :
  currentSource (explained 1 (Some (js "Cells split."))
                   (run (handleExplain (run initial explainer_trace))
                        [PlayReader; SourceEnded 0; SelectTool ConceptExplainer]))
    ConceptExplainerTsx = None.
Proof.
  refine (proj1 (new_explanation_is_synthesized_anew (run initial explainer_trace)
            (mkReaderState 1 (js "Cells divide.") true true (Some speech))
            [PlayReader; SourceEnded 0; SelectTool ConceptExplainer]
            (mkReaderState 1 [] false false None)
            (js "Cells split.") _ _ _ _ _ _)); try reflexivity.
  - repeat constructor.
  - repeat constructor.
Defined.

(** *** Examples for the earlier statements *)

Lemma leaving_reader_stops_audio_witness :
  currentSource (step (run initial summary_reading_trace) (SelectTool ConceptExplainer))
    StudyInterfaceTsx = None.
Proof.
  refine (proj1 (leaving_reader_stops_audio (run initial summary_reading_trace)
            (SelectTool ConceptExplainer) StudyInterfaceTsx _ _ _)).
  - by exists summary_reading_trace.
  - reflexivity.
  - vm_compute. discriminate.
Defined.

(** *** Speech that arrives late *)

Lemma played_after_setters m inst p buffer w w1 :
  decode_payload p = Ok buffer ->
  nodes w1 = nodes w -> currentSource w1 = currentSource w ->
  let w2 := fst (playAudio m inst true (VString p) w1) in
  snd (playAudio m inst true (VString p) w1) = Ok (length (nodes w)) /\
  nodes w2 !! length (nodes w) = Some (mkNode m inst true buffer Playing) /\
  currentSource w2 m = Some (length (nodes w)) /\
  length (nodes w2) = S (length (nodes w)).
Proof.
  intros Hd Hn Hc. cbv zeta.
  pose proof (playAudio_spec m inst true (VString p) w1) as Hs. cbn [ToString] in Hs.
  rewrite Hd in Hs. destruct Hs as ((-> & -> & ->) & _).
  set (w0 := match currentSource w1 m with Some s => stop_node s w1 | None => w1 end).
  assert (length (nodes w0) = length (nodes w)) as Hlen.
  { subst w0. rewrite <- Hn. destruct (currentSource w1 m); [|done].
    unfold stop_node. cbn. apply length_alter. }
  rewrite Hn. split; [done|]. split; [|split].
  - rewrite lookup_app_r by lia. by rewrite Hlen, Nat.sub_diag.
  - apply fn_lookup_insert.
  - rewrite length_app. cbn. lia.
Qed.

(** X8: a synthesis that succeeds with a payload that decodes is played when it
    arrives, whatever is on the screen by then: the continuation of the
    handler makes a source node for the file that asked and starts it, also
    when the component that asked is no longer mounted. *)
Theorem late_speech_is_played w req r p buffer :
  requests w !! req = Some r ->
  sr_settled r = false ->
  nonempty p = true ->
  decode_payload p = Ok buffer ->
  let w' := speech_settled req (Some p) w in
  nodes w' !! length (nodes w) = Some (mkNode (sr_module r) (sr_inst r) true buffer Playing) /\
  currentSource w' (sr_module r) = Some (length (nodes w)) /\
  length (nodes w') = S (length (nodes w)).
Proof.
  intros Hr Hs Hne Hd. cbv zeta. unfold speech_settled. rewrite Hr, Hs.
  set (w0 := set_requests _ w).
  assert (forall m inst (w1 : World) (k : World -> JSError -> World),
            nodes w1 = nodes w -> currentSource w1 = currentSource w ->
            let w2 := (let '(w2, res) := playAudio m inst true (VString p) w1 in
                       match res with Ok _ => w2 | Throw e => k w2 e end) in
            nodes w2 !! length (nodes w) = Some (mkNode m inst true buffer Playing) /\
            currentSource w2 m = Some (length (nodes w)) /\
            length (nodes w2) = S (length (nodes w))) as Hplay.
  { intros m inst w1 k Hn Hc.
    destruct (played_after_setters m inst p buffer w w1 Hd Hn Hc) as (Hres & Hrest).
    destruct (playAudio m inst true (VString p) w1) as [w2 res].
    cbn [fst snd] in *. by subst res. }
  assert (forall m f g, nodes (setReader m (sr_inst r) f (setReader m (sr_inst r) g w0)) = nodes w /\
            currentSource (setReader m (sr_inst r) f (setReader m (sr_inst r) g w0)) =
              currentSource w) as Hreader.
  { intros m f g.
    destruct (same_audio_setReader m (sr_inst r) f (setReader m (sr_inst r) g w0))
      as (-> & -> & _).
    by destruct (same_audio_setReader m (sr_inst r) g w0) as (-> & -> & _). }
  assert (forall f g, nodes (setFlashcard (sr_inst r) f (setFlashcard (sr_inst r) g w0)) = nodes w /\
            currentSource (setFlashcard (sr_inst r) f (setFlashcard (sr_inst r) g w0)) =
              currentSource w) as Hflash.
  { intros f g.
    destruct (same_audio_setFlashcard (sr_inst r) f (setFlashcard (sr_inst r) g w0))
      as (-> & -> & _).
    by destruct (same_audio_setFlashcard (sr_inst r) g w0) as (-> & -> & _). }
  destruct (sr_module r) eqn:Hm;
    unfold reader_speech_settled, flashcard_speech_settled, generateSpeech; rewrite Hne.
  - refine (Hplay StudyInterfaceTsx _ _ (fun w2 _ => _) _ _); apply Hreader.
  - refine (Hplay FlashcardTsx _ _ (fun w2 _ => _) _ _); apply Hflash.
  - refine (Hplay ConceptExplainerTsx _ _ (fun w2 _ => _) _ _); apply Hreader.
Qed.

Lemma late_speech_is_played_witness :
  panel (run initial left_trace) = Some (SilentPanel Chat) /\
  currentSource (speech_settled 0 (Some speech) (run initial left_trace)) StudyInterfaceTsx
    = Some 0%nat.
Proof.
  split; [reflexivity|].
  refine (proj1 (proj2 (late_speech_is_played (run initial left_trace) 0
            (mkRequest StudyInterfaceTsx 0 (js "A short summary.") false) speech
            (mkAudioBuffer 1 3 24000 [[1 # 32768; -2 # 32768; 32767 # 32768]%Q]) _ _ _ _)));
    reflexivity.
Defined.

(** *** An error message outlives a change of tool *)

(** X18: while the error of a failed generation is on display, choosing a tool
    that needs no generation (chat, explainer, or one whose content is
    there) makes it the active tool but leaves the error set: the error
    message stays on the screen and the tool's panel is not shown. *)
Theorem error_outlives_tool_switch w tool :
  error (study w) = true ->
  activeTool (study w) <> Some tool ->
  match tool with
  | Chat | ConceptExplainer => True
  | Summary => summary (study w) <> []
  | Flashcards => flashcards (study w) <> []
  | Quiz => quizQuestions (study w) <> 0%nat
  end ->
  let w' := handleToolSelect tool w in
  activeTool (study w') = Some tool /\
  error (study w') = true /\
  rendered (study w') = None /\
  panel w' = None.
Proof.
  intros He Ha Hready. cbv zeta. unfold handleToolSelect. cbv zeta.
  rewrite decide_False by done.
  assert (match tool with
          | Chat | ConceptExplainer => true
          | Summary => nonempty (summary (study w))
          | Flashcards => negb (length (flashcards (study w)) =? 0)%nat
          | Quiz => negb (quizQuestions (study w) =? 0)%nat
          end = true) as ->.
  { destruct tool; try done.
    - by destruct (summary (study w)).
    - by destruct (flashcards (study w)).
    - by destruct (quizQuestions (study w)). }
  unfold update_study, render. cbn [study set_study panel]. cbv zeta.
  assert (rendered (st_setActiveTool tool (study w)) = None) as Hrend.
  { unfold rendered. cbn. rewrite He. by destruct (isLoading (study w)). }
  rewrite Hrend. case_decide as Hp.
  - destruct (panel w) as [pl|] eqn:Hpanel; [done|]. cbn. rewrite Hpanel. done.
  - unfold unmount. cbn [panel set_study].
    destruct (panel w) as [[]|]; cbn; rewrite ?panel_stopAudio, ?study_stopAudio; try done.
    all: unfold stopAudio; cbn; repeat case_match; done.
Qed.

Lemma error_outlives_tool_switch_witness :
  rendered (study (handleToolSelect Summary (run initial failed_generation_trace))) = None.
Proof.
  refine (proj1 (proj2 (proj2 (error_outlives_tool_switch (run initial failed_generation_trace)
            Summary _ _ _)))).
  - reflexivity.
  - discriminate.
  - discriminate.
Defined.

(** *** Examples for the general statements *)

Lemma one_audible_source_per_file_witness :
  sounds (run initial reading_trace) 0 = true /\ 0%nat = 0%nat.
Proof.
  split; [reflexivity|].
  refine (one_audible_source_per_file (run initial reading_trace) 0 0
            (mkNode FlashcardTsx 1 true
               (mkAudioBuffer 1 3 24000 [[1 # 32768; -2 # 32768; 32767 # 32768]%Q]) Playing)
            _ _ _ _ _ _ _); try reflexivity.
  by exists reading_trace.
Defined.

Lemma toggle_stop_flashcard_witness :
  snd (handlePlayAudio (js "Mitosis") (run initial reading_trace)) = Ok tt.
Proof.
  refine (proj1 (toggle_stop_flashcard (run initial reading_trace)
            (mkFlashcardState 1 0 false (<[js "Mitosis" := speech]> ∅) true (Some (js "Mitosis")))
            (js "Mitosis") _ _ _)).
  - reflexivity.
  - reflexivity.
  - discriminate.
Defined.

Lemma toggle_stop_reader_witness :
  snd (handlePlay (run initial summary_reading_trace)) = Ok tt.
Proof.
  refine (proj1 (toggle_stop_reader (run initial summary_reading_trace) StudyInterfaceTsx
            (mkReaderState 0 [] true true (Some speech)) _ _)); reflexivity.
Defined.

Lemma cache_hit_no_synthesis_witness :
  requests (fst (handlePlayAudio (js "Mitosis") (run initial heard_trace))) =
  requests (run initial heard_trace).
Proof.
  refine (cache_hit_no_synthesis (run initial heard_trace)
            (mkFlashcardState 1 0 false (<[js "Mitosis" := speech]> ∅) false None)
            (js "Mitosis") speech _ _ _); reflexivity.
Defined.

Lemma inherited_key_no_synthesis_witness :
  requests (fst (handlePlayAudio (js "toString")
                   (run initial (open_flashcards [constructor_card])))) =
  requests (run initial (open_flashcards [constructor_card])).
Proof.
  refine (inherited_key_no_synthesis (run initial (open_flashcards [constructor_card]))
            (mkFlashcardState 1 0 false ∅ false None)
            (js "toString") (VFunction (js "toString")) _ _ _); reflexivity.
Defined.

Lemma stale_completion_witness :
  currentSource (source_ended 2 (run initial stale_trace)) = currentSource (run initial stale_trace).
Proof.
  refine (proj1 (stale_completion (run initial stale_trace) 2
            (mkNode FlashcardTsx 1 false
               (mkAudioBuffer 1 3 24000 [[1 # 32768; -2 # 32768; 32767 # 32768]%Q]) Stopped)
            (mkFlashcardState 1 0 false
               (<[js "Cell division" := speech]> (<[js "Mitosis" := speech]> ∅))
               false (Some (js "Cell division")))
            _ _ _ _ _ _)); try reflexivity.
  vm_compute. discriminate.
Defined.

Lemma card_navigation_witness :
  exists fs', mounted_flashcard (Nat.iter 3 (card_timer 1 true)
                                   (run initial (open_flashcards three_cards))) = Some fs' /\
              currentIndex fs' = 0%nat.
Proof.
  refine (proj1 (card_navigation (run initial (open_flashcards three_cards))
            (mkFlashcardState 1 0 false ∅ false None) 3 _ _)).
  - reflexivity.
  - vm_compute. lia.
Defined.

Lemma explained_state w rs text :
  panel w = Some (ExplainerPanel rs) ->
  let w1 := explained (rd_inst rs) (Some text) (handleExplain w) in
  panel w1 = Some (ExplainerPanel
                     (mkReaderState (rd_inst rs) text false (rd_isGeneratingSpeech rs) None)) /\
  requests w1 = requests w /\ decode_calls w1 = decode_calls w /\
  length (nodes w1) = length (nodes w).
Proof.
  intros Hp. cbv zeta. unfold explained, handleExplain. rewrite Hp.
  assert (forall f w0 r0, panel w0 = Some (ExplainerPanel r0) -> rd_inst r0 = rd_inst rs ->
            setReader ConceptExplainerTsx (rd_inst rs) f w0 =
            set_panel (Some (ExplainerPanel (f r0))) w0) as Hset.
  { intros f w0 r0 Hp0 Hi0. unfold setReader. by rewrite Hp0, Hi0, Nat.eqb_refl. }
  rewrite (Hset _ w rs) by done.
  set (wa := stopAudio ConceptExplainerTsx _).
  assert (panel wa = Some (ExplainerPanel (rd_setExplanation [] rs))) as Hpa.
  { subst wa. by rewrite panel_stopAudio. }
  assert (requests wa = requests w /\ decode_calls wa = decode_calls w /\
          length (nodes wa) = length (nodes w)) as (Hra & Hda & Hna).
  { subst wa. unfold stopAudio. cbn [currentSource set_panel].
    destruct (currentSource w ConceptExplainerTsx); [|done].
    cbn. repeat split. apply length_alter. }
  rewrite (Hset _ wa _ Hpa) by done.
  rewrite (Hset (rd_setAudioDataRef None) _ (rd_setIsPlaying false (rd_setExplanation [] rs)))
    by done.
  rewrite (Hset (rd_setExplanation text) _
             (rd_setAudioDataRef None (rd_setIsPlaying false (rd_setExplanation [] rs))))
    by done.
  done.
Qed.

(** X26: speech asked for one explanation that arrives after the next explanation
    is stored with the new explanation all the same: the explainer then
    shows the new text, plays the audio of the old one and keeps it for
    replay, whatever the two texts are. *)
Theorem pending_speech_outlives_new_explanation w rs req r p buffer text :
  panel w = Some (ExplainerPanel rs) ->
  requests w !! req = Some r ->
  sr_settled r = false ->
  sr_module r = ConceptExplainerTsx ->
  sr_inst r = rd_inst rs ->
  nonempty p = true ->
  decode_payload p = Ok buffer ->
  let w1 := speech_settled req (Some p)
              (explained (rd_inst rs) (Some text) (handleExplain w)) in
  (exists rs1, panel w1 = Some (ExplainerPanel rs1) /\
     explanation rs1 = text /\ audioDataRef rs1 = Some p /\ isPlaying rs1 = true) /\
  (exists s, currentSource w1 ConceptExplainerTsx = Some s /\ sounds w1 s = true) /\
  decode_calls w1 = decode_calls w ++ [p].
Proof.
  intros Hp Hr Hs Hm Hi Hne Hd. cbv zeta.
  destruct (explained_state w rs text Hp) as (Hp0 & Hr0 & Hd0 & Hn0).
  set (w0 := explained (rd_inst rs) (Some text) (handleExplain w)) in *.
  set (rs0 := mkReaderState (rd_inst rs) text false (rd_isGeneratingSpeech rs) None) in *.
  unfold speech_settled. rewrite Hr0, Hr, Hs, Hm, Hi.
  set (wq := set_requests _ w0).
  unfold reader_speech_settled, generateSpeech. rewrite Hne.
  assert (forall f w' r', panel w' = Some (ExplainerPanel r') -> rd_inst r' = rd_inst rs ->
            setReader ConceptExplainerTsx (rd_inst rs) f w' =
            set_panel (Some (ExplainerPanel (f r'))) w') as Hset.
  { intros f w' r' Hp' Hi'. unfold setReader. by rewrite Hp', Hi', Nat.eqb_refl. }
  rewrite (Hset _ wq rs0) by done.
  rewrite (Hset _ _ (rd_setAudioDataRef (Some p) rs0)) by done.
  set (rs1 := rd_setIsPlaying true (rd_setAudioDataRef (Some p) rs0)).
  set (wp := set_panel (Some (ExplainerPanel rs1)) _).
  pose proof (playAudio_spec ConceptExplainerTsx (rd_inst rs) true (VString p) wp) as Hspec.
  cbn [ToString] in Hspec. rewrite Hd in Hspec.
  destruct Hspec as ((Hres & Hnodes & Hcur) & _ & Hpanel & _ & _ & Hdec).
  destruct (playAudio ConceptExplainerTsx (rd_inst rs) true (VString p) wp) as [w1 res].
  cbn [fst snd] in *. subst res.
  split; [by exists rs1|]. split.
  - exists (length (nodes wp)). split; [rewrite Hcur; apply fn_lookup_insert|].
    unfold sounds. rewrite Hnodes.
    set (ws := match currentSource wp ConceptExplainerTsx with
               | Some s => stop_node s wp | None => wp end).
    assert (length (nodes ws) = length (nodes wp)) as Hlen.
    { subst ws. destruct (currentSource wp ConceptExplainerTsx); [|done].
      unfold stop_node. cbn. apply length_alter. }
    rewrite lookup_app_r by lia. by rewrite Hlen, Nat.sub_diag.
  - rewrite Hdec. by rewrite <- Hd0.
Qed.

Lemma pending_speech_outlives_new_explanation_witness :
  exists rs1,
    panel (speech_settled 0 (Some speech)
             (explained 1 (Some (js "Stars shine."))
                (handleExplain (run initial explainer_pending_trace)))) =
      Some (ExplainerPanel rs1) /\
    explanation rs1 = js "Stars shine." /\ audioDataRef rs1 = Some speech /\
    isPlaying rs1 = true.
Proof.
  refine (proj1 (pending_speech_outlives_new_explanation (run initial explainer_pending_trace)
            (mkReaderState 1 (js "Cells divide.") false true None) 0
            (mkRequest ConceptExplainerTsx 1 (js "Cells divide.") false) speech
            (mkAudioBuffer 1 3 24000 [[1 # 32768; -2 # 32768; 32767 # 32768]%Q])
            (js "Stars shine.") _ _ _ _ _ _ _)); reflexivity.
Defined.

End PageMore.

(** ** Conversations *)

Module ChatMore.
Import ChatPanel ChatFacts ChatSessions.

(** The state after an accepted send and its stream, written out. *)
Lemma send_state st fragments how :
  accepted st ->
  send fragments how st =
  let L := length (store st) in
  let u := mkMessage user (trim (userInput st)) in
  mkChat (store st ++ [u; mkMessage model (concat (appended <$> fragments))] ++
            match how with Failed => [errorMessage] | Completed => [] end)
         (messages st ++
            match how with
            | Completed => [L; S L]
            | Failed => if nonempty (concat (appended <$> fragments)) then [L; S L; (L + 2)%nat]
                        else [L; (L + 2)%nat]
            end)
         (session st) [] false (sent st ++ [trim (userInput st)]).
Proof.
  intros Hacc. unfold send. pose proof Hacc as (Hi & Hs & Hl). rewrite Hi, Hs, Hl.
  cbn [negb orb]. rewrite streaming_state by done. cbv zeta.
  destruct how; cbn [finish].
  - unfold on_complete. cbn [store messages session userInput sent isLoading].
    by rewrite Hs.
  - unfold on_error. cbn [store messages session userInput sent].
    rewrite !length_app. cbn [length].
    replace (length (messages st) + 2 - 1)%nat with (length (messages st) + 1)%nat by lia.
    rewrite lookup_app_r by lia.
    replace (length (messages st) + 1 - length (messages st))%nat with 1%nat by lia.
    cbn [lookup list_lookup]. rewrite lookup_app_r by lia.
    replace (S (length (store st)) - length (store st))%nat with 1%nat by lia.
    cbn [lookup list_lookup role content].
    rewrite bool_decide_eq_true_2 by done. cbn [andb].
    rewrite <- !app_assoc. cbn [app].
    destruct (nonempty (concat (appended <$> fragments))); cbn [negb].
    + by rewrite Hs, <- ?app_assoc.
    + rewrite insert_app_r_alt by lia.
      replace (length (messages st) + 1 - length (messages st))%nat with 1%nat by lia.
      by rewrite Hs.
Qed.

Lemma transcript_extended (st : ChatState) tail refs :
  wf st ->
  Forall (fun r => (length (store st) <= r)%nat) refs ->
  omap (fun r => (store st ++ tail) !! r) (messages st ++ refs) =
  transcript st ++ omap (fun r => tail !! (r - length (store st))%nat) refs.
Proof.
  intros Hwf Hf. rewrite omap_app. f_equal.
  - apply transcript_old_refs. eapply Forall_impl; [exact Hwf|]. cbn. intros r Hr.
    by rewrite lookup_app_l.
  - induction Hf as [|r l Hr _ IH]; [done|]. cbn [omap list_omap].
    rewrite lookup_app_r by done. by rewrite IH.
Qed.

(** What one turn does to a panel that is ready. *)
Lemma turn_spec st t :
  wf st -> session st = true -> isLoading st = false ->
  let st' := turn st t in
  wf st' /\ session st' = true /\ isLoading st' = false /\
  if nonempty (trim (typed t)) then
    sent st' = sent st ++ [trim (typed t)] /\
    exists replies,
      transcript st' = transcript st ++ mkMessage user (trim (typed t)) :: replies /\
      replies <> [] /\ Forall (fun m => role m = model) replies
  else
    sent st' = sent st /\ transcript st' = transcript st.
Proof.
  intros Hwf Hs Hl. cbv zeta. unfold turn.
  set (st0 := setUserInput (typed t) st).
  assert (wf st0) as Hwf0 by done.
  destruct (nonempty (trim (typed t))) eqn:Hne.
  - assert (accepted st0) as Hacc by done.
    rewrite (send_state st0 (reply t) (ending t) Hacc). cbv zeta.
    change (store st0) with (store st). change (messages st0) with (messages st).
    change (session st0) with (session st). change (sent st0) with (sent st).
    change (userInput st0) with (typed t).
    set (L := length (store st)). split; [|split; [done|split; [done|split; [done|]]]].
    + unfold wf. cbn [store messages]. apply Forall_app. split.
      * eapply Forall_impl; [exact Hwf|]. cbn. intros r Hr. rewrite length_app. lia.
      * destruct (ending t); [|destruct (nonempty (concat (appended <$> reply t)))];
          repeat (apply Forall_cons; split; [rewrite !length_app; cbn [length]; fold L; lia|]);
          apply Forall_nil_2.
    + unfold transcript at 1. cbn [store messages].
      rewrite (transcript_extended st); [|done|].
      2:{ destruct (ending t); [|destruct (nonempty (concat (appended <$> reply t)))];
          repeat (apply Forall_cons; split; [fold L; lia|]); apply Forall_nil_2. }
      fold L.
      destruct (ending t); [|destruct (nonempty (concat (appended <$> reply t)))];
        cbn [omap list_omap app];
        rewrite ?Nat.sub_diag;
        replace (S L - L)%nat with 1%nat by lia;
        replace (L + 2 - L)%nat with 2%nat by lia;
        cbn; eexists; (split; [reflexivity|split; [done|repeat constructor]]).
  - assert (negb (nonempty (trim (userInput st0))) || negb (session st0) || isLoading st0 = true) as Hg.
    { change (userInput st0) with (typed t). by rewrite Hne. }
    unfold send, handleSendMessage. rewrite Hg. done.
Qed.

Lemma user_texts_app tr1 tr2 : user_texts (tr1 ++ tr2) = user_texts tr1 ++ user_texts tr2.
Proof. unfold user_texts. by rewrite filter_app, fmap_app. Qed.

Lemma user_texts_models replies :
  Forall (fun m => role m = model) replies -> user_texts replies = [].
Proof.
  induction 1 as [|m l Hm _ IH]; [done|]. unfold user_texts in *.
  rewrite filter_cons_False by (by rewrite Hm). done.
Qed.

Lemma conversation_ready turns :
  wf (conversation turns) /\ session (conversation turns) = true /\
  isLoading (conversation turns) = false.
Proof.
  induction turns as [|t turns (Hwf & Hs & Hl)] using rev_ind.
  - repeat split. repeat constructor.
  - unfold conversation in *. rewrite foldl_snoc.
    by destruct (turn_spec _ t Hwf Hs Hl) as (? & ? & ? & _).
Qed.

(** X19: whatever the user types and however the replies end, after each turn
    the panel is ready for the next one; the transcript starts with the
    greeting; and the user's entries of the transcript are exactly the
    messages that were sent to the chat service, in order: the inputs that
    are not blank, trimmed. *)
Theorem conversation_invariant turns :
  let st := conversation turns in
  isLoading st = false /\
  head (transcript st) = Some greeting /\
  user_texts (transcript st) = sent st /\
  sent st = filter (fun s => s <> []) (trim <$> (typed <$> turns)).
Proof.
  cbv zeta. split; [apply conversation_ready|].
  induction turns as [|t turns IH] using rev_ind.
  - repeat split.
  - destruct (conversation_ready turns) as (Hwf & Hs & Hl).
    unfold conversation in *. rewrite foldl_snoc.
    set (st := foldl turn mounted turns) in *.
    destruct IH as (Hh & Hu & Hsent).
    destruct (turn_spec st t Hwf Hs Hl) as (Hwf' & Hs' & Hl' & Hrest).
    rewrite !fmap_app, filter_app. cbn [fmap list_fmap].
    destruct (nonempty (trim (typed t))) eqn:Hne.
    + destruct Hrest as (-> & replies & -> & _ & Hmod).
      rewrite filter_cons_True by (by destruct (trim (typed t))).
      split; [|split].
      * destruct (transcript st); [done|]. done.
      * rewrite user_texts_app, Hu. f_equal. unfold user_texts.
        rewrite filter_cons_True by done. cbn [fmap list_fmap content]. f_equal.
        by apply user_texts_models.
      * by rewrite Hsent.
    + destruct Hrest as (-> & ->).
      rewrite filter_cons_False by (destruct (trim (typed t)); [by intros []|done]).
      cbn. rewrite app_nil_r. done.
Qed.

(** X20: the transcript only grows: what was on display after some turns is
    still the beginning of the transcript after any further turns. *)
Theorem transcript_grows turns more :
  transcript (conversation turns) `prefix_of` transcript (conversation (turns ++ more)).
Proof.
  induction more as [|t more IH] using rev_ind.
  - by rewrite app_nil_r.
  - etrans; [exact IH|]. rewrite app_assoc. unfold conversation. rewrite foldl_snoc.
    fold (conversation (turns ++ more)).
    destruct (conversation_ready (turns ++ more)) as (Hwf & Hs & Hl).
    destruct (turn_spec _ t Hwf Hs Hl) as (_ & _ & _ & Hrest).
    destruct (nonempty (trim (typed t))).
    + destruct Hrest as (_ & replies & -> & _). by eexists.
    + destruct Hrest as (_ & ->). done.
Qed.

End ChatMore.

(** ** The quiz *)

Module QuizFacts.
Import QuizPanel.

Lemma quiz_inv_click questions st c :
  quiz_inv questions st -> quiz_inv questions (click questions st c).
Proof.
  intros Hinv. pose proof Hinv as (Hi & Hs & He & Ha). unfold click.
  destruct questions as [|q0 qs] eqn:Hq; [done|]. rewrite <- Hq in *.
  assert (0 < length questions)%nat as Hlen by (rewrite Hq; cbn; lia).
  assert (currentIndex st < length questions)%nat as Hi'.
  { destruct Hi as [|[? _]]; [done|]. subst. done. }
  assert (questions <> []) as Hne by (by rewrite Hq).
  destruct (showResults st) eqn:Hres.
  { destruct c; try exact Hinv.
    unfold restartQuiz, quiz_inv. cbn. repeat split; try done; auto with lia. }
  destruct c.
  - destruct (questions !! currentIndex st) as [q|]; [|exact Hinv].
    destruct (options q !! i); [|exact Hinv].
    unfold handleAnswerSelect.
    destruct (isAnswered st) eqn:Hans; [exact Hinv|].
    unfold quiz_inv. cbn. rewrite ?Hans, ?Hres in *. done.
  - destruct (isAnswered st) eqn:Hans; [exact Hinv|].
    destruct (selectedAnswer st) eqn:Hsel; [|exact Hinv].
    unfold handleCheckAnswer. rewrite Hsel. cbn [currentIndex].
    destruct (questions !! currentIndex st) as [q|] eqn:Hlk.
    2:{ apply lookup_ge_None in Hlk. lia. }
    cbn in Hs.
    case_bool_decide; unfold quiz_inv; cbn; rewrite ?Hres; repeat split;
      auto with lia; by intros ?.
  - destruct (isAnswered st) eqn:Hans; [|exact Hinv].
    unfold handleNextQuestion. cbn in Hs.
    destruct (Nat.ltb_spec (currentIndex st) (length questions - 1));
      unfold quiz_inv; cbn; repeat split; auto with lia; try (by intros ?).
  - exact Hinv.
Qed.

Lemma quiz_inv_clicks questions cs : forall st,
  quiz_inv questions st -> quiz_inv questions (clicks questions st cs).
Proof.
  induction cs as [|c cs IH]; intros st Hinv; [done|].
  cbn. apply IH. by apply quiz_inv_click.
Qed.

Lemma quiz_inv_initial questions : quiz_inv questions fresh_quiz.
Proof.
  unfold quiz_inv, fresh_quiz. cbn. repeat split; auto with lia.
  destruct questions; [right|left; cbn; lia]. done.
Qed.

(** X21: whatever the user clicks, the score never exceeds the number of
    questions, and with questions present the current index stays inside
    the list, so [currentQuestion] is never [undefined]. *)
Theorem score_within_bounds questions cs :
  let st := clicks questions fresh_quiz cs in
  (score st <= length questions)%nat /\
  (score st <= currentIndex st + 1)%nat /\
  (questions <> [] -> is_Some (questions !! currentIndex st)).
Proof.
  cbv zeta.
  destruct (quiz_inv_clicks questions cs fresh_quiz (quiz_inv_initial questions))
    as (Hi & Hs & He & _).
  split; [|split].
  - destruct Hi as [Hi|[Hq _]]; [|rewrite He by done; lia].
    destruct (_ || _); lia.
  - destruct (_ || _); lia.
  - intros Hne. apply lookup_lt_is_Some. destruct Hi as [|[? _]]; done.
Qed.

(** One question answered: the state after choosing option [i], checking
    and going on. *)
Lemma answer_step questions st q i :
  questions !! currentIndex st = Some q ->
  is_Some (options q !! i) ->
  isAnswered st = false -> showResults st = false ->
  clicks questions st (answer i) =
  mkQuiz (if (currentIndex st <? length questions - 1)%nat
          then currentIndex st + 1 else currentIndex st)%nat
         None false
         (score st + if is_correct q i then 1 else 0)
         (negb (currentIndex st <? length questions - 1)%nat).
Proof.
  intros Hq [o Ho] Hans Hres. unfold answer, clicks. cbn [foldl].
  assert (questions <> []) as Hne by (intros ->; done).
  assert (click questions st (ClickOption i) =
          mkQuiz (currentIndex st) (Some o) false (score st) false) as ->.
  { unfold click. destruct questions; [done|]. rewrite Hres, Hq, Ho, Hans.
    unfold handleAnswerSelect. by rewrite Hans, Hres. }
  assert (click questions (mkQuiz (currentIndex st) (Some o) false (score st) false) ClickCheck =
          mkQuiz (currentIndex st) (Some o) true
                 (score st + if is_correct q i then 1 else 0) false) as ->.
  { unfold click. destruct questions; [done|]. cbn [showResults isAnswered selectedAnswer].
    unfold handleCheckAnswer. cbn [selectedAnswer currentIndex]. rewrite Hq.
    unfold is_correct. rewrite Ho.
    case_bool_decide as H1; case_bool_decide as H2; cbn; try done.
    - exfalso. apply H2. by subst.
    - exfalso. apply H1. by simplify_eq.
    - by rewrite Nat.add_0_r. }
  unfold click. destruct questions; [done|]. cbn [showResults isAnswered].
  unfold handleNextQuestion. cbn [currentIndex score showResults].
  by destruct (_ <? _)%nat.
Qed.

Lemma answers_from questions : forall choices done_ todo st,
  questions = done_ ++ todo ->
  todo <> [] ->
  currentIndex st = length done_ ->
  isAnswered st = false -> showResults st = false ->
  Forall2 (fun q i => is_Some (options q !! i)) todo choices ->
  let st' := clicks questions st (concat (answer <$> choices)) in
  showResults st' = true /\
  score st' = (score st + correct_count todo choices)%nat.
Proof.
  induction choices as [|i choices IH]; intros done_ todo st Hq Hne Hci Hans Hres Hall;
    inversion Hall as [|q ? todo' ? Hopt Hall' Heq]; subst; [done|].
  cbv zeta. cbn [fmap list_fmap concat]. unfold clicks. rewrite foldl_app.
  fold (clicks (done_ ++ q :: todo') st (answer i)).
  fold (clicks (done_ ++ q :: todo') (clicks (done_ ++ q :: todo') st (answer i))
          (concat (answer <$> choices))).
  rewrite (answer_step _ st q i); [|by rewrite Hci, list_lookup_middle|done..].
  rewrite Hci, length_app. cbn [length].
  destruct todo' as [|q' todo''].
  - inversion Hall'; subst.
    match goal with |- context [(?a <? ?b)%nat] => destruct (Nat.ltb_spec a b) end;
      [cbn [length] in *; lia|].
    cbn. split; [done|]. lia.
  - match goal with |- context [(?a <? ?b)%nat] => destruct (Nat.ltb_spec a b) end;
      [|cbn [length] in *; lia].
    cbn [negb].
    change (correct_count (q :: ?t) (i :: ?c))
      with ((if is_correct q i then 1 else 0) + correct_count t c)%nat.
    edestruct (IH (done_ ++ [q]) (q' :: todo'')) as (Hr & Hs);
      [by rewrite <- app_assoc|done| | | |exact Hall'|].
    4:{ cbv zeta in Hr, Hs. rewrite Hr, Hs. cbn [score]. split; [done|]. lia. }
    + cbn [currentIndex]. rewrite length_app. cbn. lia.
    + done.
    + done.
Qed.

(** X22: a quiz taken from the first question to the last, one option chosen
    per question: the results are shown and the score is the number of
    questions whose chosen option is the correct answer. *)
Theorem quiz_score questions choices :
  questions <> [] ->
  Forall2 (fun q i => is_Some (options q !! i)) questions choices ->
  let st := clicks questions fresh_quiz (concat (answer <$> choices)) in
  showResults st = true /\ score st = correct_count questions choices.
Proof.
  intros Hne Hall. by apply (answers_from questions choices [] questions fresh_quiz).
Qed.

Lemma quiz_score_witness :
  score (clicks three_questions fresh_quiz (concat (answer <$> [1; 1; 1]%nat))) = 2%nat.
Proof.
  refine (proj2 (quiz_score three_questions [1; 1; 1]%nat _ _)).
  - discriminate.
  - repeat constructor; by eexists.
Defined.

End QuizFacts.

(** ** The upload *)

Module UploadFacts.
Import Upload.

Lemma trim_start_blank s :
  ChatPanel.trim_start s = [] <-> Forall is_space s.
Proof.
  induction s as [|c s IH]; [by split|]. cbn [ChatPanel.trim_start].
  destruct (ChatPanel.is_js_whitespace c) eqn:Hc.
  - rewrite IH. split; [by constructor|by inversion 1].
  - split; [done|]. inversion 1 as [|? ? Hc']. unfold is_space in Hc'. congruence.
Qed.

Lemma trim_start_head s c r :
  ChatPanel.trim_start s = c :: r -> ChatPanel.is_js_whitespace c = false.
Proof.
  induction s as [|a s IH]; [done|]. cbn [ChatPanel.trim_start].
  destruct (ChatPanel.is_js_whitespace a) eqn:Ha; [done|]. by intros [= <- _].
Qed.

(** [trim] leaves nothing exactly when every code unit is white space. *)
Lemma blank_spec s : blank s = true <-> Forall is_space s.
Proof.
  unfold blank, ChatPanel.trim.
  destruct (ChatPanel.trim_start s) as [|c r] eqn:Hs.
  - cbn. split; [|done]. intros _. by apply trim_start_blank.
  - apply trim_start_head in Hs as Hc. split.
    + intros Hb. exfalso.
      assert (rev (ChatPanel.trim_start (rev (c :: r))) = []) as Hr
        by (by destruct (rev (ChatPanel.trim_start (rev (c :: r))))).
      apply (f_equal (@rev N)) in Hr. rewrite rev_involutive in Hr. cbn [rev] in Hr.
      apply trim_start_blank in Hr. apply Forall_app in Hr as [_ Hr].
      inversion Hr as [|? ? Hc']. unfold is_space in Hc'. congruence.
    + intros Hf. apply trim_start_blank in Hf. congruence.
Qed.

Lemma join_blank sep parts :
  Forall is_space sep ->
  Forall is_space (join sep parts) <-> Forall (Forall is_space) parts.
Proof.
  intros Hsep. induction parts as [|p rest IH]; [by split|].
  cbn [join]. destruct rest as [|q rest].
  - split; [by repeat constructor|by inversion 1].
  - rewrite !Forall_app, IH. split.
    + intros (? & _ & ?). by constructor.
    + inversion 1; subst. done.
Qed.

Lemma full_text_blank (pdf : list (list JSString)) :
  blank (full_text (page_text <$> pdf)) = true <-> Forall (Forall (Forall is_space)) pdf.
Proof.
  rewrite blank_spec. unfold full_text.
  rewrite join_blank by (by repeat constructor).
  rewrite Forall_fmap. apply Forall_iff. intros items. cbn.
  unfold page_text. apply join_blank. by repeat constructor.
Qed.

(** X23: a PDF in which some text item holds a code unit that is not white
    space is handed to the application as it was extracted, the items of a
    page joined by a space and the pages by an empty line, and the OCR
    service is not called. *)
Theorem text_pdf_needs_no_ocr file pdf :
  file_type file = js "application/pdf" ->
  readable file = true ->
  pages file = Some pdf ->
  Exists (Exists (Exists (fun c => ChatPanel.is_js_whitespace c = false))) pdf ->
  handleFileChange (Some file) =
    (FileSelected (full_text (page_text <$> pdf)) (file_name file), 0%nat).
Proof.
  intros Ht Hr Hp Hex. unfold handleFileChange. rewrite Ht, Hr, Hp.
  rewrite bool_decide_eq_true_2 by done. cbn [negb]. cbv zeta.
  destruct (blank (full_text (page_text <$> pdf))) eqn:Hb; [|done].
  exfalso. apply full_text_blank in Hb.
  apply Exists_exists in Hex as (items & Hin & Hex). apply Exists_exists in Hex as (s & Hin' & Hex).
  apply Exists_exists in Hex as (c & Hin'' & Hc).
  rewrite Forall_forall in Hb. specialize (Hb _ Hin).
  rewrite Forall_forall in Hb. specialize (Hb _ Hin').
  rewrite Forall_forall in Hb. specialize (Hb _ Hin''). unfold is_space in Hb. congruence.
Qed.

Lemma text_pdf_needs_no_ocr_witness :
  handleFileChange (Some notes_pdf) =
    (FileSelected (js "Cell division" ++ [10; 10; 10; 10] ++ js "  Mitosis") (js "notes.pdf"),
     0%nat).
Proof.
  refine (text_pdf_needs_no_ocr notes_pdf
            [[js "Cell"; js "division"]; []; [js " "; js "Mitosis"]] _ _ _ _);
    [reflexivity..|].
  apply Exists_cons_hd, Exists_cons_hd, Exists_cons_hd. reflexivity.
Defined.




(** X25: whatever file is chosen and whatever the libraries answer: when the
    upload ends in [onFileSelect], the content holds a code unit that is not
    white space, the name is the file's, and the application shows the
    study interface with that content and no error. *)
Theorem accepted_upload_is_shown chosen st content name calls :
  handleFileChange chosen = (FileSelected content name, calls) ->
  Exists (fun c => ChatPanel.is_js_whitespace c = false) content /\
  (exists file, chosen = Some file /\ name = file_name file) /\
  renderContent (upload chosen st) = StudyInterfaceScreen content name /\
  appError (upload chosen st) = None.
Proof.
  intros H.
  assert (blank content = false /\ exists file, chosen = Some file /\ name = file_name file)
    as (Hb & Hfile).
  { unfold handleFileChange in H. destruct chosen as [file|]; [|done].
    repeat (case_match; simplify_eq); split; try done; by exists file. }
  assert (Exists (fun c => ChatPanel.is_js_whitespace c = false) content) as Hex.
  { assert (~ Forall is_space content) as Hn.
    { intros Hf. apply blank_spec in Hf. congruence. }
    clear -Hn. induction content as [|c l IH]; [by destruct Hn|].
    destruct (ChatPanel.is_js_whitespace c) eqn:Hc; [|by left].
    right. apply IH. intros Hf. apply Hn. by constructor. }
  split; [done|]. split; [done|].
  - unfold upload. rewrite H. cbn [fst handleFileSelect renderContent studyContent fileName appError].
    destruct content; [|done]. by inversion Hex.
Qed.

Lemma accepted_upload_is_shown_witness :
  renderContent (upload (Some scan_pdf) landing) =
    StudyInterfaceScreen ([10; 10] ++ js "Mitosis") (js "scan.pdf").
Proof.
  refine (proj1 (proj2 (proj2 (accepted_upload_is_shown (Some scan_pdf) landing
            ([10; 10] ++ js "Mitosis") (js "scan.pdf") 2 _)))).
  reflexivity.
Defined.

End UploadFacts.
